(** * The keg scale backend: measurement ledger and venue state

    A shallow embedding of [backend/scale.go] (the [Scale] state holder, its
    ring buffer of measurements and the open/closed venue state), together
    with the storage back ends of [backend/store_fake.go] and
    [backend/store_redis.go] and the handlers of the HTTP endpoints that
    call the [Scale], and the properties of the ledger, of the venue state
    machine, of the store and of the handlers proved or refuted against
    that embedding.

    Conventions of the embedding:
    - a Go [int] is a [Z] with its 64-bit wrap-around written out ([GoInt]);
    - a [float64] is a primitive binary64 float;
    - a [time.Time] is a [Z] counting nanoseconds; every call of [time.Now()]
      in the source is a parameter of the embedded function, in source order;
    - a method of [*Scale] is a computation in the monad [M]: it threads the
      fields of the [Scale], the state of the store behind the [Storage]
      interface, and a log of the effects the source performs on its mutex,
      its store, its logger and its Prometheus gauges; a computation either
      returns or panics, and deferred calls run in both cases.

    [JsonState], which hands the [Scale] to [json.Marshal], is left out, and
    with it the status endpoint; so is the dashboard endpoint, which formats
    durations with a library. *)

From Stdlib Require Import ZArith Lia Floats String.
From stdpp Require Import base list.

Open Scope Z_scope.

(** ** Go integers *)

Module GoInt.

Definition min_int : Z := -9223372036854775808.
Definition max_int : Z := 9223372036854775807.

(** Two's complement wrap-around of a 64-bit signed integer. *)
Definition wrap (z : Z) : Z :=
  (z + 9223372036854775808) mod 18446744073709551616 - 9223372036854775808.

Definition add (a b : Z) : Z := wrap (a + b).
Definition sub (a b : Z) : Z := wrap (a - b).

Definition in_range (z : Z) : Prop := min_int <= z <= max_int.

End GoInt.

(** ** Go time *)

Module GoTime.

(** An instant, in nanoseconds; a duration, an [int64] of nanoseconds. *)
Definition Time : Type := Z.
Definition Duration : Type := Z.

Definition Minute : Duration := 60000000000.
Definition Hour : Duration := 3600000000000.

(** The zero value of [time.Time]: January 1, year 1, relative to the
    Unix epoch. *)
Definition zero : Time := -62135596800000000000.

Definition Add (t : Time) (d : Duration) : Time := t + d.

(** [t.Sub(u)] saturates at the extreme durations. *)
Definition Sub (t u : Time) : Duration :=
  Z.max GoInt.min_int (Z.min GoInt.max_int (t - u)).

(** [time.Since(t)], with the clock reading it takes made explicit. *)
Definition Since (now t : Time) : Duration := Sub now t.

End GoTime.

Import GoTime.

(** ** Data model *)

Definition OkLimit : Duration := 5 * Minute.

Record Measurement : Type := mkMeasurement {
  Index : Z;
  Weight : float;
  At : Time
}.

Record Pub : Type := mkPub {
  IsOpen : bool;
  OpenedAt : Time;
  ClosedAt : Time
}.

(** The data fields of [Scale]; its field [Pub] is [pub] here, [Pub] being
    the name of its type.  The [mux], [monitor], [store] and [logger] fields
    live in the environment [Env] below. *)
Record Scale : Type := mkScale {
  Measurements : list Measurement;
  index : Z;
  size : Z;
  valid : Z;
  pub : Pub;
  ActiveKeg : Z;
  LastOk : Time;
  Rssi : float
}.

(** The zero value of [Measurement], which [make] fills a slice with. *)
Definition zeroMeasurement : Measurement :=
  {| Index := 0; Weight := 0%float; At := GoTime.zero |}.

(** The composite literal [Measurement{Weight: 0, Index: -1}]. *)
Definition emptyMeasurement : Measurement :=
  {| Index := -1; Weight := 0%float; At := GoTime.zero |}.

Definition set_Measurements (l : list Measurement) (s : Scale) : Scale :=
  {| Measurements := l; index := index s; size := size s; valid := valid s;
     pub := pub s; ActiveKeg := ActiveKeg s; LastOk := LastOk s;
     Rssi := Rssi s |}.

Definition set_index (i : Z) (s : Scale) : Scale :=
  {| Measurements := Measurements s; index := i; size := size s;
     valid := valid s; pub := pub s; ActiveKeg := ActiveKeg s;
     LastOk := LastOk s; Rssi := Rssi s |}.

Definition set_valid (v : Z) (s : Scale) : Scale :=
  {| Measurements := Measurements s; index := index s; size := size s;
     valid := v; pub := pub s; ActiveKeg := ActiveKeg s; LastOk := LastOk s;
     Rssi := Rssi s |}.

Definition set_pub (p : Pub) (s : Scale) : Scale :=
  {| Measurements := Measurements s; index := index s; size := size s;
     valid := valid s; pub := p; ActiveKeg := ActiveKeg s;
     LastOk := LastOk s; Rssi := Rssi s |}.

Definition set_ActiveKeg (k : Z) (s : Scale) : Scale :=
  {| Measurements := Measurements s; index := index s; size := size s;
     valid := valid s; pub := pub s; ActiveKeg := k; LastOk := LastOk s;
     Rssi := Rssi s |}.

Definition set_LastOk (t : Time) (s : Scale) : Scale :=
  {| Measurements := Measurements s; index := index s; size := size s;
     valid := valid s; pub := pub s; ActiveKeg := ActiveKeg s; LastOk := t;
     Rssi := Rssi s |}.

Definition set_Rssi (r : float) (s : Scale) : Scale :=
  {| Measurements := Measurements s; index := index s; size := size s;
     valid := valid s; pub := pub s; ActiveKeg := ActiveKeg s;
     LastOk := LastOk s; Rssi := r |}.

Definition set_IsOpen (b : bool) (p : Pub) : Pub :=
  {| IsOpen := b; OpenedAt := OpenedAt p; ClosedAt := ClosedAt p |}.

Definition set_OpenedAt (t : Time) (p : Pub) : Pub :=
  {| IsOpen := IsOpen p; OpenedAt := t; ClosedAt := ClosedAt p |}.

Definition set_ClosedAt (t : Time) (p : Pub) : Pub :=
  {| IsOpen := IsOpen p; OpenedAt := OpenedAt p; ClosedAt := t |}.

(** [len] of a slice. *)
Definition len {A : Type} (l : list A) : Z := Z.of_nat (length l).

(** The longest [[]Measurement] that [make] allocates: a [Measurement] takes
    40 bytes (an [int], a [float64] and a [time.Time] of 24 bytes), and the
    runtime refuses an allocation above [maxAlloc], 2^48 bytes; the bound
    is 2^48 / 40. *)
Definition max_slice_len : Z := 7036874417766.

(** ** Errors, effects and the storage interface *)

Inductive error : Type :=
| ErrStore (msg : string)
| ErrWrap (prefix : string) (cause : error).

(** The gauges of [Monitor] ([backend/monitor.go]). *)
Inductive gauge : Type :=
| kegWeight | activeKeg | beersLeft | scaleWifiRssi | lastUpdate | pubIsOpen.

(** The calls a [Scale] makes on its [store]. *)
Inductive store_call : Type :=
| CallSetActiveKeg (keg : Z)
| CallGetActiveKeg
| CallAddMeasurement (m : Measurement)
| CallGetMeasurements.

(** What a method does besides updating the fields of the [Scale]. *)
Inductive event : Type :=
| EvLock                                  (* s.mux.Lock() *)
| EvUnlock                                (* s.mux.Unlock() *)
| EvStore (c : store_call)                (* s.store.<method>(...) *)
| EvGaugeSet (g : gauge) (v : float)      (* s.monitor.<g>...Set(v) *)
| EvGaugeNow (g : gauge)                  (* ...SetToCurrentTime() *)
| EvInfof (format : string) (arg : float) (* s.logger.Infof(format, arg) *).

(** Modelled from the spec: the declaration of the [Storage] interface is
    not among the sources.  Its methods are those of the Persistence Adapter
    contract, under the names and with the results that [Scale] calls them
    with and that [FakeStore] and [RedisStore] implement: over the state [W]
    of the store, a method returns its Go results (a value and an [error],
    [None] for [nil]) and the next state of the store. *)
Class Storage (W : Type) : Type := {
  store_SetActiveKeg : Z -> W -> option error * W;
  store_GetActiveKeg : W -> (Z * option error) * W;
  store_AddMeasurement : Measurement -> W -> option error * W;
  store_GetMeasurements : W -> (list Measurement * option error) * W
}.

(** [FakeStore] of [backend/store_fake.go]: its only field is [isLow]. *)
Record FakeStore : Type := mkFakeStore { isLow : bool }.

#[export] Instance FakeStore_Storage : Storage FakeStore := {
  store_SetActiveKeg _ w := (None, w);
  store_GetActiveKeg w := ((0, None), w);
  store_AddMeasurement _ w := (None, w);
  store_GetMeasurements w := (([], None), w)
}.

(** [RedisStore] of [backend/store_redis.go], seen from its client: the
    server is reachable or not, and holds the list under the key
    "measurements" and, when set, the value under "active_keg".  Encoding a
    measurement with gob and decoding it again is taken to give it back. *)
Record RedisStore : Type := mkRedisStore {
  connected : bool;
  measurements_list : list Measurement;
  active_keg_key : option Z
}.

Definition redis_down : error := ErrStore "dial tcp: connection refused".
Definition redis_nil : error := ErrStore "redis: nil".

(** [LTRIM key -1000 -1]: the last 1000 elements are kept. *)
Definition ltrim_last_1000 (l : list Measurement) : list Measurement :=
  drop (length l - 1000)%nat l.

#[export] Instance RedisStore_Storage : Storage RedisStore := {
  store_SetActiveKeg keg w :=
    if connected w
    then (None, {| connected := true;
                   measurements_list := measurements_list w;
                   active_keg_key := Some keg |})
    else (Some redis_down, w);
  store_GetActiveKeg w :=
    if connected w
    then match active_keg_key w with
         | Some keg => ((keg, None), w)
         | None => ((0, Some redis_nil), w)
         end
    else ((0, Some redis_down), w);
  store_AddMeasurement m w :=
    if connected w
    then (None, {| connected := true;
                   measurements_list :=
                     ltrim_last_1000 (measurements_list w ++ [m]);
                   active_keg_key := active_keg_key w |})
    else (Some redis_down, w);
  store_GetMeasurements w :=
    if connected w
    then ((measurements_list w, None), w)
    else (([], Some redis_down), w)
}.

(** ** The monad of methods *)

Inductive outcome (A : Type) : Type :=
| Ret (a : A)
| Panic (msg : string).

Arguments Ret {A} a.
Arguments Panic {A} msg.

Section Machine.

Context {W : Type} `{Storage W}.

(** The fields of the [Scale], the state of its store, and the effects
    performed so far, newest first. *)
Record Env : Type := mkEnv {
  scale : Scale;
  world : W;
  trace : list event
}.

Definition M (A : Type) : Type := Env -> outcome A * Env.

Definition ret {A : Type} (a : A) : M A := fun e => (Ret a, e).

Definition bind {A B : Type} (c : M A) (k : A -> M B) : M B :=
  fun e =>
    match c e with
    | (Ret a, e') => k a e'
    | (Panic msg, e') => (Panic msg, e')
    end.

Definition panic {A : Type} (msg : string) : M A := fun e => (Panic msg, e).

Definition get_scale : M Scale := fun e => (Ret (scale e), e).

Definition modify_scale (f : Scale -> Scale) : M unit :=
  fun e =>
    (Ret tt, {| scale := f (scale e); world := world e; trace := trace e |}).

Definition emit (ev : event) : M unit :=
  fun e =>
    (Ret tt,
     {| scale := scale e; world := world e; trace := ev :: trace e |}).

(** A call of a method of [s.store]. *)
Definition call_store {A : Type} (c : store_call) (f : W -> A * W) : M A :=
  fun e =>
    let (a, w') := f (world e) in
    (Ret a,
     {| scale := scale e; world := w'; trace := EvStore c :: trace e |}).

(** [defer cleanup] followed by [body]: [cleanup] runs when [body] returns
    and when it panics. *)
Definition defer {A : Type} (cleanup : M unit) (body : M A) : M A :=
  fun e =>
    let (r, e') := body e in
    (r, snd (cleanup e')).

(** [s.mux.Lock(); defer s.mux.Unlock()] followed by [body]. *)
Definition locked {A : Type} (body : M A) : M A :=
  bind (emit EvLock) (fun _ => defer (emit EvUnlock) body).

Definition when (b : bool) (c : M unit) : M unit :=
  if b then c else ret tt.

(** [for _, x := range l { body x }]. *)
Fixpoint for_range {A : Type} (l : list A) (body : A -> M unit) : M unit :=
  match l with
  | [] => ret tt
  | x :: l' => bind (body x) (fun _ => for_range l' body)
  end.

(** [for i := from; i < from + count; i++ { acc = body i acc }]. *)
Fixpoint for_count {A : Type} (count : nat) (i : Z) (acc : A)
    (body : Z -> A -> M A) : M A :=
  match count with
  | O => ret acc
  | S count' =>
      bind (body i acc) (fun acc' => for_count count' (i + 1) acc' body)
  end.

(** [s.Measurements[i]] and [s.Measurements[i] = m]: an index out of range
    panics. *)
Definition slice_get (i : Z) : M Measurement :=
  bind get_scale (fun s =>
    if (0 <=? i) && (i <? len (Measurements s))
    then match Measurements s !! Z.to_nat i with
         | Some m => ret m
         | None => panic "index out of range"
         end
    else panic "index out of range").

Definition slice_set (i : Z) (m : Measurement) : M unit :=
  bind get_scale (fun s =>
    if (0 <=? i) && (i <? len (Measurements s))
    then modify_scale (set_Measurements (<[Z.to_nat i := m]> (Measurements s)))
    else panic "index out of range").

(** [a % b]: the remainder of the truncated division; a zero divisor
    panics. *)
Definition int_rem (a b : Z) : M Z :=
  if b =? 0 then panic "integer divide by zero" else ret (Z.rem a b).

End Machine.

Arguments Env W : clear implicits.
Arguments M W A : clear implicits.

Declare Scope go_scope.
Delimit Scope go_scope with go.
Notation "x <- c ;; k" := (bind c (fun x => k))
  (at level 100, c at next level, right associativity) : go_scope.
Notation "c ;; k" := (bind c (fun _ => k))
  (at level 100, right associativity) : go_scope.
Open Scope go_scope.

(** ** The methods of [Scale] *)

Section Scale.

Context {W : Type} `{Storage W}.

Definition loadDataFromStore : M W unit :=
  r <- call_store CallGetMeasurements store_GetMeasurements ;;
  let '(measurements, err) := r in
  match err with
  | None =>
      modify_scale (set_index (GoInt.sub (len measurements) 1)) ;;
      let i := 0 in
      for_range measurements (fun m => slice_set i m)
  | Some _ => ret tt
  end ;;
  r <- call_store CallGetActiveKeg store_GetActiveKeg ;;
  let '(keg, err) := r in
  match err with
  | None => modify_scale (set_ActiveKeg keg)
  | Some _ => ret tt
  end.

(** [NewScale]: the three clock readings are those of [OpenedAt],
    [ClosedAt] and [LastOk], in this order; [make] panics on a negative
    length and on one it cannot allocate.  The goroutine it starts calls
    [Recheck] every 15 seconds. *)
Definition NewScale (bufferSize : Z) (tOpened tClosed tLastOk : Time)
    (store : W) : outcome (Env W) :=
  if (bufferSize <? 0) || (max_slice_len <? bufferSize)
  then Panic "makeslice: len out of range"
  else
    let s :=
      {| Measurements := replicate (Z.to_nat bufferSize) zeroMeasurement;
         index := -1;
         size := bufferSize;
         valid := 0;
         pub := {| IsOpen := false;
                   OpenedAt := Add tOpened (-9999 * Hour);
                   ClosedAt := Add tClosed (-9999 * Hour) |};
         ActiveKeg := 0;
         LastOk := Add tLastOk (-9999 * Hour);
         Rssi := 0%float |} in
    match loadDataFromStore {| scale := s; world := store; trace := [] |} with
    | (Ret _, e) => Ret e
    | (Panic msg, _) => Panic msg
    end.

Definition AddMeasurement (now : Time) (weight : float) : M W (option error) :=
  if (PrimFloat.ltb weight 6000 || PrimFloat.ltb 65000 weight)%bool
  then
    emit (EvInfof "Invalid weight: %f" weight) ;;
    ret None
  else
    emit (EvGaugeSet kegWeight weight) ;;
    locked (
      modify_scale (fun s => set_index (GoInt.add (index s) 1) s) ;;
      s <- get_scale ;;
      when (len (Measurements s) <=? index s) (modify_scale (set_index 0)) ;;
      s <- get_scale ;;
      let m := {| Index := index s; Weight := weight; At := now |} in
      slice_set (index s) m ;;
      err <- call_store (CallAddMeasurement m) (store_AddMeasurement m) ;;
      match err with
      | Some e => ret (Some (ErrWrap "could not store measurement: %w" e))
      | None =>
          s <- get_scale ;;
          when (valid s <? size s)
               (modify_scale (set_valid (GoInt.add (valid s) 1))) ;;
          ret None
      end).

Definition GetValidCount : M W Z :=
  locked (s <- get_scale ;; ret (valid s)).

Definition GetMeasurement (i : Z) : M W Measurement :=
  v <- GetValidCount ;;
  s <- get_scale ;;
  if ((v <? i) || (size s <? i))%bool
  then ret emptyMeasurement
  else
    locked (
      s <- get_scale ;;
      idx <- int_rem (GoInt.add (GoInt.sub (index s) i) (size s)) (size s) ;;
      slice_get idx).

Definition GetLastMeasurement : M W Measurement := GetMeasurement 0.

Definition Ping (tOpened tLastOk : Time) : M W unit :=
  emit (EvGaugeNow lastUpdate) ;;
  locked (
    s <- get_scale ;;
    when (negb (IsOpen (pub s))) (
      emit (EvGaugeSet pubIsOpen 1) ;;
      modify_scale (fun s => set_pub (set_IsOpen true (pub s)) s) ;;
      modify_scale (fun s => set_pub (set_OpenedAt tOpened (pub s)) s)) ;;
    modify_scale (set_LastOk tLastOk)).

Definition IsOk (now : Time) : M W bool :=
  locked (s <- get_scale ;; ret (Since now (LastOk s) <? OkLimit)).

Definition Recheck (tCheck tClosed : Time) : M W unit :=
  ok <- IsOk tCheck ;;
  if ok : bool then ret tt
  else
    locked (
      s <- get_scale ;;
      when (IsOpen (pub s)) (
        emit (EvGaugeSet pubIsOpen 0) ;;
        modify_scale (fun s => set_pub (set_IsOpen false (pub s)) s) ;;
        modify_scale (fun s =>
          set_pub (set_ClosedAt (Add tClosed (-1 * OkLimit)) (pub s)) s))).

Definition SetRssi (rssi : float) : M W unit :=
  emit (EvGaugeSet scaleWifiRssi rssi) ;;
  locked (modify_scale (set_Rssi rssi)).

Definition HasLastN (n : Z) : M W bool :=
  s <- get_scale ;;
  let n := if size s <? n then size s else n in
  locked (s <- get_scale ;; ret (n <=? valid s)).

Definition SumLastN (n : Z) : M W float :=
  s <- get_scale ;;
  let n := if size s <? n then size s else n in
  locked (
    for_count (Z.to_nat n) 0 0%float (fun i sum =>
      s <- get_scale ;;
      idx <- int_rem (GoInt.add (GoInt.sub (index s) i) (size s)) (size s) ;;
      m <- slice_get idx ;;
      ret (sum + Weight m)%float)).

Definition SetActiveKeg (keg : Z) : M W (option error) :=
  locked (
    modify_scale (set_ActiveKeg keg) ;;
    call_store (CallSetActiveKeg keg) (store_SetActiveKeg keg)).

End Scale.


(** ** The methods of [Scale] left so far *)

(** The conversion [float64(n)] of an [int]: to the nearest float, ties to
    even.  The primitive conversion takes an unsigned integer below 2^63,
    so the sign is set apart, and the smallest [int], whose opposite is not
    an [int], is written out. *)
Definition float64_of_int (z : Z) : float :=
  if z =? GoInt.min_int then (-9223372036854775808)%float
  else if z <? 0 then (- PrimFloat.of_uint63 (Uint63.of_Z (- z)))%float
  else PrimFloat.of_uint63 (Uint63.of_Z z).

Definition AvgLastN {W : Type} `{Storage W} (n : Z) : M W float :=
  s <- get_scale ;;
  let n := if size s <? n then size s else n in
  if n =? 0 then ret 0%float
  else
    sum <- SumLastN n ;;
    ret (sum / float64_of_int n)%float.

(** ** The handlers of the HTTP endpoints *)

(** [ScaleMessage], as [backend/parser_test.go] builds it. *)
Module ScaleMessage.

Record t : Type := mk {
  MessageType : string;
  MessageId : Z;
  Rssi : float;
  Value : float
}.

End ScaleMessage.

(** What a handler reads of the request: [r.Method], the header
    [Authorization], and the result of [io.ReadAll(r.Body)], [None] when it
    fails. *)
Record Request : Type := mkRequest {
  Method : string;
  Authorization : string;
  ReadAll : option string
}.

Definition MethodGet : string := "GET".
Definition MethodPost : string := "POST".
Definition StatusBadRequest : Z := 400.
Definition StatusUnauthorized : Z := 401.
Definition StatusMethodNotAllowed : Z := 405.
Definition StatusInternalServerError : Z := 500.

(** What a handler does with its [http.ResponseWriter] and its logger:
    [http.Error(w, msg, code)], [w.Write([]byte(data))],
    [w.Write([]byte(fmt.Sprintf(format, arg)))], [hr.logger.Warnf] with the
    body and the text of the error, [hr.logger.WithFields] of a
    [message_id] followed by [Infof], [hr.logger.Info] and [log.Printf]. *)
Inductive served : Type :=
| HttpError (msg : string) (code : Z)
| WriteString (data : string)
| WriteSprintf (format : string) (arg : float)
| LogWarnf (format : string) (body : string) (err : string)
| LogInfof (message_id : Z) (format : string) (arg : float)
| LogInfo (msg : string)
| LogPrintf (format : string) (arg : float).

Section Handlers.

Context {W : Type} `{Storage W}.

(** [hr.config.AuthToken], the constant [PushMessageType] and the function
    [ParseScaleMessage], which are not in the files at hand; the error of
    the parser is its text. *)
Variable AuthToken : string.
Variable PushMessageType : string.
Variable ParseScaleMessage : string -> ScaleMessage.t * option string.

(** [scaleMessageHandler]; the clock readings are those of [Ping] and of
    [AddMeasurement].  The error that [AddMeasurement] returns is dropped. *)
Definition scaleMessageHandler (r : Request) (tOpened tLastOk tAdd : Time)
    : M W (list served) :=
  if negb (String.eqb (Method r) MethodPost)
  then ret [HttpError "Method Not Allowed" StatusMethodNotAllowed]
  else if negb (String.eqb (Authorization r) AuthToken)
  then ret [HttpError "Unauthorized" StatusUnauthorized]
  else
    match ReadAll r with
    | None =>
        ret [HttpError "Could not read post body" StatusInternalServerError]
    | Some body =>
        let (message, err) := ParseScaleMessage body in
        match err with
        | Some msg =>
            ret [LogWarnf "Could not parse scale message: %s because %v"
                   body msg;
                 HttpError msg StatusBadRequest]
        | None =>
            Ping tOpened tLastOk ;;
            SetRssi (ScaleMessage.Rssi message) ;;
            emit (EvGaugeNow lastUpdate) ;;
            if String.eqb (ScaleMessage.MessageType message) PushMessageType
            then
              _ <- AddMeasurement tAdd (ScaleMessage.Value message) ;;
              emit (EvGaugeSet kegWeight (ScaleMessage.Value message)) ;;
              ret [LogInfof (ScaleMessage.MessageId message)
                     "Scale new value: %0.2f" (ScaleMessage.Value message);
                   WriteString "OK"]
            else ret [WriteString "OK"]
        end
    end.

(** [scalePrintHandler]: the count is read once, then one read and one
    write for each offset below it. *)
Definition scalePrintHandler (r : Request) : M W (list served) :=
  if negb (String.eqb (Method r) MethodGet)
  then ret [HttpError "Method Not Allowed" StatusMethodNotAllowed]
  else
    c <- GetValidCount ;;
    for_count (Z.to_nat c) 0 [] (fun i out =>
      m <- GetMeasurement i ;;
      ret (out ++ [WriteSprintf "%.2f;" (Weight m)])).

(** [strings.Split] and [strconv.ParseFloat] at 64 bits, of the Go
    library; the error of the latter is not looked at. *)
Variable Split : string -> string -> list string.
Variable ParseFloat : string -> float * option string.

(** [scalePingHandler], deprecated. *)
Definition scalePingHandler (r : Request) : M W (list served) :=
  let info := LogInfo "Scale pinged" in
  if negb (String.eqb (Method r) MethodPost)
  then ret [info; HttpError "Method Not Allowed" StatusMethodNotAllowed]
  else if negb (String.eqb (Authorization r) AuthToken)
  then ret [info; HttpError "Unauthorized" StatusUnauthorized]
  else
    match ReadAll r with
    | None =>
        ret [info;
             HttpError "Could not read post body" StatusInternalServerError]
    | Some body =>
        match Split body ";" with
        | [_; chunk1] =>
            let (rssi, err) := ParseFloat chunk1 in
            match err with
            | Some _ =>
                ret [info;
                     HttpError "Could not convert RSSI from scale to number"
                       StatusBadRequest]
            | None =>
                SetRssi rssi ;;
                emit (EvGaugeSet scaleWifiRssi rssi) ;;
                emit (EvGaugeNow lastUpdate) ;;
                ret [info; WriteString "OK"]
            end
        | _ => ret [info; HttpError "Invalid body" StatusBadRequest]
        end
    end.

(** [scaleValueHandler], deprecated; the clock readings are those of
    [AddMeasurement] and of [Ping], in this order. *)
Definition scaleValueHandler (r : Request) (tAdd tOpened tLastOk : Time)
    : M W (list served) :=
  let info := LogInfo "Scale value sent" in
  if negb (String.eqb (Method r) MethodPost)
  then ret [info; HttpError "Method Not Allowed" StatusMethodNotAllowed]
  else if negb (String.eqb (Authorization r) AuthToken)
  then ret [info; HttpError "Unauthorized" StatusUnauthorized]
  else
    match ReadAll r with
    | None =>
        ret [info;
             HttpError "Could not read post body" StatusInternalServerError]
    | Some body =>
        let (current, err) := ParseFloat body in
        match err with
        | Some _ =>
            ret [info;
                 HttpError "Could not convert value to number"
                   StatusBadRequest]
        | None =>
            emit (EvGaugeSet kegWeight current) ;;
            emit (EvGaugeNow lastUpdate) ;;
            _ <- AddMeasurement tAdd current ;;
            Ping tOpened tLastOk ;;
            ret [info; LogPrintf "Keg weight: %f" current; WriteString "OK"]
        end
    end.

End Handlers.
(** * Vocabulary of the properties *)

(** ** The plausibility filter *)

(** A weight within the plausible range, bounds included. *)
Definition plausible (w : float) : bool :=
  (PrimFloat.leb 6000 w && PrimFloat.leb w 65000)%bool.

(** A weight the filter of [AddMeasurement] rejects. *)
Definition implausible (w : float) : bool :=
  (PrimFloat.ltb w 6000 || PrimFloat.ltb 65000 w)%bool.

(** ** The ledger seen as a ring *)

(** A ledger as [NewScale] builds it and [AddMeasurement] keeps it: the
    slice has [size] slots, at least one and no more than [make] can
    allocate; [valid] counts slots; the cursor is -1 or a position read
    without overflow; a counted slot has been written. *)
Record wf (s : Scale) : Prop := mk_wf {
  wf_len : len (Measurements s) = size s;
  wf_size : 1 <= size s <= max_slice_len;
  wf_valid : 0 <= valid s <= size s;
  wf_index : -1 <= index s;
  wf_index_max : index s + size s <= GoInt.max_int;
  wf_written : 0 < valid s -> 0 <= index s
}.

(** The cursor after the next accepted append. *)
Definition next_index (s : Scale) : Z :=
  if size s <=? index s + 1 then 0 else index s + 1.

(** The measurement the next accepted append builds. *)
Definition pushed (now : Time) (weight : float) (s : Scale) : Measurement :=
  {| Index := next_index s; Weight := weight; At := now |}.

(** The ledger once that measurement occupies its slot. *)
Definition write_slot (now : Time) (weight : float) (s : Scale) : Scale :=
  set_Measurements
    (<[Z.to_nat (next_index s) := pushed now weight s]> (Measurements s))
    (set_index (next_index s) s).

(** The count of valid slots once the store has taken the measurement. *)
Definition count_slot (s : Scale) : Scale :=
  if valid s <? size s then set_valid (valid s + 1) s else s.

(** ** Reading the ledger *)

(** The slot that [GetMeasurement] reads at a relative offset. *)
Definition slot_index (s : Scale) (i : Z) : Z :=
  (index s - i + size s) mod size s.

Definition after_read {W : Type} (e : Env W) : Env W :=
  {| scale := scale e; world := world e;
     trace := EvUnlock :: EvLock :: EvUnlock :: EvLock :: trace e |}.

(** ** The ring invariant *)

Definition reading : Type := (Time * float)%type.

(** The measurements that accepted appends of the readings [rs] build, oldest
    first, from the cursor [idx] of a ledger of [n] slots. *)
Fixpoint pushes (idx n : Z) (rs : list reading) : list Measurement :=
  match rs with
  | [] => []
  | r :: rs' =>
      let idx' := if n <=? idx + 1 then 0 else idx + 1 in
      {| Index := idx'; Weight := r.2; At := r.1 |} :: pushes idx' n rs'
  end.

(** [ring s hist]: the measurements of [hist], newest first, are where the
    relative offsets find them, as far back as the ring reaches. *)
Record ring (s : Scale) (hist : list Measurement) : Prop := mk_ring {
  ring_cursor : hist <> [] -> 0 <= index s < size s;
  ring_slots : forall (i : nat) (m : Measurement),
    Z.of_nat i < size s -> hist !! i = Some m ->
    Index m = slot_index s (Z.of_nat i) /\
    Measurements s !! Z.to_nat (Index m) = Some m
}.


(** A caller pushing the readings [rs] one after the other, each with the
    clock reading of its append, as the message handler does for every push
    message; the errors returned are collected. *)
Fixpoint AddMeasurements {W : Type} `{Storage W} (rs : list reading)
    : M W (list (option error)) :=
  match rs with
  | [] => ret []
  | r :: rs' =>
      err <- AddMeasurement r.1 r.2 ;;
      errs <- AddMeasurements rs' ;;
      ret (err :: errs)
  end.

(** Every reading is within the plausible range. *)
Definition all_plausible (rs : list reading) : Prop :=
  Forall (fun r => plausible r.2 = true) rs.

(** Every append returned [nil]: the store took every measurement. *)
Definition all_stored (errs : list (option error)) : Prop :=
  Forall (fun err => err = None) errs.

(** ** The venue state *)

(** Re-evaluations one after the other, each with its two clock readings, as
    the background goroutine and on-demand callers perform them. *)
Fixpoint Rechecks {W : Type} `{Storage W} (ts : list (Time * Time))
    : M W unit :=
  match ts with
  | [] => ret tt
  | t :: ts' => Recheck t.1 t.2 ;; Rechecks ts'
  end.

(** The last contact is not younger than the staleness threshold at the
    clock reading [now]: [IsOk] answers false. *)
Definition stale (now : Time) (s : Scale) : Prop :=
  OkLimit <= Since now (LastOk s).

(** The venue closed by a re-evaluation whose second clock reading is
    [tClosed]. *)
Definition closed_at (tClosed : Time) (s : Scale) : Scale :=
  set_pub {| IsOpen := false; OpenedAt := OpenedAt (pub s);
             ClosedAt := tClosed - OkLimit |} s.

(** ** The mutex and the store *)

(** The effects of [c] run from [e], oldest first. *)
Definition emitted {W A : Type} (c : M W A) (e : Env W) : list event :=
  reverse (take (length (trace (c e).2) - length (trace e)) (trace (c e).2)).

(** Every call of the store in the history [h] is made while the mutex is
    not held; [held] tells whether it is held when [h] starts. *)
Fixpoint store_calls_unlocked (held : bool) (h : list event) : bool :=
  match h with
  | [] => true
  | EvLock :: h' => store_calls_unlocked true h'
  | EvUnlock :: h' => store_calls_unlocked false h'
  | EvStore _ :: h' => negb held && store_calls_unlocked held h'
  | _ :: h' => store_calls_unlocked held h'
  end.

(** ** The states a running scale goes through *)

(** The methods called on a [Scale], by the handlers and by the goroutine
    of [NewScale], with their arguments and their clock readings. *)
Inductive op : Type :=
| OpAddMeasurement (now : Time) (weight : float)
| OpGetLastMeasurement
| OpGetMeasurement (i : Z)
| OpPing (tOpened tLastOk : Time)
| OpRecheck (tCheck tClosed : Time)
| OpIsOk (now : Time)
| OpSetRssi (rssi : float)
| OpGetValidCount
| OpHasLastN (n : Z)
| OpSumLastN (n : Z)
| OpSetActiveKeg (keg : Z).

(** The state a call leaves, whether it returns or panics. *)
Definition run_op {W : Type} `{Storage W} (o : op) (e : Env W) : Env W :=
  match o with
  | OpAddMeasurement now weight => (AddMeasurement now weight e).2
  | OpGetLastMeasurement => (GetLastMeasurement e).2
  | OpGetMeasurement i => (GetMeasurement i e).2
  | OpPing tOpened tLastOk => (Ping tOpened tLastOk e).2
  | OpRecheck tCheck tClosed => (Recheck tCheck tClosed e).2
  | OpIsOk now => (IsOk now e).2
  | OpSetRssi rssi => (SetRssi rssi e).2
  | OpGetValidCount => (GetValidCount e).2
  | OpHasLastN n => (HasLastN n e).2
  | OpSumLastN n => (SumLastN n e).2
  | OpSetActiveKeg keg => (SetActiveKeg keg e).2
  end.

(** The clock readings of a call, in the order it takes them. *)
Definition readings (o : op) : list Time :=
  match o with
  | OpAddMeasurement now _ => [now]
  | OpPing tOpened tLastOk => [tOpened; tLastOk]
  | OpRecheck tCheck tClosed => [tCheck; tClosed]
  | OpIsOk now => [now]
  | _ => []
  end.

(** The clock does not go back: from the reading [c], the readings [ts]
    come in order. *)
Fixpoint ticks (c : Time) (ts : list Time) : Prop :=
  match ts with
  | [] => True
  | t :: ts' => c <= t /\ ticks t ts'
  end.

(** [reachable c e]: the scale is in state [e], and the latest clock reading
    is [c], after [NewScale] and any sequence of calls taken one after the
    other.  The store hands [NewScale] a slice, no longer than a slice can
    be. *)
Inductive reachable {W : Type} `{Storage W} : Time -> Env W -> Prop :=
| reachable_NewScale (n : Z) (t1 t2 t3 : Time) (store : W) (e : Env W) :
    t1 <= t2 <= t3 ->
    len (store_GetMeasurements store).1.1 <= max_slice_len ->
    NewScale n t1 t2 t3 store = Ret e ->
    reachable t3 e
| reachable_op (c : Time) (e : Env W) (o : op) :
    reachable c e ->
    ticks c (readings o) ->
    reachable (List.last (readings o) c) (run_op o e).

(** The frame of a computation: it leaves the part [f] of the [Scale] as it
    found it. *)
Definition keeps {W A X : Type} (f : Scale -> X) (c : M W A) : Prop :=
  forall e : Env W, f (scale (c e).2) = f (scale e).

(** The venue fields and the last contact, which [Ping] and [Recheck] alone
    touch; the ledger, which [AddMeasurement] alone touches. *)
Definition venue (s : Scale) : Pub * Time := (pub s, LastOk s).

Definition ledger (s : Scale) : list Measurement * Z * Z * Z :=
  (Measurements s, index s, size s, valid s).

(** What holds of the venue fields at the clock reading [c]: the contact is
    not older than the opening nor younger than the clock, the closing is
    older than the clock, and the opening and the closing are ordered by the
    state. *)
Record venue_inv (c : Time) (s : Scale) : Prop := mk_venue_inv {
  vi_opened : OpenedAt (pub s) <= LastOk s;
  vi_contact : LastOk s <= c;
  vi_closed : ClosedAt (pub s) < c;
  vi_open : IsOpen (pub s) = true -> ClosedAt (pub s) < OpenedAt (pub s);
  vi_shut : IsOpen (pub s) = false -> OpenedAt (pub s) <= ClosedAt (pub s)
}.

(** The index that [GetMeasurement] computes past its guard, as the code
    computes it. *)
Definition physical_index (s : Scale) (i : Z) : Z :=
  Z.rem (GoInt.add (GoInt.sub (index s) i) (size s)) (size s).

(** ** Scales to run the code on *)

Definition fake : FakeStore := {| isLow := false |}.

(** The scale of [n] slots that [NewScale] builds over a [FakeStore] when
    the clock reads 0. *)
Definition fresh (n : Z) : Env FakeStore :=
  {| scale :=
       {| Measurements := replicate (Z.to_nat n) zeroMeasurement;
          index := -1; size := n; valid := 0;
          pub := {| IsOpen := false; OpenedAt := -9999 * Hour;
                    ClosedAt := -9999 * Hour |};
          ActiveKeg := 0; LastOk := -9999 * Hour; Rssi := 0%float |};
     world := fake;
     trace := [EvStore CallGetActiveKeg; EvStore CallGetMeasurements] |}.

(** A Redis server that cannot be reached, and one that holds two
    measurements and no active keg. *)
Definition redis_unreachable : RedisStore :=
  {| connected := false; measurements_list := []; active_keg_key := None |}.

Definition redis_empty : RedisStore :=
  {| connected := true; measurements_list := []; active_keg_key := None |}.

Definition stored1 : Measurement :=
  {| Index := 0; Weight := 7000%float; At := 10 |}.

Definition stored2 : Measurement :=
  {| Index := 1; Weight := 7100%float; At := 20 |}.

Definition redis_seeded : RedisStore :=
  {| connected := true; measurements_list := [stored1; stored2];
     active_keg_key := None |}.

(** The scale of three slots after a first contact at clock reading 0. *)
Definition opened : Env FakeStore := (Ping 0 0 (fresh 3)).2.

(** * Vocabulary of the further properties *)

(** The environment after a method that locks once and changes nothing. *)
Definition after_lock {W : Type} (e : Env W) : Env W :=
  {| scale := scale e; world := world e;
     trace := EvUnlock :: EvLock :: trace e |}.

(** The weights of the readings [rs] added up from 0, first to last, as the
    loop of [SumLastN] adds them. *)
Definition sum_weights (rs : list reading) : float :=
  fold_left (fun acc r => (acc + r.2)%float) rs 0%float.

(** The effects performed between the states [e] and [e'], oldest first. *)
Definition effects_between {W : Type} (e e' : Env W) : list event :=
  reverse (take (length (trace e') - length (trace e)) (trace e')).

(** The mutex along a history: [Some held'] when no [Lock] comes while it
    is held and no [Unlock] while it is not, [held'] telling whether it is
    held at the end; [None] otherwise. *)
Fixpoint lock_discipline (held : bool) (h : list event) : option bool :=
  match h with
  | [] => Some held
  | EvLock :: h' => if held then None else lock_discipline true h'
  | EvUnlock :: h' => if held then lock_discipline false h' else None
  | _ :: h' => lock_discipline held h'
  end.

(** An effect that is not on the mutex. *)
Definition not_mutex (ev : event) : Prop := ev <> EvLock /\ ev <> EvUnlock.

(** A computation that leaves the mutex alone, and one that takes and
    releases it in order, whether it returns or panics. *)
Definition quiet {W A : Type} (c : M W A) : Prop :=
  forall e : Env W,
    exists evs, trace (c e).2 = evs ++ trace e /\ Forall not_mutex evs.

Definition tidy {W A : Type} (c : M W A) : Prop :=
  forall e : Env W,
    exists evs,
      trace (c e).2 = evs ++ trace e /\
      lock_discipline false (reverse evs) = Some false.

(** A computation that leaves the store as it found it. *)
Definition keeps_store {W A : Type} (c : M W A) : Prop :=
  forall e : Env W, world (c e).2 = world e.

(** The slice that [make] allocates. *)
Definition zeros (n : Z) : list Measurement :=
  replicate (Z.to_nat n) zeroMeasurement.

(** ** Concrete stores, requests and parsers *)

(** The ledger of [n] slots that [NewScale] builds, over the store [w]. *)
Definition fresh_over {W : Type} (n : Z) (w : W) : Env W :=
  {| scale := scale (fresh n); world := w; trace := [] |}.

(** A POST request that carries the token "secret", and one that carries no
    token; a GET request. *)
Definition post_with_token : Request :=
  {| Method := "POST"; Authorization := "secret";
     ReadAll := Some "push|471|-74.5|7000"%string |}.

Definition post_without_token : Request :=
  {| Method := "POST"; Authorization := "";
     ReadAll := Some "push|471|-74.5|7000"%string |}.

Definition get_request : Request :=
  {| Method := "GET"; Authorization := ""; ReadAll := None |}.

(** A parser that reads every body as one push message, and a parser of
    numbers that reads every body as one weight. *)
Definition push_471 : ScaleMessage.t :=
  {| ScaleMessage.MessageType := "push"; ScaleMessage.MessageId := 471;
     ScaleMessage.Rssi := (-74.5)%float; ScaleMessage.Value := 7000%float |}.

Definition parse_push (body : string) : ScaleMessage.t * option string :=
  (push_471, None).

Definition parse_7000 (body : string) : float * option string :=
  (7000%float, None).

(** The computation [c] run from [e] returns: it does not panic. *)
Definition returns {W A : Type} (c : M W A) (e : Env W) : Prop :=
  exists a, (c e).1 = Ret a.
(** * Lemmas *)

(** ** Go integers without overflow *)

Lemma wrap_id z : GoInt.in_range z -> GoInt.wrap z = z.
Proof.
  unfold GoInt.in_range, GoInt.min_int, GoInt.max_int, GoInt.wrap. intros Hz.
  rewrite Z.mod_small by lia. lia.
Qed.

Lemma add_exact a b : GoInt.in_range (a + b) -> GoInt.add a b = a + b.
Proof. apply wrap_id. Qed.

Lemma sub_exact a b : GoInt.in_range (a - b) -> GoInt.sub a b = a - b.
Proof. apply wrap_id. Qed.

(** ** The plausibility filter *)

Lemma SFcompare_swap (a b : spec_float) :
  SFcompare a b = option_map CompOpp (SFcompare b a).
Proof.
  destruct a as [sa | sa | | sa ma ea], b as [sb | sb | | sb mb eb];
    simpl; try reflexivity;
    try (destruct sa, sb; reflexivity);
    try (destruct sa; reflexivity); try (destruct sb; reflexivity).
  destruct sa, sb; simpl; try reflexivity;
    rewrite (Z.compare_antisym ea eb); destruct (ea ?= eb); simpl;
    try reflexivity;
    rewrite (Pos.compare_cont_antisym _ _ Eq); simpl;
    rewrite ?CompOpp_involutive; reflexivity.
Qed.

Lemma leb_not_ltb (a b : float) :
  PrimFloat.leb a b = true -> PrimFloat.ltb b a = false.
Proof.
  rewrite leb_spec, ltb_spec. unfold SFleb, SFltb.
  rewrite (SFcompare_swap (Prim2SF b)).
  destruct (SFcompare (Prim2SF a) (Prim2SF b)) as [[]|]; simpl; congruence.
Qed.

Lemma plausible_not_implausible (w : float) :
  plausible w = true -> implausible w = false.
Proof.
  unfold plausible, implausible. intros [H1 H2]%andb_true_iff.
  by rewrite (leb_not_ltb _ _ H1), (leb_not_ltb _ _ H2).
Qed.

(** ** The ledger seen as a ring *)

Lemma next_index_range (s : Scale) :
  wf s -> 0 <= next_index s < size s.
Proof.
  intros [? ? ? ? ? ?]. unfold next_index.
  destruct (Z.leb_spec (size s) (index s + 1)); lia.
Qed.

Lemma wf_write_slot (now : Time) (weight : float) (s : Scale) :
  wf s -> wf (write_slot now weight s).
Proof.
  intros Hwf. pose proof (next_index_range s Hwf) as Hn.
  destruct Hwf as [Hlen Hsize Hvalid Hidx Hmax Hwr].
  split; unfold write_slot, len in *; simpl;
    rewrite ?length_insert; try lia.
  unfold max_slice_len, GoInt.max_int in *. lia.
Qed.

Lemma wf_count_slot (s : Scale) : wf s -> 0 <= index s -> wf (count_slot s).
Proof.
  intros [Hlen Hsize Hvalid Hidx Hmax Hwr] Hi. unfold count_slot.
  destruct (Z.ltb_spec (valid s) (size s)); split; simpl; try assumption; lia.
Qed.

(** Symbolic execution of a method: the monad is unfolded and the field
    accesses are computed, up to the next test on the state. *)
Ltac go_run :=
  repeat (
    cbv beta iota zeta delta
      [bind get_scale modify_scale emit ret when slice_set slice_get
       call_store locked defer panic int_rem];
    cbn [scale world trace Measurements index size valid pub ActiveKeg
         LastOk Rssi IsOpen OpenedAt ClosedAt set_Measurements set_index
         set_valid set_pub set_ActiveKeg set_LastOk set_Rssi set_IsOpen
         set_OpenedAt set_ClosedAt fst snd]).

Section Append.

Context {W : Type} `{Storage W}.

(** An append the filter rejects: a notice is logged and nothing else
    happens. *)
Lemma AddMeasurement_rejected (now : Time) (weight : float) (e : Env W) :
  implausible weight = true ->
  AddMeasurement now weight e =
    (Ret None,
     {| scale := scale e; world := world e;
        trace := EvInfof "Invalid weight: %f" weight :: trace e |}).
Proof.
  unfold implausible, AddMeasurement. intros ->. reflexivity.
Qed.

(** An append the filter lets through, on a well-formed ledger: the slot
    is written, then the store is called, and only when the store returns
    no error is the slot counted. *)
Lemma AddMeasurement_accepted (now : Time) (weight : float) (e : Env W) :
  implausible weight = false ->
  wf (scale e) ->
  AddMeasurement now weight e =
    let m := pushed now weight (scale e) in
    let s := write_slot now weight (scale e) in
    let tr :=
      EvUnlock :: EvStore (CallAddMeasurement m) :: EvLock
        :: EvGaugeSet kegWeight weight :: trace e in
    match store_AddMeasurement m (world e) with
    | (Some err, w') =>
        (Ret (Some (ErrWrap "could not store measurement: %w" err)),
         {| scale := s; world := w'; trace := tr |})
    | (None, w') =>
        (Ret None, {| scale := count_slot s; world := w'; trace := tr |})
    end.
Proof.
  intros Hg Hwf. pose proof (next_index_range _ Hwf) as Hn.
  destruct Hwf as [Hlen Hsize Hvalid Hidx Hmax Hwr].
  unfold AddMeasurement, implausible in *. rewrite Hg.
  go_run. unfold write_slot, count_slot, pushed, next_index in *.
  go_run. rewrite Hlen.
  rewrite add_exact
    by (unfold GoInt.in_range, GoInt.min_int, GoInt.max_int in *; lia).
  destruct (size (scale e) <=? index (scale e) + 1) eqn:Ewrap; go_run;
    rewrite Hlen.
  - replace ((0 <=? 0) && (0 <? size (scale e))) with true
      by (symmetry; apply andb_true_iff; split; [reflexivity|];
          apply Z.ltb_lt; lia).
    go_run.
    destruct (store_AddMeasurement _ (world e)) as [[err|] w']; go_run;
      [reflexivity|].
    destruct (valid (scale e) <? size (scale e)) eqn:Ev; go_run;
      [|reflexivity].
    rewrite add_exact
      by (unfold GoInt.in_range, GoInt.min_int, GoInt.max_int,
            max_slice_len in *; lia).
    reflexivity.
  - replace ((0 <=? index (scale e) + 1)
             && (index (scale e) + 1 <? size (scale e))) with true
      by (symmetry; apply andb_true_iff; split;
          [apply Z.leb_le | apply Z.ltb_lt]; lia).
    go_run.
    destruct (store_AddMeasurement _ (world e)) as [[err|] w']; go_run;
      [reflexivity|].
    destruct (valid (scale e) <? size (scale e)) eqn:Ev; go_run;
      [|reflexivity].
    rewrite add_exact
      by (unfold GoInt.in_range, GoInt.min_int, GoInt.max_int,
            max_slice_len in *; lia).
    reflexivity.
Qed.

End Append.

(** ** Reading the ledger *)

Section Read.

Context {W : Type} `{Storage W}.

Lemma GetMeasurement_guarded (i : Z) (e : Env W) :
  valid (scale e) < i \/ size (scale e) < i ->
  GetMeasurement i e =
    (Ret emptyMeasurement,
     {| scale := scale e; world := world e;
        trace := EvUnlock :: EvLock :: trace e |}).
Proof.
  intros Hi. unfold GetMeasurement, GetValidCount. go_run.
  replace ((valid (scale e) <? i) || (size (scale e) <? i)) with true;
    [reflexivity|].
  symmetry. apply orb_true_iff. rewrite !Z.ltb_lt. exact Hi.
Qed.

(** Past the guard, and when the sum [index - i + size] does not overflow,
    [GetMeasurement] returns the content of a slot of the ring. *)
Lemma GetMeasurement_read (i : Z) (e : Env W) :
  wf (scale e) ->
  GoInt.min_int <= i ->
  i <= valid (scale e) ->
  index (scale e) - i + size (scale e) <= GoInt.max_int ->
  exists m,
    0 <= slot_index (scale e) i < size (scale e) /\
    Measurements (scale e) !! Z.to_nat (slot_index (scale e) i) = Some m /\
    GetMeasurement i e = (Ret m, after_read e).
Proof.
  intros [Hlen Hsize Hvalid Hidx Hmax Hwr] Hmin Hi Hsum.
  assert (Hpos : 0 <= index (scale e) - i + size (scale e)) by lia.
  assert (Hrange : 0 <= slot_index (scale e) i < size (scale e))
    by (apply Z.mod_pos_bound; lia).
  destruct (Measurements (scale e) !! Z.to_nat (slot_index (scale e) i))
    as [m|] eqn:Hm.
  2:{ apply lookup_ge_None in Hm. unfold len in Hlen. lia. }
  exists m. split; [exact Hrange|]. split; [reflexivity|].
  unfold GetMeasurement, GetValidCount. go_run.
  replace ((valid (scale e) <? i) || (size (scale e) <? i)) with false
    by (symmetry; apply orb_false_iff; rewrite !Z.ltb_ge; lia).
  go_run.
  rewrite sub_exact
    by (unfold GoInt.in_range, GoInt.min_int, GoInt.max_int,
          max_slice_len in *; lia).
  rewrite add_exact
    by (unfold GoInt.in_range, GoInt.min_int, GoInt.max_int,
          max_slice_len in *; lia).
  replace (size (scale e) =? 0) with false by (symmetry; apply Z.eqb_neq; lia).
  go_run. rewrite Z.rem_mod_nonneg by lia. fold (slot_index (scale e) i).
  rewrite Hlen.
  replace ((0 <=? slot_index (scale e) i)
           && (slot_index (scale e) i <? size (scale e))) with true
    by (symmetry; apply andb_true_iff; split;
        [apply Z.leb_le | apply Z.ltb_lt]; lia).
  rewrite Hm. reflexivity.
Qed.

End Read.

Lemma slot_index_cases (s : Scale) (i : Z) :
  0 <= index s < size s -> 0 <= i < size s ->
  slot_index s i = if i <=? index s then index s - i else index s - i + size s.
Proof.
  intros Hidx Hi. unfold slot_index.
  destruct (Z.leb_spec i (index s)).
  - replace (index s - i + size s) with (index s - i + 1 * size s) by lia.
    rewrite Z.mod_add by lia. apply Z.mod_small. lia.
  - apply Z.mod_small. lia.
Qed.

Lemma ring_nil (s : Scale) : ring s [].
Proof. split; [congruence | intros i m _ Hm; discriminate Hm]. Qed.

Ltac case_leb :=
  repeat match goal with
         | |- context [?a <=? ?b] => destruct (Z.leb_spec a b)
         | H : context [?a <=? ?b] |- _ => destruct (Z.leb_spec a b)
         end.

Lemma ring_write_slot (now : Time) (weight : float) (s : Scale)
    (hist : list Measurement) :
  wf s -> ring s hist ->
  ring (write_slot now weight s) (pushed now weight s :: hist).
Proof.
  intros Hwf [Hcur Hslots]. pose proof (next_index_range s Hwf) as Hn.
  destruct Hwf as [Hlen Hsize Hvalid Hidx Hmax Hwr]. unfold len in Hlen.
  assert (Hcur' : 0 <= index (write_slot now weight s)
                     < size (write_slot now weight s)) by exact Hn.
  split; [intros _; exact Hcur'|].
  intros i m Hi Hm.
  change (size (write_slot now weight s)) with (size s) in Hi.
  rewrite (slot_index_cases _ _ Hcur')
    by (change (size (write_slot now weight s)) with (size s); lia).
  change (index (write_slot now weight s)) with (next_index s).
  change (size (write_slot now weight s)) with (size s).
  change (Measurements (write_slot now weight s))
    with (<[Z.to_nat (next_index s) := pushed now weight s]> (Measurements s)).
  destruct i as [|i].
  - injection Hm as <-.
    change (Index (pushed now weight s)) with (next_index s).
    split; [case_leb; lia|].
    apply list_lookup_insert_eq. lia.
  - change (hist !! i = Some m) in Hm.
    assert (Hne : hist <> []) by (intros ->; discriminate Hm).
    specialize (Hcur Hne).
    destruct (Hslots i m ltac:(lia) Hm) as [Hidxm Hsl].
    rewrite (slot_index_cases _ _ Hcur) in Hidxm by lia.
    unfold next_index in *.
    assert (Hnew : Index m =
              if Z.of_nat (S i) <=? (if size s <=? index s + 1 then 0
                                     else index s + 1)
              then (if size s <=? index s + 1 then 0 else index s + 1)
                   - Z.of_nat (S i)
              else (if size s <=? index s + 1 then 0 else index s + 1)
                   - Z.of_nat (S i) + size s)
      by (case_leb; lia).
    split; [exact Hnew|].
    rewrite list_lookup_insert_ne; [exact Hsl|].
    rewrite Hnew. case_leb; lia.
Qed.

Lemma ring_count_slot (s : Scale) (hist : list Measurement) :
  ring s hist -> ring (count_slot s) hist.
Proof.
  unfold count_slot. destruct (valid s <? size s); [|done].
  intros [Hcur Hslots]. split; assumption.
Qed.


(** ** Sequences of appends *)

Lemma count_slot_fields (s : Scale) :
  index (count_slot s) = index s /\ size (count_slot s) = size s /\
  Measurements (count_slot s) = Measurements s /\
  valid (count_slot s) = Z.min (valid s + 1) (Z.max (valid s) (size s)).
Proof.
  unfold count_slot. destruct (Z.ltb_spec (valid s) (size s)); simpl;
    repeat split; lia.
Qed.

Section Appends.

Context {W : Type} `{Storage W}.

(** One accepted append on a well-formed ledger returns, keeps the ledger
    well formed, and puts the measurement it builds in front of the ring. *)
Lemma AddMeasurement_step (now : Time) (weight : float) (e : Env W)
    (hist : list Measurement) :
  wf (scale e) -> ring (scale e) hist -> implausible weight = false ->
  exists err e',
    AddMeasurement now weight e = (Ret err, e') /\
    wf (scale e') /\ ring (scale e') (pushed now weight (scale e) :: hist) /\
    size (scale e') = size (scale e) /\
    index (scale e') = next_index (scale e) /\
    valid (scale e) <= valid (scale e') /\
    (err = None ->
     valid (scale e') = Z.min (valid (scale e) + 1) (size (scale e))).
Proof.
  intros Hwf Hring Hw.
  pose proof (wf_write_slot now weight _ Hwf) as Hwf1.
  pose proof (ring_write_slot now weight _ hist Hwf Hring) as Hring1.
  pose proof (next_index_range _ Hwf) as Hn.
  rewrite (AddMeasurement_accepted now weight e Hw Hwf).
  cbv zeta.
  destruct (store_AddMeasurement _ (world e)) as [[err|] w'].
  - eexists _, _. split; [reflexivity|]. cbn [scale].
    split; [exact Hwf1|]. split; [exact Hring1|].
    split; [reflexivity|]. split; [reflexivity|].
    split; [cbn; lia | discriminate].
  - eexists _, _. split; [reflexivity|]. cbn [scale].
    destruct (count_slot_fields (write_slot now weight (scale e)))
      as (Hi & Hs & Hm & Hv).
    destruct Hwf as [Hlen Hsize Hvalid Hidx Hmax Hwr].
    split; [apply wf_count_slot; [exact Hwf1 | exact (proj1 Hn)]|].
    split; [apply ring_count_slot, Hring1|].
    split; [exact Hs|]. split; [exact Hi|].
    rewrite Hv. cbn. split; [|intros _]; lia.
Qed.

Lemma AddMeasurements_run (rs : list reading) :
  forall (e : Env W) (hist : list Measurement),
    wf (scale e) -> ring (scale e) hist -> all_plausible rs ->
    exists errs e',
      AddMeasurements rs e = (Ret errs, e') /\
      wf (scale e') /\
      ring (scale e')
        (reverse (pushes (index (scale e)) (size (scale e)) rs) ++ hist) /\
      size (scale e') = size (scale e) /\
      valid (scale e) <= valid (scale e') /\
      (all_stored errs ->
       valid (scale e') = Z.min (valid (scale e) + len rs) (size (scale e))).
Proof.
  induction rs as [|[now weight] rs IH]; intros e hist Hwf Hring Hpl.
  - exists [], e. split; [reflexivity|]. split; [exact Hwf|].
    split; [exact Hring|]. split; [reflexivity|]. split; [lia|].
    intros _. destruct Hwf. unfold len. simpl. lia.
  - inversion Hpl as [|? ? Hw Hpl']; subst. simpl in Hw.
    destruct (AddMeasurement_step now weight e hist Hwf Hring
                (plausible_not_implausible _ Hw))
      as (err & e1 & Hrun1 & Hwf1 & Hring1 & Hsize1 & Hidx1 & Hmono1 & Hval1).
    destruct (IH e1 _ Hwf1 Hring1 Hpl')
      as (errs & e' & Hrun & Hwf' & Hring' & Hsize' & Hmono' & Hval').
    exists (err :: errs), e'. split.
    { cbn [AddMeasurements]. unfold bind at 1. cbn [fst snd].
      rewrite Hrun1. unfold bind at 1. rewrite Hrun. reflexivity. }
    split; [exact Hwf'|]. split.
    { rewrite Hidx1, Hsize1 in Hring'.
      change (pushes (index (scale e)) (size (scale e)) ((now, weight) :: rs))
        with (pushed now weight (scale e)
              :: pushes (next_index (scale e)) (size (scale e)) rs).
      rewrite reverse_cons, <- app_assoc. exact Hring'. }
    split; [congruence|]. split; [lia|].
    intros Hall. inversion Hall as [|? ? Herr Hall']; subst.
    rewrite (Hval' Hall'), (Hval1 eq_refl), Hsize1.
    destruct Hwf. unfold len. cbn [length]. lia.
Qed.

End Appends.

Lemma pushes_length (idx n : Z) (rs : list reading) :
  length (pushes idx n rs) = length rs.
Proof.
  revert idx. induction rs as [|r rs IH]; intros idx; simpl; [done|].
  by rewrite IH.
Qed.

Lemma pushes_last (idx n : Z) (rs : list reading) (now : Time)
    (weight : float) :
  last rs = Some (now, weight) ->
  exists i,
    last (pushes idx n rs) = Some {| Index := i; Weight := weight; At := now |}.
Proof.
  revert idx. induction rs as [|r rs IH]; intros idx Hlast; [discriminate|].
  destruct rs as [|r' rs].
  - injection Hlast as ->. eexists. reflexivity.
  - rewrite last_cons_cons in Hlast.
    destruct (IH (if n <=? idx + 1 then 0 else idx + 1) Hlast) as [i Hi].
    exists i. cbn [pushes] in *. rewrite last_cons_cons. exact Hi.
Qed.

Lemma slot_index_0 (s : Scale) :
  0 <= index s < size s -> slot_index s 0 = index s.
Proof.
  intros Hi. rewrite slot_index_cases by lia. case_leb; lia.
Qed.


Section Venue.

Context {W : Type} `{Storage W}.

Lemma IsOk_run (now : Time) (e : Env W) :
  IsOk now e =
    (Ret (Since now (LastOk (scale e)) <? OkLimit),
     {| scale := scale e; world := world e;
        trace := EvUnlock :: EvLock :: trace e |}).
Proof. reflexivity. Qed.

(** A re-evaluation that finds the contact fresh does nothing. *)
Lemma Recheck_fresh (tCheck tClosed : Time) (e : Env W) :
  ~ stale tCheck (scale e) ->
  Recheck tCheck tClosed e =
    (Ret tt,
     {| scale := scale e; world := world e;
        trace := EvUnlock :: EvLock :: trace e |}).
Proof.
  unfold stale. intros Hok. unfold Recheck, IsOk. go_run.
  replace (Since tCheck (LastOk (scale e)) <? OkLimit) with true
    by (symmetry; apply Z.ltb_lt; lia).
  reflexivity.
Qed.

(** A re-evaluation that finds the contact stale and the venue open closes
    it, backdated by the threshold. *)
Lemma Recheck_closes (tCheck tClosed : Time) (e : Env W) :
  IsOpen (pub (scale e)) = true ->
  stale tCheck (scale e) ->
  Recheck tCheck tClosed e =
    (Ret tt,
     {| scale := closed_at tClosed (scale e); world := world e;
        trace := EvUnlock :: EvGaugeSet pubIsOpen 0 :: EvLock
                   :: EvUnlock :: EvLock :: trace e |}).
Proof.
  unfold stale. intros Hopen Hstale. unfold Recheck, IsOk. go_run.
  replace (Since tCheck (LastOk (scale e)) <? OkLimit) with false
    by (symmetry; apply Z.ltb_ge; lia).
  go_run. rewrite Hopen. go_run. unfold closed_at, Add, OkLimit, Minute.
  repeat f_equal; try lia.
Qed.

(** A re-evaluation that finds the contact stale and the venue closed
    locks, looks and unlocks. *)
Lemma Recheck_stays_closed (tCheck tClosed : Time) (e : Env W) :
  IsOpen (pub (scale e)) = false ->
  stale tCheck (scale e) ->
  Recheck tCheck tClosed e =
    (Ret tt,
     {| scale := scale e; world := world e;
        trace := EvUnlock :: EvLock :: EvUnlock :: EvLock :: trace e |}).
Proof.
  unfold stale. intros Hclosed Hstale. unfold Recheck, IsOk. go_run.
  replace (Since tCheck (LastOk (scale e)) <? OkLimit) with false
    by (symmetry; apply Z.ltb_ge; lia).
  go_run. rewrite Hclosed. reflexivity.
Qed.

Lemma Rechecks_stay_closed (ts : list (Time * Time)) :
  forall e : Env W,
    IsOpen (pub (scale e)) = false ->
    Forall (fun t => stale t.1 (scale e)) ts ->
    exists e',
      Rechecks ts e = (Ret tt, e') /\
      scale e' = scale e /\ world e' = world e.
Proof.
  induction ts as [|[t1 t2] ts IH]; intros e Hclosed Hstale.
  - exists e. done.
  - inversion Hstale as [|? ? Ht Hts]; subst. cbn [fst] in Ht.
    destruct (IH {| scale := scale e; world := world e;
                    trace := EvUnlock :: EvLock :: EvUnlock :: EvLock
                               :: trace e |} Hclosed Hts)
      as (e' & Hrun & Hs & Hw).
    exists e'. split; [|split; assumption].
    cbn [Rechecks fst snd]. unfold bind.
    rewrite (Recheck_stays_closed t1 t2 e Hclosed Ht). exact Hrun.
Qed.

Lemma SetActiveKeg_run (keg : Z) (e : Env W) :
  SetActiveKeg keg e =
    let (err, w') := store_SetActiveKeg keg (world e) in
    (Ret err,
     {| scale := set_ActiveKeg keg (scale e); world := w';
        trace := EvUnlock :: EvStore (CallSetActiveKeg keg) :: EvLock
                   :: trace e |}).
Proof.
  unfold SetActiveKeg. go_run.
  destruct (store_SetActiveKeg keg (world e)) as [err w']. reflexivity.
Qed.

Lemma emitted_cons {A : Type} (c : M W A) (e : Env W) (new : list event) :
  trace (c e).2 = new ++ trace e -> emitted c e = reverse new.
Proof.
  intros Htr. unfold emitted. rewrite Htr, length_app.
  replace (length new + length (trace e) - length (trace e))%nat
    with (length new) by lia.
  by rewrite take_app_length.
Qed.

End Venue.

(** ** Frames *)

Section Frame.

Context {W : Type} `{Storage W} {X : Type}.
Variable f : Scale -> X.

Lemma keeps_ret {A : Type} (a : A) : keeps f (ret (W:=W) a).
Proof. intros e. reflexivity. Qed.

Lemma keeps_panic {A : Type} (msg : string) : keeps f (panic (W:=W) (A:=A) msg).
Proof. intros e. reflexivity. Qed.

Lemma keeps_get_scale : keeps f (get_scale (W:=W)).
Proof. intros e. reflexivity. Qed.

Lemma keeps_emit (ev : event) : keeps f (emit (W:=W) ev).
Proof. intros e. reflexivity. Qed.

Lemma keeps_call_store {A : Type} (c : store_call) (g : W -> A * W) :
  keeps f (call_store c g).
Proof. intros e. unfold call_store. destruct (g (world e)). reflexivity. Qed.

Lemma keeps_modify_scale (g : Scale -> Scale) :
  (forall s, f (g s) = f s) -> keeps f (modify_scale (W:=W) g).
Proof. intros Hg e. apply Hg. Qed.

Lemma keeps_bind {A B : Type} (c : M W A) (k : A -> M W B) :
  keeps f c -> (forall a, keeps f (k a)) -> keeps f (bind c k).
Proof.
  intros Hc Hk e. unfold bind. specialize (Hc e).
  destruct (c e) as [[a|msg] e1]; [|exact Hc].
  rewrite <- Hc. apply Hk.
Qed.

Lemma keeps_defer {A : Type} (cleanup : M W unit) (body : M W A) :
  keeps f cleanup -> keeps f body -> keeps f (defer cleanup body).
Proof.
  intros Hc Hb e. unfold defer. specialize (Hb e).
  destruct (body e) as [r e1]. cbn [snd] in *. rewrite <- Hb. apply Hc.
Qed.

Lemma keeps_locked {A : Type} (body : M W A) :
  keeps f body -> keeps f (locked body).
Proof.
  intros Hb. apply keeps_bind; [apply keeps_emit|].
  intros _. apply keeps_defer; [apply keeps_emit | exact Hb].
Qed.

Lemma keeps_when (b : bool) (c : M W unit) :
  keeps f c -> keeps f (when b c).
Proof. intros Hc. destruct b; [exact Hc | apply keeps_ret]. Qed.

Lemma keeps_for_range {A : Type} (l : list A) (body : A -> M W unit) :
  (forall a, keeps f (body a)) -> keeps f (for_range l body).
Proof.
  intros Hb. induction l as [|a l IH]; [apply keeps_ret|].
  apply keeps_bind; [apply Hb | intros _; exact IH].
Qed.

Lemma keeps_for_count {A : Type} (count : nat) (body : Z -> A -> M W A) :
  (forall i acc, keeps f (body i acc)) ->
  forall i acc, keeps f (for_count count i acc body).
Proof.
  intros Hb. induction count as [|count IH]; intros i acc;
    [apply keeps_ret|].
  apply keeps_bind; [apply Hb | intros acc'; apply IH].
Qed.

Lemma keeps_int_rem (a b : Z) : keeps f (int_rem (W:=W) a b).
Proof.
  unfold int_rem. destruct (b =? 0); [apply keeps_panic | apply keeps_ret].
Qed.

Lemma keeps_slice_get (i : Z) : keeps f (slice_get (W:=W) i).
Proof.
  intros e. unfold slice_get, bind, get_scale.
  destruct ((0 <=? i) && (i <? len (Measurements (scale e)))); [|reflexivity].
  destruct (Measurements (scale e) !! Z.to_nat i); reflexivity.
Qed.

Lemma keeps_slice_set (i : Z) (m : Measurement) :
  (forall l s, length l = length (Measurements s) ->
               f (set_Measurements l s) = f s) ->
  keeps f (slice_set (W:=W) i m).
Proof.
  intros Hf e. unfold slice_set, bind, get_scale.
  destruct ((0 <=? i) && (i <? len (Measurements (scale e)))); [|reflexivity].
  apply Hf. apply length_insert.
Qed.

End Frame.

Ltac head_of c :=
  lazymatch c with
  | ?g _ => head_of g
  | _ => c
  end.

(** The frame of a method, from the frames of its statements. *)
Ltac frame_step :=
  lazymatch goal with
  | |- keeps _ (ret _) => apply keeps_ret
  | |- keeps _ (panic _) => apply keeps_panic
  | |- keeps _ get_scale => apply keeps_get_scale
  | |- keeps _ (emit _) => apply keeps_emit
  | |- keeps _ (call_store _ _) => apply keeps_call_store
  | |- keeps _ (int_rem _ _) => apply keeps_int_rem
  | |- keeps _ (slice_get _) => apply keeps_slice_get
  | |- keeps _ (slice_set _ _) =>
      apply keeps_slice_set; intros; first [reflexivity | cbn; assumption]
  | |- keeps _ (modify_scale _) => apply keeps_modify_scale; intros; reflexivity
  | |- keeps _ (locked _) => apply keeps_locked
  | |- keeps _ (defer _ _) => apply keeps_defer
  | |- keeps _ (when _ _) => apply keeps_when
  | |- keeps _ (for_range _ _) => apply keeps_for_range; intros
  | |- keeps _ (for_count _ _ _ _) => apply keeps_for_count; intros
  | |- keeps _ (bind _ _) => apply keeps_bind; [|intros]
  | |- keeps _ (if ?b then _ else _) => destruct b
  | |- keeps _ (match ?x with _ => _ end) => destruct x
  | |- keeps _ (let _ := _ in _) => cbv zeta
  | |- keeps _ ?c =>
      let h := head_of c in
      unfold h
  end.

Ltac frame := repeat frame_step.

Section Frames.

Context {W : Type} `{Storage W}.

(** The methods that only read leave the whole [Scale] as it is. *)
Lemma reads_keep_scale (o : op) (e : Env W) :
  match o with
  | OpGetLastMeasurement | OpGetMeasurement _ | OpIsOk _ | OpGetValidCount
  | OpHasLastN _ | OpSumLastN _ => scale (run_op o e) = scale e
  | _ => True
  end.
Proof.
  destruct o; try exact I; cbn [run_op];
    match goal with
    | |- scale (?c e).2 = scale e =>
        enough (Hk : keeps (fun s => s) c) by exact (Hk e)
    end; frame.
Qed.

(** The venue fields and the last contact are touched by [Ping] and
    [Recheck] only. *)
Lemma others_keep_venue (o : op) (e : Env W) :
  match o with
  | OpPing _ _ | OpRecheck _ _ => True
  | _ => venue (scale (run_op o e)) = venue (scale e)
  end.
Proof.
  destruct o; try exact I; cbn [run_op];
    match goal with
    | |- venue (scale (?c e).2) = venue (scale e) =>
        enough (Hk : keeps venue c) by exact (Hk e)
    end; frame.
Qed.

(** The ledger is touched by [AddMeasurement] only. *)
Lemma others_keep_ledger (o : op) (e : Env W) :
  match o with
  | OpAddMeasurement _ _ => True
  | _ => ledger (scale (run_op o e)) = ledger (scale e)
  end.
Proof.
  destruct o; try exact I; cbn [run_op];
    match goal with
    | |- ledger (scale (?c e).2) = ledger (scale e) =>
        enough (Hk : keeps ledger c) by exact (Hk e)
    end; frame.
Qed.

(** No method changes [size]. *)
Lemma run_op_size (o : op) (e : Env W) :
  size (scale (run_op o e)) = size (scale e).
Proof.
  pose proof (others_keep_ledger o e) as Hl.
  destruct o; try exact (f_equal (fun p => p.1.2) Hl).
  cbn [run_op].
  match goal with
  | |- size (scale (?c e).2) = size (scale e) =>
      enough (Hk : keeps size c) by exact (Hk e)
  end.
  frame.
Qed.

End Frames.

(** ** Construction *)

Section Construction.

Context {W : Type} `{Storage W}.

Lemma bind_Ret {A B : Type} (c : M W A) (k : A -> M W B) (e e1 : Env W)
    (a : A) :
  c e = (Ret a, e1) -> bind c k e = k a e1.
Proof. intros Hc. unfold bind. rewrite Hc. reflexivity. Qed.

(** What [loadDataFromStore] does to the cursor: it becomes the length of
    the slice the store returned, minus one, when the store returned no
    error. *)
Lemma loadDataFromStore_index (e : Env W) :
  index (scale (loadDataFromStore e).2) =
    match (store_GetMeasurements (world e)).1.2 with
    | None => GoInt.sub (len (store_GetMeasurements (world e)).1.1) 1
    | Some _ => index (scale e)
    end.
Proof.
  unfold loadDataFromStore. unfold bind at 1. unfold call_store at 1.
  destruct (store_GetMeasurements (world e)) as [[ms err] w1].
  cbn [fst snd].
  match goal with
  | |- index (scale (bind ?c ?k ?e1).2) = _ =>
      assert (Hk : forall a, keeps index (k a)) by (intros a; frame);
      assert (Hc : index (scale (c e1).2) =
                   match err with
                   | None => GoInt.sub (len ms) 1
                   | Some _ => index (scale e)
                   end);
      [| unfold bind at 1; destruct (c e1) as [[a|msg] e2];
         cbn [snd] in Hc |- *;
         [etransitivity; [apply (Hk a e2) | exact Hc] | exact Hc] ]
  end.
  destruct err as [err|]; [reflexivity|].
  unfold bind at 1. cbn [modify_scale].
  match goal with
  | |- index (scale (?c ?e1).2) = _ =>
      assert (Hr : keeps index c) by frame;
      etransitivity; [apply (Hr e1) | reflexivity]
  end.
Qed.

Lemma NewScale_fields (n : Z) (t1 t2 t3 : Time) (store : W) (e : Env W) :
  NewScale n t1 t2 t3 store = Ret e ->
  0 <= n <= max_slice_len /\
  size (scale e) = n /\
  valid (scale e) = 0 /\
  len (Measurements (scale e)) = n /\
  index (scale e) =
    match (store_GetMeasurements store).1.2 with
    | None => GoInt.sub (len (store_GetMeasurements store).1.1) 1
    | Some _ => -1
    end /\
  pub (scale e) = {| IsOpen := false; OpenedAt := t1 - 9999 * Hour;
                     ClosedAt := t2 - 9999 * Hour |} /\
  LastOk (scale e) = t3 - 9999 * Hour.
Proof.
  unfold NewScale.
  destruct ((n <? 0) || (max_slice_len <? n)) eqn:Hn; [discriminate|].
  apply orb_false_iff in Hn as [Hn0 Hn1].
  apply Z.ltb_ge in Hn0, Hn1.
  set (e0 := {| scale := _; world := store; trace := [] |}).
  pose proof (loadDataFromStore_index e0) as Hidx.
  assert (Hsize : keeps size (loadDataFromStore (W:=W))) by frame.
  assert (Hvalid : keeps valid (loadDataFromStore (W:=W))) by frame.
  assert (Hlen : keeps (fun s => length (Measurements s))
                   (loadDataFromStore (W:=W))) by frame.
  assert (Hvenue : keeps venue (loadDataFromStore (W:=W))) by frame.
  specialize (Hsize e0). specialize (Hvalid e0). specialize (Hlen e0).
  specialize (Hvenue e0).
  destruct (loadDataFromStore e0) as [[[]|msg] e'] eqn:Hload; [|discriminate].
  intros [= <-]. cbn [snd] in *.
  split; [lia|]. split; [exact Hsize|]. split; [exact Hvalid|].
  split; [unfold len; rewrite Hlen; cbn; rewrite length_replicate; lia|].
  split; [exact Hidx|].
  injection Hvenue as Hpub Hlast. rewrite Hpub, Hlast. cbn.
  unfold Add. split; [f_equal|]; lia.
Qed.

End Construction.

(** ** Invariants of the reachable states *)

Lemma wf_ledger (s s' : Scale) : ledger s' = ledger s -> wf s -> wf s'.
Proof.
  unfold ledger. intros [= Hm Hi Hs Hv] [Hlen Hsize Hvalid Hidx Hmax Hwr].
  split; rewrite ?Hm, ?Hi, ?Hs, ?Hv; assumption.
Qed.

Lemma last_readings (o : op) (c : Time) :
  ticks c (readings o) -> c <= List.last (readings o) c.
Proof. destruct o; cbn; lia. Qed.

Section Reachable.

Context {W : Type} `{Storage W}.

Lemma NewScale_wf (n : Z) (t1 t2 t3 : Time) (store : W) (e : Env W) :
  len (store_GetMeasurements store).1.1 <= max_slice_len ->
  NewScale n t1 t2 t3 store = Ret e ->
  1 <= size (scale e) ->
  wf (scale e).
Proof.
  intros Hloaded Hnew Hn.
  destruct (NewScale_fields _ _ _ _ _ _ Hnew)
    as (Hrange & Hsize & Hvalid & Hlen & Hidx & _).
  assert (Hi : -1 <= index (scale e) <= max_slice_len - 1).
  { rewrite Hidx. destruct ((store_GetMeasurements store).1.2); [lia|].
    unfold len in *. rewrite sub_exact
      by (unfold GoInt.in_range, GoInt.min_int, GoInt.max_int,
            max_slice_len in *; lia).
    lia. }
  split; try lia.
  unfold GoInt.max_int, max_slice_len in *. lia.
Qed.

Lemma run_op_wf (o : op) (e : Env W) :
  wf (scale e) -> wf (scale (run_op o e)).
Proof.
  intros Hwf. pose proof (others_keep_ledger o e) as Hl.
  destruct o; try exact (wf_ledger _ _ Hl Hwf).
  cbn [run_op]. destruct (implausible weight) eqn:Hw.
  - rewrite (AddMeasurement_rejected now weight e Hw). exact Hwf.
  - destruct (AddMeasurement_step now weight e [] Hwf (ring_nil _) Hw)
      as (err & e' & -> & Hwf' & _). exact Hwf'.
Qed.

(** A reachable ledger of at least one slot is well formed. *)
Lemma reachable_wf (c : Time) (e : Env W) :
  reachable c e -> 1 <= size (scale e) -> wf (scale e).
Proof.
  induction 1 as [n t1 t2 t3 store e Ht Hloaded Hnew | c e o Hreach IH Hticks];
    intros Hn.
  - exact (NewScale_wf _ _ _ _ _ _ Hloaded Hnew Hn).
  - rewrite run_op_size in Hn. apply run_op_wf, IH, Hn.
Qed.

Lemma Ping_run (tOpened tLastOk : Time) (e : Env W) :
  Ping tOpened tLastOk e =
    (Ret tt,
     if IsOpen (pub (scale e))
     then {| scale := set_LastOk tLastOk (scale e); world := world e;
             trace := EvUnlock :: EvLock :: EvGaugeNow lastUpdate
                        :: trace e |}
     else {| scale :=
               set_LastOk tLastOk
                 (set_pub {| IsOpen := true; OpenedAt := tOpened;
                             ClosedAt := ClosedAt (pub (scale e)) |}
                          (scale e));
             world := world e;
             trace := EvUnlock :: EvGaugeSet pubIsOpen 1 :: EvLock
                        :: EvGaugeNow lastUpdate :: trace e |}).
Proof.
  unfold Ping. go_run. destruct (IsOpen (pub (scale e))); reflexivity.
Qed.

Lemma stale_elapsed (now : Time) (s : Scale) :
  stale now s -> LastOk s + OkLimit <= now.
Proof.
  unfold stale, Since, Sub, OkLimit, Minute, GoInt.min_int, GoInt.max_int.
  lia.
Qed.

Lemma venue_inv_later (c c' : Time) (s s' : Scale) :
  venue s' = venue s -> c <= c' -> venue_inv c s -> venue_inv c' s'.
Proof.
  unfold venue. intros [= Hp Hl] Hc [H1 H2 H3 H4 H5].
  split; rewrite ?Hp, ?Hl; try assumption; lia.
Qed.

Lemma run_op_venue_inv (o : op) (c : Time) (e : Env W) :
  ticks c (readings o) ->
  venue_inv c (scale e) ->
  venue_inv (List.last (readings o) c) (scale (run_op o e)).
Proof.
  intros Hticks Hinv. pose proof (last_readings o c Hticks) as Hlater.
  pose proof (others_keep_venue o e) as Hv.
  destruct o; try exact (venue_inv_later _ _ _ _ Hv Hlater Hinv).
  - (* Ping *)
    cbn [run_op readings List.last] in *. rewrite Ping_run. cbn [snd].
    destruct Hticks as (Ht1 & Ht2 & _).
    destruct Hinv as [H1 H2 H3 H4 H5].
    destruct (IsOpen (pub (scale e))) eqn:Hopen; split; cbn;
      try rewrite Hopen; try lia; try discriminate; intros _;
      try specialize (H4 eq_refl); lia.
  - (* Recheck *)
    cbn [run_op readings List.last] in *.
    destruct Hticks as (Ht1 & Ht2 & _).
    destruct (Z.le_gt_cases OkLimit (Since tCheck (LastOk (scale e))))
      as [Hstale | Hfresh].
    + destruct (IsOpen (pub (scale e))) eqn:Hopen.
      * rewrite (Recheck_closes tCheck tClosed e Hopen Hstale). cbn [snd scale].
        apply stale_elapsed in Hstale.
        destruct Hinv as [H1 H2 H3 H4 H5].
        split; cbn; unfold OkLimit, Minute in *; try lia; try discriminate.
      * rewrite (Recheck_stays_closed tCheck tClosed e Hopen Hstale).
        cbn [snd scale].
        apply (venue_inv_later c _ (scale e));
          [reflexivity | lia | exact Hinv].
    + rewrite (Recheck_fresh tCheck tClosed e) by (unfold stale; lia).
      cbn [snd scale].
      apply (venue_inv_later c _ (scale e)); [reflexivity | lia | exact Hinv].
Qed.

Lemma reachable_venue_inv (c : Time) (e : Env W) :
  reachable c e -> venue_inv c (scale e).
Proof.
  induction 1 as [n t1 t2 t3 store e Ht Hloaded Hnew | c e o Hreach IH Hticks].
  - destruct (NewScale_fields _ _ _ _ _ _ Hnew)
      as (_ & _ & _ & _ & _ & Hpub & Hlast).
    split; rewrite ?Hpub, ?Hlast; cbn; unfold Hour; try lia; discriminate.
  - exact (run_op_venue_inv o c e Hticks IH).
Qed.

End Reachable.

(** * Properties of the ledger and of the venue state *)

Section Claims.

Context {W : Type} `{Storage W}.

(** X1.  The ring under N + k appends.  On a ledger of capacity N, a sequence of
    N + k appends whose weights are all within the plausible range always
    returns; afterwards [GetMeasurement 0] returns the measurement of the
    last append, whatever the store answered, and, when the store took every
    measurement (each append returned nil), [valid] equals min (N + k) N. *)
Theorem appends_fill_the_ledger (e : Env W) (rs : list reading) (k : Z)
    (now : Time) (weight : float) :
  wf (scale e) ->
  0 <= k ->
  len rs = size (scale e) + k ->
  all_plausible rs ->
  last rs = Some (now, weight) ->
  exists errs e',
    AddMeasurements rs e = (Ret errs, e') /\
    GetMeasurement 0 e' =
      (Ret {| Index := index (scale e'); Weight := weight; At := now |},
       after_read e') /\
    (all_stored errs ->
     valid (scale e') = Z.min (size (scale e) + k) (size (scale e))).
Proof.
  intros Hwf Hk Hlen Hpl Hlast.
  destruct (AddMeasurements_run rs e [] Hwf (ring_nil _) Hpl)
    as (errs & e' & Hrun & Hwf' & Hring & Hsize & Hmono & Hval).
  exists errs, e'. split; [exact Hrun|]. split.
  - rewrite app_nil_r in Hring.
    destruct (pushes_last (index (scale e)) (size (scale e)) rs now weight
                Hlast) as [i Hi].
    rewrite <- head_reverse, head_lookup in Hi.
    destruct Hring as [Hcur Hslots].
    assert (Hne : reverse (pushes (index (scale e)) (size (scale e)) rs) <> [])
      by (intros Hnil; rewrite Hnil in Hi; discriminate Hi).
    specialize (Hcur Hne).
    destruct (Hslots 0%nat _ ltac:(lia) Hi) as [Hidx Hslot].
    cbn [Index] in Hidx, Hslot. change (Z.of_nat 0) with 0 in Hidx.
    rewrite slot_index_0 in Hidx by exact Hcur. subst i.
    destruct (GetMeasurement_read 0 e' Hwf') as (m & _ & Hm & Hget).
    { unfold GoInt.min_int. lia. }
    { destruct Hwf'. lia. }
    { destruct Hwf'. lia. }
    rewrite slot_index_0 in Hm by exact Hcur.
    rewrite Hslot in Hm. injection Hm as <-. exact Hget.
  - intros Hall. rewrite (Hval Hall). destruct Hwf. lia.
Qed.


(** C6, as the code has it.  On a well-formed ledger of capacity N, after
    exactly N appends that the store took, [GetMeasurement (N - 1)] returns
    the measurement of the first of them; after one more such append it
    returns another measurement.  In a ledger of a single slot the new
    measurement takes the Index of the first, so there the two differ when
    their readings do. *)
Theorem ring_wrap_overwrites_first (e : Env W) (r1 : reading)
    (rest : list reading) (r : reading) :
  wf (scale e) ->
  len (r1 :: rest) = size (scale e) ->
  all_plausible ((r1 :: rest) ++ [r]) ->
  (size (scale e) = 1 -> r <> r1) ->
  exists errs e1 err e2,
    AddMeasurements (r1 :: rest) e = (Ret errs, e1) /\
    AddMeasurement r.1 r.2 e1 = (Ret err, e2) /\
    (all_stored errs ->
     GetMeasurement (size (scale e) - 1) e1 =
       (Ret (pushed r1.1 r1.2 (scale e)), after_read e1)) /\
    (all_stored (errs ++ [err]) ->
     exists m,
       GetMeasurement (size (scale e) - 1) e2 = (Ret m, after_read e2) /\
       m <> pushed r1.1 r1.2 (scale e)).
Proof.
  intros Hwf Hlen Hpl Hdiff.
  apply Forall_app in Hpl as [Hpl Hplr].
  apply (proj1 (Forall_singleton _ _)) in Hplr.
  destruct (AddMeasurements_run (r1 :: rest) e [] Hwf (ring_nil _) Hpl)
    as (errs & e1 & Hrun & Hwf1 & Hring1 & Hsize1 & Hmono1 & Hval1).
  rewrite app_nil_r in Hring1.
  set (built := pushes (index (scale e)) (size (scale e)) (r1 :: rest))
    in Hring1.
  set (first := pushed r1.1 r1.2 (scale e)).
  assert (Hbl : length built = length (r1 :: rest)) by apply pushes_length.
  assert (Hn : Z.of_nat (length built) = size (scale e))
    by (rewrite Hbl; exact Hlen).
  assert (Hfirst : reverse built !! (length built - 1)%nat = Some first).
  { rewrite reverse_lookup by (cbn [length] in Hbl; lia).
    replace (length built - S (length built - 1))%nat with 0%nat
      by (cbn [length] in Hbl; lia).
    reflexivity. }
  assert (Hne : reverse built <> []).
  { intros Hnil. rewrite Hnil in Hfirst. discriminate Hfirst. }
  pose proof (ring_cursor _ _ Hring1 Hne) as Hcur1.
  destruct (AddMeasurement_step r.1 r.2 e1 _ Hwf1 Hring1
              (plausible_not_implausible _ Hplr))
    as (err & e2 & Hrun2 & Hwf2 & Hring2 & Hsize2 & Hidx2 & Hmono2 & Hval2).
  assert (Hpos : (1 <= length built)%nat) by (cbn [length] in Hbl; lia).
  assert (Hlt1 : Z.of_nat (length built - 1) < size (scale e1)) by lia.
  assert (Hlt2 : Z.of_nat (length built - 1) < size (scale e2)) by lia.
  destruct (ring_slots _ _ Hring1 _ _ Hlt1 Hfirst) as [Hif Hsf].
  replace (Z.of_nat (length built - 1)) with (size (scale e) - 1)
    in Hif by lia.
  exists errs, e1, err, e2. split; [exact Hrun|]. split; [exact Hrun2|].
  split.
  - intros Hall. specialize (Hval1 Hall).
    destruct (GetMeasurement_read (size (scale e) - 1) e1 Hwf1)
      as (m & _ & Hm & Hget).
    { unfold GoInt.min_int. destruct Hwf. lia. }
    { destruct Hwf. lia. }
    { destruct Hwf1. lia. }
    rewrite <- Hif, Hsf in Hm.
    injection Hm as <-. exact Hget.
  - intros Hall. apply Forall_app in Hall as [Hall Herr].
    apply (proj1 (Forall_singleton _ _)) in Herr. specialize (Hval1 Hall).
    destruct (GetMeasurement_read (size (scale e) - 1) e2 Hwf2)
      as (m & _ & Hm & Hget).
    { unfold GoInt.min_int. destruct Hwf. lia. }
    { destruct Hwf. lia. }
    { destruct Hwf2. lia. }
    exists m. split; [exact Hget|].
    assert (Hlook : (pushed r.1 r.2 (scale e1) :: reverse built)
                      !! (length built - 1)%nat = Some m).
    { destruct (lookup_lt_is_Some_2
                  (pushed r.1 r.2 (scale e1) :: reverse built)
                  (length built - 1)%nat) as [m' Hm'].
      { cbn [length]. rewrite length_reverse. lia. }
      destruct (ring_slots _ _ Hring2 _ _ Hlt2 Hm') as [Him' Hsm'].
      replace (Z.of_nat (length built - 1)) with (size (scale e) - 1)
        in Him' by lia.
      rewrite <- Him', Hsm' in Hm. injection Hm as <-. exact Hm'. }
    destruct (decide (size (scale e) = 1)) as [Hone | Hmany].
    + replace (length built - 1)%nat with 0%nat in Hlook by lia.
      injection Hlook as <-. intros Heq.
      apply (Hdiff Hone). destruct r as [t w], r1 as [t1 w1].
      unfold first, pushed in Heq. cbn [fst snd] in Heq.
      injection Heq as _ -> ->. reflexivity.
    + destruct (length built - 1)%nat as [|j] eqn:Hj;
        [destruct Hwf; lia|].
      change (reverse built !! j = Some m) in Hlook.
      assert (Hltj : Z.of_nat j < size (scale e1)) by lia.
      destruct (ring_slots _ _ Hring1 _ _ Hltj Hlook) as [Him _].
      intros ->. rewrite Hif in Him.
      rewrite !slot_index_cases in Him by lia.
      revert Him. case_leb; lia.
Qed.

(** C5. When the venue is open and the last contact is stale, one call of
    [Recheck] closes the venue and sets [ClosedAt] to its clock reading minus
    the threshold, leaving everything else as it was; whatever number of
    further calls follow while the contact is still stale, each returns and
    none changes the [Scale] or the store. *)
Theorem recheck_closes_once (e : Env W) (tCheck tClosed : Time)
    (further : list (Time * Time)) :
  IsOpen (pub (scale e)) = true ->
  stale tCheck (scale e) ->
  Forall (fun t => stale t.1 (scale e)) further ->
  exists e1 e2,
    Recheck tCheck tClosed e = (Ret tt, e1) /\
    scale e1 = closed_at tClosed (scale e) /\
    world e1 = world e /\
    Rechecks further e1 = (Ret tt, e2) /\
    scale e2 = scale e1 /\
    world e2 = world e1.
Proof.
  intros Hopen Hstale Hfurther.
  destruct (Rechecks_stay_closed further
              {| scale := closed_at tClosed (scale e); world := world e;
                 trace := EvUnlock :: EvGaugeSet pubIsOpen 0 :: EvLock
                            :: EvUnlock :: EvLock :: trace e |})
    as (e2 & Hrun & Hs & Hw); [reflexivity | exact Hfurther |].
  eexists _, e2. split; [apply Recheck_closes; assumption|].
  repeat split; assumption.
Qed.

(** The part of the filter that works: a weight below 6000 or above 65000
    changes nothing in the [Scale] nor in the store, and the call returns
    nil: only a notice is logged.  A weight that is not a number is neither,
    see [nan_weight_is_appended]. *)
Theorem implausible_weight_is_ignored (e : Env W) (now : Time)
    (weight : float) :
  PrimFloat.ltb weight 6000 = true \/ PrimFloat.ltb 65000 weight = true ->
  AddMeasurement now weight e =
    (Ret None,
     {| scale := scale e; world := world e;
        trace := EvInfof "Invalid weight: %f" weight :: trace e |}).
Proof.
  intros Hw. apply AddMeasurement_rejected. unfold implausible.
  apply orb_true_iff. exact Hw.
Qed.

(** C9, as the code has it.  [AddMeasurement], when the filter accepts the
    weight, and [SetActiveKeg] call the store between [Lock] and the
    deferred [Unlock]: the mutex is held across the call. *)
Theorem store_called_under_lock (e : Env W) (now : Time) (weight : float)
    (keg : Z) :
  wf (scale e) ->
  implausible weight = false ->
  emitted (AddMeasurement now weight) e =
    [EvGaugeSet kegWeight weight; EvLock;
     EvStore (CallAddMeasurement (pushed now weight (scale e))); EvUnlock] /\
  emitted (SetActiveKeg keg) e =
    [EvLock; EvStore (CallSetActiveKeg keg); EvUnlock].
Proof.
  intros Hwf Hw. split.
  - apply (emitted_cons _ _
             [EvUnlock;
              EvStore (CallAddMeasurement (pushed now weight (scale e)));
              EvLock; EvGaugeSet kegWeight weight]).
    rewrite (AddMeasurement_accepted now weight e Hw Hwf). cbv zeta.
    destruct (store_AddMeasurement _ (world e)) as [[err|] w']; reflexivity.
  - apply (emitted_cons _ _
             [EvUnlock; EvStore (CallSetActiveKeg keg); EvLock]).
    rewrite SetActiveKeg_run.
    destruct (store_SetActiveKeg keg (world e)) as [err w']. reflexivity.
Qed.

(** C7, as the code has it.  In every state reached from [NewScale] by a
    sequence of calls, under a clock that does not go back: an open venue
    was opened strictly after it was last closed, and a closed venue was
    closed no earlier than it was last opened. *)
Theorem venue_timestamps_ordered (c : Time) (e : Env W) :
  reachable c e ->
  (IsOpen (pub (scale e)) = true ->
   ClosedAt (pub (scale e)) < OpenedAt (pub (scale e))) /\
  (IsOpen (pub (scale e)) = false ->
   OpenedAt (pub (scale e)) <= ClosedAt (pub (scale e))).
Proof.
  intros Hreach. destruct (reachable_venue_inv c e Hreach) as [_ _ _ H4 H5].
  split; assumption.
Qed.

(** C10, as the code has it.  On every reachable scale of at least one slot,
    and for every offset whose sum [index - offset + size] does not exceed
    the largest [int], [GetMeasurement] returns: the empty measurement when
    the guard fires, and otherwise the content of the slot at the index it
    computes, which lies within the slice. *)
Theorem read_lands_on_a_slot (c : Time) (e : Env W) (i : Z) :
  reachable c e ->
  1 <= size (scale e) ->
  index (scale e) - i + size (scale e) <= GoInt.max_int ->
  exists m,
    (GetMeasurement i e).1 = Ret m /\
    if (valid (scale e) <? i) || (size (scale e) <? i)
    then m = emptyMeasurement
    else 0 <= physical_index (scale e) i < size (scale e) /\
         Measurements (scale e) !! Z.to_nat (physical_index (scale e) i)
           = Some m.
Proof.
  intros Hreach Hn Hsum. pose proof (reachable_wf c e Hreach Hn) as Hwf.
  destruct ((valid (scale e) <? i) || (size (scale e) <? i)) eqn:Hguard.
  - exists emptyMeasurement. split; [|reflexivity].
    rewrite GetMeasurement_guarded; [reflexivity|].
    apply orb_true_iff in Hguard. rewrite !Z.ltb_lt in Hguard. exact Hguard.
  - apply orb_false_iff in Hguard as [Hv Hs]. apply Z.ltb_ge in Hv, Hs.
    assert (Hmin : GoInt.min_int <= i).
    { destruct Hwf. unfold GoInt.min_int, GoInt.max_int, max_slice_len in *.
      lia. }
    destruct (GetMeasurement_read i e Hwf Hmin Hv Hsum)
      as (m & Hrange & Hm & Hget).
    assert (Hphys : physical_index (scale e) i = slot_index (scale e) i).
    { destruct Hwf as [Hlen Hsize Hvalid Hidx Hmax Hwr].
      unfold physical_index, slot_index.
      rewrite sub_exact
        by (unfold GoInt.in_range, GoInt.min_int, GoInt.max_int,
              max_slice_len in *; lia).
      rewrite add_exact
        by (unfold GoInt.in_range, GoInt.min_int, GoInt.max_int,
              max_slice_len in *; lia).
      apply Z.rem_mod_nonneg; lia. }
    exists m. rewrite Hget, Hphys. auto.
Qed.

End Claims.

(** * The code run on concrete scales *)

Lemma NewScale_fresh3 : NewScale 3 0 0 0 fake = Ret (fresh 3).
Proof. reflexivity. Qed.

Lemma NewScale_fresh2 : NewScale 2 0 0 0 fake = Ret (fresh 2).
Proof. reflexivity. Qed.

Lemma NewScale_fresh1 : NewScale 1 0 0 0 fake = Ret (fresh 1).
Proof. reflexivity. Qed.

Lemma fresh_wf (n : Z) : 1 <= n <= max_slice_len -> wf (scale (fresh n)).
Proof.
  intros Hn. unfold max_slice_len in Hn.
  split; cbn [fresh scale Measurements index size valid];
    unfold len, GoInt.max_int, max_slice_len;
    rewrite ?length_replicate; lia.
Qed.

Lemma fresh3_reachable : reachable 0 (fresh 3).
Proof.
  apply (reachable_NewScale 3 0 0 0 fake); [lia | | exact NewScale_fresh3].
  cbn. unfold len, max_slice_len. cbn. lia.
Qed.


Lemma all_plausible_readings :
  all_plausible [(10, 7000%float); (11, 7001%float); (12, 7002%float)].
Proof. repeat constructor. Qed.

Lemma max_slice_len_bounds : 1 <= 2 <= max_slice_len /\ 1 <= 3 <= max_slice_len.
Proof. unfold max_slice_len. lia. Qed.

(** The filter compares with [<] and [>]: a weight that is not a number is
    neither below 6000 nor above 65000, and passes it, though it is not
    within the range either. *)
Lemma nan_passes_the_filter :
  implausible PrimFloat.nan = false /\ plausible PrimFloat.nan = false.
Proof. split; reflexivity. Qed.

(** ** C1: the guard of [GetMeasurement] lets the offset [valid] through *)

(** C1 (code bug).  On a scale of three slots that holds nothing, offset 0
    equals [valid] and [GetMeasurement 0] returns the zero measurement of
    slot 2, whose Index is 0, not the empty measurement of Index -1.  Once
    three appends have filled it, offset 3 equals [valid] and [size] and
    [GetMeasurement 3] returns the newest measurement, that of offset 0. *)
Theorem read_at_valid_count_returns_a_slot :
  valid (scale (fresh 3)) = 0 /\
  (GetMeasurement 0 (fresh 3)).1 = Ret zeroMeasurement /\
  Index zeroMeasurement = 0 /\
  valid (scale (AddMeasurements
                  [(5, 7000%float); (6, 7001%float); (7, 7002%float)]
                  (fresh 3)).2) = 3 /\
  (GetMeasurement 3
     (AddMeasurements [(5, 7000%float); (6, 7001%float); (7, 7002%float)]
                      (fresh 3)).2).1
    = Ret {| Index := 2; Weight := 7002; At := 7 |} /\
  (GetMeasurement 0
     (AddMeasurements [(5, 7000%float); (6, 7001%float); (7, 7002%float)]
                      (fresh 3)).2).1
    = Ret {| Index := 2; Weight := 7002; At := 7 |}.
Proof. repeat split; vm_compute; reflexivity. Qed.

(** ** C2 and C3: a failed store call skips the count of valid slots *)

(** C2 (code bug).  Three appends of plausible weights on a scale of three
    slots, over a Redis server that cannot be reached: every call returns
    the store's error, [GetMeasurement 0] returns the last measurement, but
    [valid] is 0, not min (3 + 0) 3. *)
Theorem appends_over_a_failing_store_are_not_counted :
  exists e e',
    NewScale 3 0 0 0 redis_unreachable = Ret e /\
    all_plausible [(5, 7000%float); (6, 7001%float); (7, 7002%float)] /\
    AddMeasurements [(5, 7000%float); (6, 7001%float); (7, 7002%float)] e =
      (Ret [Some (ErrWrap "could not store measurement: %w" redis_down);
            Some (ErrWrap "could not store measurement: %w" redis_down);
            Some (ErrWrap "could not store measurement: %w" redis_down)],
       e') /\
    (GetMeasurement 0 e').1 = Ret {| Index := 2; Weight := 7002; At := 7 |} /\
    valid (scale e') = 0 /\
    Z.min (size (scale e) + 0) (size (scale e)) = 3.
Proof.
  eexists _, _. split; [reflexivity|]. split; [repeat constructor|].
  split; [vm_compute; reflexivity|]. repeat split; vm_compute; reflexivity.
Qed.


(** C3 (code bug).  The same append on the same ledger, over a Redis server
    that cannot be reached and over one that can: both advance the cursor
    and write the slot, the first returns the store's error and leaves
    [valid] at 0, the second returns nil and counts the slot. *)
Theorem failed_store_skips_the_count :
  exists e_down e_up,
    NewScale 3 0 0 0 redis_unreachable = Ret e_down /\
    NewScale 3 0 0 0 redis_empty = Ret e_up /\
    ledger (scale e_down) = ledger (scale e_up) /\
    (AddMeasurement 5 7000 e_down).1 =
      Ret (Some (ErrWrap "could not store measurement: %w" redis_down)) /\
    (AddMeasurement 5 7000 e_up).1 = Ret None /\
    index (scale (AddMeasurement 5 7000 e_down).2) = 0 /\
    index (scale (AddMeasurement 5 7000 e_up).2) = 0 /\
    Measurements (scale (AddMeasurement 5 7000 e_down).2) =
      Measurements (scale (AddMeasurement 5 7000 e_up).2) /\
    valid (scale (AddMeasurement 5 7000 e_down).2) = 0 /\
    valid (scale (AddMeasurement 5 7000 e_up).2) = 1.
Proof.
  eexists _, _. split; [reflexivity|]. split; [reflexivity|].
  repeat split; vm_compute; reflexivity.
Qed.

(** ** C4: loading writes every measurement to slot 0 *)

(** C4 (code bug).  Over a store that returns two measurements, oldest
    first, [NewScale 3] leaves the newest in slot 0, the cursor on slot 1
    and [valid] at 0: [GetMeasurement 0] returns the zero measurement of
    slot 1, and [GetMeasurement 1] the empty measurement. *)
Theorem load_seeds_slot_0_only :
  exists e,
    NewScale 3 0 0 0 redis_seeded = Ret e /\
    Measurements (scale e) = [stored2; zeroMeasurement; zeroMeasurement] /\
    index (scale e) = 1 /\
    valid (scale e) = 0 /\
    (GetMeasurement 0 e).1 = Ret zeroMeasurement /\
    (GetMeasurement 1 e).1 = Ret emptyMeasurement.
Proof.
  eexists. split; [reflexivity|]. repeat split; vm_compute; reflexivity.
Qed.

(** ** C8: a weight that is not a number passes the filter *)

(** C8 (code bug).  The filter compares with [<] and [>], and both are false
    of a weight that is not a number.  On a scale of three slots the weights
    100 and 90000 leave the ledger as it is, as the claim says; NaN, which
    is not within the plausible range either, is appended: the call returns
    nil, the cursor moves from -1 to slot 0, the slot is written and
    counted, the gauge of the keg weight is set and the store is called
    with the measurement, which over a Redis server enters the list.  A
    later [SumLastN] and [AvgLastN] over a window that reaches the slot are
    not numbers either. *)
Theorem nan_weight_is_appended :
  plausible PrimFloat.nan = false /\
  ledger (scale (AddMeasurement 5 100 (fresh 3)).2)
    = ledger (scale (fresh 3)) /\
  ledger (scale (AddMeasurement 5 90000 (fresh 3)).2)
    = ledger (scale (fresh 3)) /\
  index (scale (fresh 3)) = -1 /\
  valid (scale (fresh 3)) = 0 /\
  (AddMeasurement 5 PrimFloat.nan (fresh 3)).1 = Ret None /\
  index (scale (AddMeasurement 5 PrimFloat.nan (fresh 3)).2) = 0 /\
  valid (scale (AddMeasurement 5 PrimFloat.nan (fresh 3)).2) = 1 /\
  Measurements (scale (AddMeasurement 5 PrimFloat.nan (fresh 3)).2) =
    [{| Index := 0; Weight := PrimFloat.nan; At := 5 |};
     zeroMeasurement; zeroMeasurement] /\
  emitted (AddMeasurement 5 PrimFloat.nan) (fresh 3) =
    [EvGaugeSet kegWeight PrimFloat.nan; EvLock;
     EvStore (CallAddMeasurement
                {| Index := 0; Weight := PrimFloat.nan; At := 5 |});
     EvUnlock] /\
  (exists e_up,
     NewScale 3 0 0 0 redis_empty = Ret e_up /\
     measurements_list (world (AddMeasurement 5 PrimFloat.nan e_up).2) =
       [{| Index := 0; Weight := PrimFloat.nan; At := 5 |}]) /\
  (SumLastN 2
     (AddMeasurements [(5, PrimFloat.nan); (6, 7000%float)] (fresh 3)).2).1
    = Ret PrimFloat.nan /\
  (AvgLastN 2
     (AddMeasurements [(5, PrimFloat.nan); (6, 7000%float)] (fresh 3)).2).1
    = Ret PrimFloat.nan.
Proof.
  split; [reflexivity|].
  do 9 (split; [vm_compute; reflexivity|]).
  split; [eexists; split; [reflexivity | vm_compute; reflexivity]|].
  split; vm_compute; reflexivity.
Qed.

(** ** Counterexamples *)

(** C6 fails on a ledger of one slot when the second reading repeats the
    first: the new measurement equals the one it overwrites. *)
Lemma single_slot_repeated_reading :
  exists e1 e2,
    size (scale (fresh 1)) = 1 /\
    AddMeasurements [(5, 7000%float)] (fresh 1) = (Ret [None], e1) /\
    AddMeasurement 5 7000 e1 = (Ret None, e2) /\
    (GetMeasurement (1 - 1) e1).1 = Ret (pushed 5 7000 (scale (fresh 1))) /\
    (GetMeasurement (1 - 1) e2).1 = Ret (pushed 5 7000 (scale (fresh 1))).
Proof.
  eexists _, _. split; [reflexivity|]. split; [vm_compute; reflexivity|].
  split; [vm_compute; reflexivity|]. split; vm_compute; reflexivity.
Qed.

(** C7 fails in the state [NewScale] builds when its clock readings tie:
    the venue is closed and [ClosedAt] is not after [OpenedAt]. *)
Lemma fresh_venue_timestamps_tie :
  reachable 0 (fresh 3) /\
  IsOpen (pub (scale (fresh 3))) = false /\
  ~ OpenedAt (pub (scale (fresh 3))) < ClosedAt (pub (scale (fresh 3))).
Proof.
  split; [exact fresh3_reachable|]. split; [reflexivity|]. cbn. lia.
Qed.

(** C9 fails: the appended measurement and the active keg reach the store
    while the mutex is held. *)
Lemma store_called_with_the_lock_held :
  implausible 7000 = false /\
  store_calls_unlocked false (emitted (AddMeasurement 5 7000) (fresh 3))
    = false /\
  store_calls_unlocked false (emitted (SetActiveKeg 30) (fresh 3)) = false.
Proof. repeat split; vm_compute; reflexivity. Qed.

(** C10 fails at an offset near the smallest [int]: the sum wraps around,
    the remainder is negative and the read panics. *)
Lemma far_negative_offset_panics :
  reachable 0 (fresh 3) /\
  1 <= size (scale (fresh 3)) /\
  GoInt.in_range (-9223372036854775807) /\
  physical_index (scale (fresh 3)) (-9223372036854775807) = -1 /\
  (GetMeasurement (-9223372036854775807) (fresh 3)).1
    = Panic "index out of range".
Proof.
  split; [exact fresh3_reachable|]. split; [cbn; lia|].
  split; [unfold GoInt.in_range, GoInt.min_int, GoInt.max_int; lia|].
  split; vm_compute; reflexivity.
Qed.

(** ** Witnesses *)

Lemma appends_fill_the_ledger_witness :
  exists errs e',
    AddMeasurements [(10, 7000%float); (11, 7001%float); (12, 7002%float)]
      (fresh 2) = (Ret errs, e') /\
    GetMeasurement 0 e' =
      (Ret {| Index := index (scale e'); Weight := 7002; At := 12 |},
       after_read e') /\
    (all_stored errs ->
     valid (scale e') =
       Z.min (size (scale (fresh 2)) + 1) (size (scale (fresh 2)))).
Proof.
  apply (appends_fill_the_ledger (fresh 2)
           [(10, 7000%float); (11, 7001%float); (12, 7002%float)] 1 12 7002).
  - apply fresh_wf, max_slice_len_bounds.
  - lia.
  - reflexivity.
  - exact all_plausible_readings.
  - reflexivity.
Defined.

Lemma recheck_closes_once_witness :
  exists e1 e2,
    Recheck (5 * Minute) (5 * Minute + 7) opened = (Ret tt, e1) /\
    scale e1 = closed_at (5 * Minute + 7) (scale opened) /\
    world e1 = world opened /\
    Rechecks [(6 * Minute, 6 * Minute); (7 * Minute, 7 * Minute + 1)] e1
      = (Ret tt, e2) /\
    scale e2 = scale e1 /\
    world e2 = world e1.
Proof.
  apply (recheck_closes_once opened (5 * Minute) (5 * Minute + 7)
           [(6 * Minute, 6 * Minute); (7 * Minute, 7 * Minute + 1)]).
  - reflexivity.
  - unfold stale. vm_compute. discriminate.
  - repeat constructor; unfold stale; vm_compute; discriminate.
Defined.

Lemma ring_wrap_overwrites_first_witness :
  exists errs e1 err e2,
    AddMeasurements [(10, 7000%float); (11, 7001%float)] (fresh 2)
      = (Ret errs, e1) /\
    AddMeasurement 12 7002 e1 = (Ret err, e2) /\
    (all_stored errs ->
     GetMeasurement (size (scale (fresh 2)) - 1) e1 =
       (Ret (pushed 10 7000 (scale (fresh 2))), after_read e1)) /\
    (all_stored (errs ++ [err]) ->
     exists m,
       GetMeasurement (size (scale (fresh 2)) - 1) e2
         = (Ret m, after_read e2) /\
       m <> pushed 10 7000 (scale (fresh 2))).
Proof.
  apply (ring_wrap_overwrites_first (fresh 2) (10, 7000%float)
           [(11, 7001%float)] (12, 7002%float)).
  - apply fresh_wf, max_slice_len_bounds.
  - reflexivity.
  - exact all_plausible_readings.
  - intros Hone. discriminate Hone.
Defined.

Lemma store_called_under_lock_witness :
  emitted (AddMeasurement 5 7000) (fresh 3) =
    [EvGaugeSet kegWeight 7000; EvLock;
     EvStore (CallAddMeasurement (pushed 5 7000 (scale (fresh 3))));
     EvUnlock] /\
  emitted (SetActiveKeg 30) (fresh 3) =
    [EvLock; EvStore (CallSetActiveKeg 30); EvUnlock].
Proof.
  apply (store_called_under_lock (fresh 3) 5 7000 30).
  - apply fresh_wf, max_slice_len_bounds.
  - reflexivity.
Defined.

Lemma opened_reachable : reachable 0 opened.
Proof.
  apply (reachable_op 0 (fresh 3) (OpPing 0 0)); [exact fresh3_reachable|].
  cbn. lia.
Qed.

Lemma venue_timestamps_ordered_witness :
  (IsOpen (pub (scale opened)) = true ->
   ClosedAt (pub (scale opened)) < OpenedAt (pub (scale opened))) /\
  (IsOpen (pub (scale opened)) = false ->
   OpenedAt (pub (scale opened)) <= ClosedAt (pub (scale opened))).
Proof. exact (venue_timestamps_ordered 0 opened opened_reachable). Defined.

Lemma read_lands_on_a_slot_witness :
  exists m,
    (GetMeasurement (-2) opened).1 = Ret m /\
    if (valid (scale opened) <? -2) || (size (scale opened) <? -2)
    then m = emptyMeasurement
    else 0 <= physical_index (scale opened) (-2) < size (scale opened) /\
         Measurements (scale opened)
           !! Z.to_nat (physical_index (scale opened) (-2)) = Some m.
Proof.
  apply (read_lands_on_a_slot 0 opened (-2) opened_reachable).
  - cbn. lia.
  - cbn. unfold GoInt.max_int. lia.
Defined.

(** * Further properties of the ledger *)

Lemma pushes_lookup (idx n : Z) (rs : list reading) (j : nat)
    (m : Measurement) :
  pushes idx n rs !! j = Some m -> rs !! j = Some (At m, Weight m).
Proof.
  revert idx j. induction rs as [|[t w] rs IH]; intros idx j Hm;
    [discriminate|].
  destruct j as [|j]; cbn [pushes] in Hm.
  - injection Hm as <-. reflexivity.
  - exact (IH _ j Hm).
Qed.

Section Readers.

Context {W : Type} `{Storage W}.

(** The body of the loop of [SumLastN] at an offset the ring reaches. *)
Lemma sum_step (e : Env W) (hist : list Measurement) (i : nat)
    (m : Measurement) (acc : float) :
  wf (scale e) -> ring (scale e) hist ->
  Z.of_nat i < size (scale e) -> hist !! i = Some m ->
  (s <- get_scale ;;
   idx <- int_rem (GoInt.add (GoInt.sub (index s) (Z.of_nat i)) (size s))
                  (size s) ;;
   m <- slice_get idx ;;
   ret (acc + Weight m)%float) e = (Ret (acc + Weight m)%float, e).
Proof.
  intros Hwf Hring Hi Hm.
  assert (Hne : hist <> []) by (intros ->; discriminate Hm).
  pose proof (ring_cursor _ _ Hring Hne) as Hcur.
  destruct (ring_slots _ _ Hring i m Hi Hm) as [Hidx Hslot].
  rewrite slot_index_cases in Hidx by lia.
  destruct Hwf as [Hlen Hsize Hvalid Hidx' Hmax Hwr].
  go_run.
  rewrite sub_exact
    by (unfold GoInt.in_range, GoInt.min_int, GoInt.max_int,
          max_slice_len in *; lia).
  rewrite add_exact
    by (unfold GoInt.in_range, GoInt.min_int, GoInt.max_int,
          max_slice_len in *; lia).
  replace (size (scale e) =? 0) with false by (symmetry; apply Z.eqb_neq; lia).
  go_run. rewrite Z.rem_mod_nonneg by lia.
  fold (slot_index (scale e) (Z.of_nat i)).
  rewrite slot_index_cases by lia. rewrite <- Hidx, Hlen.
  replace ((0 <=? Index m) && (Index m <? size (scale e))) with true
    by (symmetry; apply andb_true_iff; split;
        [apply Z.leb_le | apply Z.ltb_lt]; revert Hidx; case_leb; lia).
  rewrite Hslot. reflexivity.
Qed.

Lemma sum_loop (e : Env W) (hist : list Measurement) (count : nat) :
  wf (scale e) -> ring (scale e) hist ->
  forall (i : nat) (acc : float),
    (i + count <= length hist)%nat ->
    Z.of_nat (i + count) <= size (scale e) ->
    for_count count (Z.of_nat i) acc (fun i sum =>
      s <- get_scale ;;
      idx <- int_rem (GoInt.add (GoInt.sub (index s) i) (size s)) (size s) ;;
      m <- slice_get idx ;;
      ret (sum + Weight m)%float) e
    = (Ret (fold_left (fun a m => (a + Weight m)%float)
                      (take count (drop i hist)) acc), e).
Proof.
  intros Hwf Hring. induction count as [|count IH]; intros i acc Hlen Hsz.
  - reflexivity.
  - destruct (lookup_lt_is_Some_2 hist i ltac:(lia)) as [m Hm].
    cbn [for_count]. unfold bind at 1.
    rewrite (sum_step e hist i m acc Hwf Hring ltac:(lia) Hm).
    replace (Z.of_nat i + 1) with (Z.of_nat (S i)) by lia.
    rewrite IH by lia.
    rewrite (drop_S hist m i Hm). reflexivity.
Qed.

(** The loop of [SumLastN] over offsets below [size], whatever the slots
    hold: it returns and changes nothing. *)
Lemma sum_step_safe (e : Env W) (i : nat) (acc : float) :
  wf (scale e) -> Z.of_nat i < size (scale e) ->
  exists m,
    (s <- get_scale ;;
     idx <- int_rem (GoInt.add (GoInt.sub (index s) (Z.of_nat i)) (size s))
                    (size s) ;;
     m <- slice_get idx ;;
     ret (acc + Weight m)%float) e = (Ret (acc + Weight m)%float, e).
Proof.
  intros [Hlen Hsize Hvalid Hidx Hmax Hwr] Hi.
  assert (Hr : 0 <= slot_index (scale e) (Z.of_nat i) < size (scale e))
    by (apply Z.mod_pos_bound; lia).
  destruct (lookup_lt_is_Some_2 (Measurements (scale e))
              (Z.to_nat (slot_index (scale e) (Z.of_nat i)))) as [m Hm];
    [unfold len in Hlen; lia|].
  exists m. go_run.
  rewrite sub_exact
    by (unfold GoInt.in_range, GoInt.min_int, GoInt.max_int,
          max_slice_len in *; lia).
  rewrite add_exact
    by (unfold GoInt.in_range, GoInt.min_int, GoInt.max_int,
          max_slice_len in *; lia).
  replace (size (scale e) =? 0) with false by (symmetry; apply Z.eqb_neq; lia).
  go_run. rewrite Z.rem_mod_nonneg by lia.
  fold (slot_index (scale e) (Z.of_nat i)). rewrite Hlen.
  replace ((0 <=? slot_index (scale e) (Z.of_nat i)) &&
           (slot_index (scale e) (Z.of_nat i) <? size (scale e))) with true
    by (symmetry; apply andb_true_iff; split;
        [apply Z.leb_le | apply Z.ltb_lt]; lia).
  rewrite Hm. reflexivity.
Qed.

Lemma sum_loop_safe (e : Env W) (count : nat) :
  wf (scale e) ->
  forall (i : nat) (acc : float),
    Z.of_nat (i + count) <= size (scale e) ->
    exists x,
      for_count count (Z.of_nat i) acc (fun i sum =>
        s <- get_scale ;;
        idx <- int_rem (GoInt.add (GoInt.sub (index s) i) (size s)) (size s) ;;
        m <- slice_get idx ;;
        ret (sum + Weight m)%float) e = (Ret x, e).
Proof.
  intros Hwf. induction count as [|count IH]; intros i acc Hsz.
  - exists acc. reflexivity.
  - destruct (sum_step_safe e i acc Hwf ltac:(lia)) as [m Hm].
    cbn [for_count]. unfold bind at 1. rewrite Hm.
    replace (Z.of_nat i + 1) with (Z.of_nat (S i)) by lia.
    apply IH. lia.
Qed.

(** [SumLastN] on a well-formed ledger, and on one of no slot. *)
Lemma SumLastN_safe (n : Z) (e : Env W) :
  wf (scale e) \/ size (scale e) = 0 ->
  exists x, SumLastN n e = (Ret x, after_lock e).
Proof.
  intros Hs. unfold SumLastN.
  set (body := fun (i : Z) (sum : float) => _ : M W float).
  set (n' := if size (scale e) <? n then size (scale e) else n).
  assert (Hn' : n' <= size (scale e))
    by (subst n'; destruct (Z.ltb_spec (size (scale e)) n); lia).
  set (e1 := {| scale := scale e; world := world e;
                trace := EvLock :: trace e |}).
  assert (Hloop : exists x,
    for_count (Z.to_nat n') 0 0%float body e1 = (Ret x, e1)).
  { destruct Hs as [Hwf | H0].
    - apply (sum_loop_safe e1 (Z.to_nat n') Hwf 0%nat).
      pose proof (wf_size _ Hwf) as Hsz. change (size (scale e1)) with
        (size (scale e)). rewrite Nat.add_0_l. lia.
    - replace (Z.to_nat n') with 0%nat by lia. exists 0%float. reflexivity. }
  destruct Hloop as [x Hx]. exists x.
  cbv beta iota zeta delta [bind get_scale locked defer emit ret].
  cbn [fst snd]. fold n'. fold e1. rewrite Hx. reflexivity.
Qed.

End Readers.

Lemma pushes_weights (idx n : Z) (rs : list reading) :
  Weight <$> pushes idx n rs = snd <$> rs.
Proof.
  revert idx. induction rs as [|r rs IH]; intros idx; [reflexivity|].
  cbn [pushes]. rewrite !fmap_cons, IH. reflexivity.
Qed.

Lemma fold_left_fmap {A B C : Type} (f : C -> B -> C) (g : A -> B)
    (l : list A) (acc : C) :
  fold_left f (g <$> l) acc = fold_left (fun a x => f a (g x)) l acc.
Proof.
  revert acc. induction l as [|x l IH]; intros acc; [reflexivity|].
  rewrite fmap_cons. cbn [fold_left]. apply IH.
Qed.

Lemma sum_pushes (idx n : Z) (rs : list reading) (k : nat) :
  fold_left (fun a m => (a + Weight m)%float)
            (take k (reverse (pushes idx n rs))) 0%float
  = sum_weights (take k (reverse rs)).
Proof.
  unfold sum_weights.
  rewrite <- (fold_left_fmap (fun a w => (a + w)%float) Weight).
  rewrite <- (fold_left_fmap (fun a w => (a + w)%float) snd).
  rewrite !fmap_take, !fmap_reverse, pushes_weights. reflexivity.
Qed.

Section Ledger.

Context {W : Type} `{Storage W}.

Lemma reachable_size (c : Time) (e : Env W) :
  reachable c e -> wf (scale e) \/ size (scale e) = 0.
Proof.
  intros Hreach.
  destruct (Z.eq_dec (size (scale e)) 0) as [H0 | Hne]; [right; exact H0|].
  left. apply (reachable_wf c e Hreach).
  assert (0 <= size (scale e)); [|lia].
  clear Hne. induction Hreach as [n t1 t2 t3 store e Ht Hl Hnew | c e o _ IH _].
  - destruct (NewScale_fields _ _ _ _ _ _ Hnew) as (Hn & Hsize & _). lia.
  - rewrite run_op_size. exact IH.
Qed.

(** A read at an offset that the ring reaches and the count allows. *)
Lemma GetMeasurement_ring0 (e : Env W) (hist : list Measurement)
    (m : Measurement) :
  wf (scale e) -> ring (scale e) (m :: hist) ->
  0 < size (scale e) -> 0 <= valid (scale e) ->
  GetMeasurement 0 e = (Ret m, after_read e).
Proof.
  intros Hwf Hring Hi Hv.
  assert (Hne : m :: hist <> []) by discriminate.
  pose proof (ring_cursor _ _ Hring Hne) as Hcur.
  destruct (ring_slots _ _ Hring 0%nat m Hi eq_refl) as [Hidx Hslot].
  pose proof (wf_index_max _ Hwf) as Hmax.
  destruct (GetMeasurement_read 0 e Hwf) as (m' & _ & Hm' & Hget).
  - unfold GoInt.min_int. lia.
  - exact Hv.
  - lia.
  - change (Z.of_nat 0) with 0 in Hidx.
    rewrite <- Hidx, Hslot in Hm'. injection Hm' as <-. exact Hget.
Qed.

(** X2.  An offset past the appends reads no slot.  After appends of
    plausible readings on a well-formed ledger, [GetMeasurement i] at an
    offset [i] past the capacity returns the empty measurement, of index -1
    and weight 0; when the store took every append it does so too at every
    offset past the count before the appends plus their number.  The read
    changes neither the [Scale] nor the store. *)
Theorem offset_past_the_appends_reads_empty (e : Env W) (rs : list reading) :
  wf (scale e) ->
  all_plausible rs ->
  exists errs e',
    AddMeasurements rs e = (Ret errs, e') /\
    (forall i, size (scale e) < i ->
       GetMeasurement i e' = (Ret emptyMeasurement, after_lock e')) /\
    (all_stored errs ->
     forall i, valid (scale e) + len rs < i ->
       GetMeasurement i e' = (Ret emptyMeasurement, after_lock e')).
Proof.
  intros Hwf Hpl.
  destruct (AddMeasurements_run rs e [] Hwf (ring_nil _) Hpl)
    as (errs & e' & Hrun & _ & _ & Hsize & _ & Hval).
  exists errs, e'. split; [exact Hrun|]. split.
  - intros i Hi. apply GetMeasurement_guarded. right. lia.
  - intros Hst i Hi. apply GetMeasurement_guarded. left.
    rewrite (Hval Hst). lia.
Qed.

(** X3.  The ledger returns the latest appends in order.  After appends of
    plausible readings [rs] on a well-formed ledger that the store took
    every one of, [GetMeasurement i] returns, for every offset [i] below
    the number of appends and below the capacity, a measurement carrying
    the weight and the clock reading of the [i]-th latest append. *)
Theorem reads_return_the_latest_appends (e : Env W) (rs : list reading)
    (i : nat) (t : Time) (w : float) :
  wf (scale e) ->
  all_plausible rs ->
  Z.of_nat i < size (scale e) ->
  reverse rs !! i = Some (t, w) ->
  exists errs e',
    AddMeasurements rs e = (Ret errs, e') /\
    (all_stored errs ->
     exists m,
       GetMeasurement (Z.of_nat i) e' = (Ret m, after_read e') /\
       Weight m = w /\ At m = t).
Proof.
  intros Hwf Hpl Hi Hr.
  destruct (AddMeasurements_run rs e [] Hwf (ring_nil _) Hpl)
    as (errs & e' & Hrun & Hwf' & Hring & Hsize & Hmono & Hval).
  exists errs, e'. split; [exact Hrun|]. intros Hst. specialize (Hval Hst).
  rewrite app_nil_r in Hring.
  assert (Hilen : (i < length rs)%nat)
    by (apply lookup_lt_Some in Hr; rewrite length_reverse in Hr; exact Hr).
  destruct (lookup_lt_is_Some_2
              (reverse (pushes (index (scale e)) (size (scale e)) rs)) i)
    as [m Hm]; [rewrite length_reverse, pushes_length; exact Hilen|].
  assert (Hrm : rs !! (length rs - S i)%nat = Some (At m, Weight m)).
  { apply (pushes_lookup (index (scale e)) (size (scale e))).
    rewrite reverse_lookup in Hm
      by (rewrite pushes_length; exact Hilen).
    rewrite pushes_length in Hm. exact Hm. }
  rewrite reverse_lookup in Hr by exact Hilen.
  assert (Heq : Some (t, w) = Some (At m, Weight m))
    by (etransitivity; [symmetry; exact Hr | exact Hrm]).
  injection Heq as Ht Hw.
  assert (Hne : reverse (pushes (index (scale e)) (size (scale e)) rs) <> [])
    by (intros Hnil; rewrite Hnil in Hm; discriminate Hm).
  pose proof (ring_cursor _ _ Hring Hne) as Hcur.
  rewrite <- Hsize in Hi.
  destruct (ring_slots _ _ Hring i m Hi Hm) as [Hidx Hslot].
  pose proof (wf_valid _ Hwf) as Hv. pose proof (wf_size _ Hwf') as Hsz.
  pose proof (wf_index_max _ Hwf') as Hmax.
  destruct (GetMeasurement_read (Z.of_nat i) e' Hwf') as (m' & _ & Hm' & Hget).
  - unfold GoInt.min_int. lia.
  - rewrite Hval. unfold len. lia.
  - lia.
  - exists m. rewrite <- Hidx, Hslot in Hm'. injection Hm' as <-.
    split; [exact Hget|]. split; congruence.
Qed.

Lemma SumLastN_after_appends (e : Env W) (rs : list reading) (n : Z) :
  wf (scale e) ->
  all_plausible rs ->
  0 <= n ->
  Z.min n (size (scale e)) <= len rs ->
  exists errs e',
    AddMeasurements rs e = (Ret errs, e') /\
    size (scale e') = size (scale e) /\
    valid (scale e') <= size (scale e) /\
    (all_stored errs ->
     valid (scale e') = Z.min (valid (scale e) + len rs) (size (scale e))) /\
    SumLastN n e' =
      (Ret (sum_weights
              (take (Z.to_nat (Z.min n (size (scale e)))) (reverse rs))),
       after_lock e').
Proof.
  intros Hwf Hpl Hn Hsz.
  destruct (AddMeasurements_run rs e [] Hwf (ring_nil _) Hpl)
    as (errs & e' & Hrun & Hwf' & Hring & Hsize & Hmono & Hval).
  exists errs, e'. split; [exact Hrun|]. split; [exact Hsize|].
  split; [rewrite <- Hsize; apply (wf_valid _ Hwf')|].
  split; [exact Hval|].
  rewrite app_nil_r in Hring. rewrite <- Hsize in Hsz |- *.
  pose proof (wf_size _ Hwf') as Hs1.
  unfold SumLastN.
  set (body := fun (i : Z) (sum : float) => _ : M W float).
  cbv beta iota zeta delta [bind get_scale locked defer emit ret].
  cbn [fst snd].
  replace (if size (scale e') <? n then size (scale e') else n)
    with (Z.min n (size (scale e')))
    by (destruct (Z.ltb_spec (size (scale e')) n); lia).
  set (e1 := {| scale := scale e'; world := world e';
                trace := EvLock :: trace e' |}).
  pose proof (sum_loop e1 _ (Z.to_nat (Z.min n (size (scale e')))) Hwf' Hring
                0%nat 0%float) as Hloop.
  change (Z.of_nat 0) with 0 in Hloop. fold body in Hloop. rewrite Hloop.
  - rewrite drop_0, sum_pushes. reflexivity.
  - rewrite length_reverse, pushes_length. unfold len in Hsz.
    clear - Hsz Hn Hs1. lia.
  - change (size (scale e1)) with (size (scale e')). clear - Hn Hs1. lia.
Qed.

(** X4.  [SumLastN] adds the latest weights, newest first, from 0.  After
    appends of plausible readings [rs] on a well-formed ledger, whatever the
    store answered, [SumLastN n] with [n] not negative, reduced to the
    capacity when it is larger and then no more than the number of appends,
    returns the sum of the weights of that many latest readings, and changes
    neither the [Scale] nor the store. *)
Theorem SumLastN_adds_the_latest_weights (e : Env W) (rs : list reading)
    (n : Z) :
  wf (scale e) ->
  all_plausible rs ->
  0 <= n ->
  Z.min n (size (scale e)) <= len rs ->
  exists errs e',
    AddMeasurements rs e = (Ret errs, e') /\
    SumLastN n e' =
      (Ret (sum_weights
              (take (Z.to_nat (Z.min n (size (scale e)))) (reverse rs))),
       after_lock e').
Proof.
  intros Hwf Hpl Hn Hsz.
  destruct (SumLastN_after_appends e rs n Hwf Hpl Hn Hsz)
    as (errs & e' & Hrun & _ & _ & _ & Hsum).
  exists errs, e'. split; assumption.
Qed.

(** X17.  [AvgLastN] divides that sum by the number of weights added.
    After appends of plausible readings [rs] on a well-formed ledger,
    [AvgLastN n] with [n] at least 1, reduced to the capacity when it is
    larger and then no more than the number of appends, returns the sum of
    the weights of that many latest readings divided by their number. *)
Theorem AvgLastN_divides_the_sum (e : Env W) (rs : list reading) (n : Z) :
  wf (scale e) ->
  all_plausible rs ->
  1 <= n ->
  Z.min n (size (scale e)) <= len rs ->
  exists errs e',
    AddMeasurements rs e = (Ret errs, e') /\
    AvgLastN n e' =
      (Ret (sum_weights
              (take (Z.to_nat (Z.min n (size (scale e)))) (reverse rs))
            / float64_of_int (Z.min n (size (scale e))))%float,
       after_lock e').
Proof.
  intros Hwf Hpl Hn Hsz.
  pose proof (wf_size _ Hwf) as Hs.
  destruct (SumLastN_after_appends e rs (Z.min n (size (scale e))) Hwf Hpl
              ltac:(lia) ltac:(lia))
    as (errs & e' & Hrun & Hsize & _ & _ & Hsum).
  exists errs, e'. split; [exact Hrun|].
  unfold AvgLastN. unfold bind at 1. unfold get_scale at 1. cbn [fst snd].
  rewrite Hsize.
  replace (if size (scale e) <? n then size (scale e) else n)
    with (Z.min n (size (scale e)))
    by (destruct (Z.ltb_spec (size (scale e)) n); lia).
  replace (Z.min n (size (scale e)) =? 0) with false
    by (symmetry; apply Z.eqb_neq; lia).
  unfold bind. rewrite Hsum.
  replace (Z.min (Z.min n (size (scale e))) (size (scale e)))
    with (Z.min n (size (scale e))) by lia.
  reflexivity.
Qed.

(** X18.  [HasLastN] compares with the appends that the store took.  After
    appends of plausible readings on a well-formed ledger that the store
    took every one of, [HasLastN n] answers whether [n], reduced to the
    capacity when it is larger, is no more than the count before the
    appends plus their number, reduced likewise. *)
Theorem HasLastN_counts_the_stored_appends (e : Env W) (rs : list reading)
    (n : Z) :
  wf (scale e) ->
  all_plausible rs ->
  exists errs e',
    AddMeasurements rs e = (Ret errs, e') /\
    (all_stored errs ->
     HasLastN n e' =
       (Ret (Z.min n (size (scale e))
             <=? Z.min (valid (scale e) + len rs) (size (scale e))),
        after_lock e')).
Proof.
  intros Hwf Hpl.
  destruct (AddMeasurements_run rs e [] Hwf (ring_nil _) Hpl)
    as (errs & e' & Hrun & _ & _ & Hsize & _ & Hval).
  exists errs, e'. split; [exact Hrun|]. intros Hst.
  unfold HasLastN. go_run. rewrite (Hval Hst), Hsize.
  replace (if size (scale e) <? n then size (scale e) else n)
    with (Z.min n (size (scale e)))
    by (destruct (Z.ltb_spec (size (scale e)) n); lia).
  reflexivity.
Qed.

(** X19.  An append that the store refuses is written and not counted.  On
    a well-formed ledger, an append of a weight that the filter lets through
    whose call of the store returns an error returns that error wrapped;
    the measurement is in the slot after the cursor all the same, the
    cursor has moved to it and [GetMeasurement 0] returns it, while the
    count of valid measurements is as before. *)
Theorem refused_append_is_written_not_counted (now : Time) (weight : float)
    (e : Env W) (err : error) :
  wf (scale e) ->
  implausible weight = false ->
  (store_AddMeasurement (pushed now weight (scale e)) (world e)).1
    = Some err ->
  exists e',
    AddMeasurement now weight e =
      (Ret (Some (ErrWrap "could not store measurement: %w" err)), e') /\
    valid (scale e') = valid (scale e) /\
    index (scale e') = next_index (scale e) /\
    (GetMeasurement 0 e').1 = Ret (pushed now weight (scale e)).
Proof.
  intros Hwf Himp Hst.
  destruct (AddMeasurement_step now weight e [] Hwf (ring_nil _) Himp)
    as (err' & e' & Hrun & Hwf' & Hring & Hsize & Hidx & _ & _).
  pose proof Hrun as Hacc.
  rewrite (AddMeasurement_accepted now weight e Himp Hwf) in Hacc.
  cbv zeta in Hacc.
  destruct (store_AddMeasurement _ (world e)) as [[err0|] w'];
    cbn [fst] in Hst; [|discriminate Hst].
  injection Hst as ->. injection Hacc as Herr He'. subst err'.
  exists e'. split; [exact Hrun|].
  split; [rewrite <- He'; reflexivity|]. split; [exact Hidx|].
  pose proof (wf_size _ Hwf') as Hs. pose proof (wf_valid _ Hwf') as Hv.
  rewrite (GetMeasurement_ring0 e' _ _ Hwf' Hring); [reflexivity|lia|lia].
Qed.

(** X5.  The aggregates never panic.  In every state reached from
    [NewScale] by calls of the methods, of a ledger of any capacity, zero
    included, and for every [n], negative or past the capacity included,
    [SumLastN n] and [AvgLastN n] return, and leave the [Scale] and the
    store as they found them. *)
Theorem aggregates_never_panic (c : Time) (e : Env W) (n : Z) :
  reachable c e ->
  (exists x, SumLastN n e = (Ret x, after_lock e)) /\
  (exists x e', AvgLastN n e = (Ret x, e') /\
                scale e' = scale e /\ world e' = world e).
Proof.
  intros Hreach. pose proof (reachable_size c e Hreach) as Hs.
  split; [exact (SumLastN_safe n e Hs)|].
  unfold AvgLastN. unfold bind at 1. unfold get_scale at 1. cbn [fst snd].
  destruct (_ =? 0).
  - exists 0%float, e. repeat split.
  - destruct (SumLastN_safe
                (if size (scale e) <? n then size (scale e) else n) e Hs)
      as [x Hx].
    exists (PrimFloat.div x (float64_of_int
              (if size (scale e) <? n then size (scale e) else n))),
           (after_lock e).
    unfold bind. rewrite Hx. repeat split.
Qed.

End Ledger.

(** * The mutex *)

Lemma lock_discipline_app (held : bool) (h1 h2 : list event) :
  lock_discipline held (h1 ++ h2) =
    match lock_discipline held h1 with
    | Some held' => lock_discipline held' h2
    | None => None
    end.
Proof.
  revert held. induction h1 as [|ev h1 IH]; intros held; [reflexivity|].
  destruct ev; cbn [lock_discipline app]; try apply IH;
    destruct held; try reflexivity; apply IH.
Qed.

Lemma lock_discipline_quiet (held : bool) (h : list event) :
  Forall not_mutex h -> lock_discipline held h = Some held.
Proof.
  induction 1 as [|ev h [Hl Hu] _ IH]; [reflexivity|].
  destruct ev; cbn [lock_discipline]; try exact IH; congruence.
Qed.

Section Mutex.

Context {W : Type} `{Storage W}.

Lemma quiet_ret {A : Type} (a : A) : quiet (ret (W:=W) a).
Proof. intros e. exists []. split; [reflexivity | constructor]. Qed.

Lemma quiet_panic {A : Type} (msg : string) :
  quiet (panic (W:=W) (A:=A) msg).
Proof. intros e. exists []. split; [reflexivity | constructor]. Qed.

Lemma quiet_get_scale : quiet (get_scale (W:=W)).
Proof. intros e. exists []. split; [reflexivity | constructor]. Qed.

Lemma quiet_modify_scale (g : Scale -> Scale) : quiet (modify_scale (W:=W) g).
Proof. intros e. exists []. split; [reflexivity | constructor]. Qed.

Lemma quiet_emit (ev : event) : not_mutex ev -> quiet (emit (W:=W) ev).
Proof.
  intros Hev e. exists [ev]. split; [reflexivity|].
  constructor; [exact Hev | constructor].
Qed.

Lemma quiet_call_store {A : Type} (c : store_call) (g : W -> A * W) :
  quiet (call_store c g).
Proof.
  intros e. exists [EvStore c]. unfold call_store.
  destruct (g (world e)). split; [reflexivity|].
  constructor; [split; discriminate | constructor].
Qed.

Lemma quiet_bind {A B : Type} (c : M W A) (k : A -> M W B) :
  quiet c -> (forall a, quiet (k a)) -> quiet (bind c k).
Proof.
  intros Hc Hk e. unfold bind. destruct (Hc e) as (evs & Ht & Hq).
  destruct (c e) as [[a|msg] e1]; cbn [snd] in *.
  - destruct (Hk a e1) as (evs' & Ht' & Hq'). exists (evs' ++ evs).
    split; [rewrite Ht', Ht, app_assoc; reflexivity|].
    apply Forall_app. split; assumption.
  - exists evs. split; assumption.
Qed.

Lemma quiet_when (b : bool) (c : M W unit) : quiet c -> quiet (when b c).
Proof. intros Hc. destruct b; [exact Hc | apply quiet_ret]. Qed.

Lemma quiet_for_range {A : Type} (l : list A) (body : A -> M W unit) :
  (forall a, quiet (body a)) -> quiet (for_range l body).
Proof.
  intros Hb. induction l as [|a l IH]; [apply quiet_ret|].
  apply quiet_bind; [apply Hb | intros _; exact IH].
Qed.

Lemma quiet_for_count {A : Type} (count : nat) (body : Z -> A -> M W A) :
  (forall i acc, quiet (body i acc)) ->
  forall i acc, quiet (for_count count i acc body).
Proof.
  intros Hb. induction count as [|count IH]; intros i acc;
    [apply quiet_ret|].
  apply quiet_bind; [apply Hb | intros acc'; apply IH].
Qed.

Lemma quiet_int_rem (a b : Z) : quiet (int_rem (W:=W) a b).
Proof.
  unfold int_rem. destruct (b =? 0); [apply quiet_panic | apply quiet_ret].
Qed.

Lemma quiet_slice_get (i : Z) : quiet (slice_get (W:=W) i).
Proof.
  intros e. exists []. split; [|constructor].
  unfold slice_get, bind, get_scale.
  destruct ((0 <=? i) && (i <? len (Measurements (scale e)))); [|reflexivity].
  destruct (Measurements (scale e) !! Z.to_nat i); reflexivity.
Qed.

Lemma quiet_slice_set (i : Z) (m : Measurement) :
  quiet (slice_set (W:=W) i m).
Proof.
  intros e. exists []. split; [|constructor].
  unfold slice_set, bind, get_scale.
  destruct ((0 <=? i) && (i <? len (Measurements (scale e)))); reflexivity.
Qed.

Lemma tidy_quiet {A : Type} (c : M W A) : quiet c -> tidy c.
Proof.
  intros Hc e. destruct (Hc e) as (evs & Ht & Hq). exists evs.
  split; [exact Ht|]. apply lock_discipline_quiet, Forall_reverse, Hq.
Qed.

Lemma tidy_bind {A B : Type} (c : M W A) (k : A -> M W B) :
  tidy c -> (forall a, tidy (k a)) -> tidy (bind c k).
Proof.
  intros Hc Hk e. unfold bind. destruct (Hc e) as (evs & Ht & Hq).
  destruct (c e) as [[a|msg] e1]; cbn [snd] in *.
  - destruct (Hk a e1) as (evs' & Ht' & Hq'). exists (evs' ++ evs).
    split; [rewrite Ht', Ht, app_assoc; reflexivity|].
    rewrite reverse_app, lock_discipline_app, Hq. exact Hq'.
  - exists evs. split; assumption.
Qed.

(** A critical section whose body leaves the mutex alone: the mutex is
    released when the body returns and when it panics. *)
Lemma tidy_locked {A : Type} (body : M W A) : quiet body -> tidy (locked body).
Proof.
  intros Hb e. unfold locked, bind, emit, defer. cbn [fst snd].
  set (e1 := {| scale := scale e; world := world e;
                trace := EvLock :: trace e |}).
  destruct (Hb e1) as (evs & Ht & Hq). destruct (body e1) as [r e2].
  cbn [snd trace] in *. exists (EvUnlock :: evs ++ [EvLock]).
  split; [rewrite Ht; cbn; rewrite <- app_assoc; reflexivity|].
  rewrite reverse_cons, reverse_app. cbn [reverse app lock_discipline].
  change (reverse [EvLock]) with [EvLock]. cbn [app lock_discipline].
  rewrite lock_discipline_app.
  rewrite (lock_discipline_quiet true) by (apply Forall_reverse, Hq).
  reflexivity.
Qed.

End Mutex.

Ltac quiet_step :=
  lazymatch goal with
  | |- quiet (ret _) => apply quiet_ret
  | |- quiet (panic _) => apply quiet_panic
  | |- quiet get_scale => apply quiet_get_scale
  | |- quiet (emit _) => apply quiet_emit; split; discriminate
  | |- quiet (call_store _ _) => apply quiet_call_store
  | |- quiet (int_rem _ _) => apply quiet_int_rem
  | |- quiet (slice_get _) => apply quiet_slice_get
  | |- quiet (slice_set _ _) => apply quiet_slice_set
  | |- quiet (modify_scale _) => apply quiet_modify_scale
  | |- quiet (when _ _) => apply quiet_when
  | |- quiet (for_range _ _) => apply quiet_for_range; intros
  | |- quiet (for_count _ _ _ _) => apply quiet_for_count; intros
  | |- quiet (bind _ _) => apply quiet_bind; [|intros]
  | |- quiet (if ?b then _ else _) => destruct b
  | |- quiet (match ?x with _ => _ end) => destruct x
  | |- quiet (let _ := _ in _) => cbv zeta
  | |- tidy (locked _) => apply tidy_locked
  | |- tidy (bind _ _) => apply tidy_bind; [|intros]
  | |- tidy (if ?b then _ else _) => destruct b
  | |- tidy (let _ := _ in _) => cbv zeta
  | |- tidy (ret _) => apply tidy_quiet
  | |- tidy (emit _) => apply tidy_quiet
  | |- tidy get_scale => apply tidy_quiet
  | |- tidy ?c => let h := head_of c in unfold h
  | |- quiet ?c => let h := head_of c in unfold h
  end.

Section Discipline.

Context {W : Type} `{Storage W}.

Lemma effects_between_app (e e' : Env W) (evs : list event) :
  trace e' = evs ++ trace e -> effects_between e e' = reverse evs.
Proof.
  intros Ht. unfold effects_between. rewrite Ht, length_app.
  replace (length evs + length (trace e) - length (trace e))%nat
    with (length evs) by lia.
  rewrite take_app_length. reflexivity.
Qed.

Lemma tidy_methods (o : op) :
  exists (A : Type) (c : M W A), tidy c /\ forall e, run_op o e = (c e).2.
Proof.
  destruct o; cbn [run_op]; eexists _, _; (split; [|intros e; reflexivity]);
    repeat quiet_step.
Qed.

End Discipline.

Section Order.

Context {W : Type} `{Storage W}.

(** X6.  The mutex is taken and released in order.  Along the whole history
    of a [Scale], from [NewScale] through any sequence of calls of its
    methods, no [Lock] comes while the mutex is held and no [Unlock] while
    it is free, and the mutex is free between the calls, also after a call
    that panicked; a call of [AvgLastN] then keeps it so. *)
Theorem mutex_taken_and_released_in_order (c : Time) (e : Env W) :
  reachable c e ->
  lock_discipline false (reverse (trace e)) = Some false /\
  forall n,
    lock_discipline false (reverse (trace (AvgLastN n e).2)) = Some false.
Proof.
  intros Hreach.
  assert (Hfree : lock_discipline false (reverse (trace e)) = Some false).
  { induction Hreach as [n t1 t2 t3 store e Ht Hl Hnew | c e o _ IH _].
    - unfold NewScale in Hnew.
      destruct ((n <? 0) || (max_slice_len <? n)); [discriminate|].
      match type of Hnew with
      | context [loadDataFromStore ?e0] =>
          assert (Hq : quiet (loadDataFromStore (W:=W)))
            by repeat quiet_step;
          destruct (Hq e0) as (evs & Htr & Hev);
          destruct (loadDataFromStore e0) as [[[]|msg] e1]; [|discriminate]
      end.
      injection Hnew as <-. cbn [snd trace] in Htr.
      rewrite Htr, app_nil_r.
      apply lock_discipline_quiet, Forall_reverse, Hev.
    - destruct (tidy_methods o) as (A & m & Hm & Hrun).
      rewrite Hrun. destruct (Hm e) as (evs & Htr & Hev).
      rewrite Htr, reverse_app, lock_discipline_app, IH. exact Hev. }
  split; [exact Hfree|]. intros n.
  assert (Ht : tidy (AvgLastN (W:=W) n)) by repeat quiet_step.
  destruct (Ht e) as (evs & Htr & Hev).
  rewrite Htr, reverse_app, lock_discipline_app, Hfree. exact Hev.
Qed.

End Order.

(** * Further properties of the venue state *)

Lemma stale_iff (now : Time) (s : Scale) :
  stale now s <-> LastOk s + OkLimit <= now.
Proof.
  unfold stale, Since, Sub, OkLimit, Minute, GoInt.min_int, GoInt.max_int.
  split; intros Hs; repeat case_leb; lia.
Qed.

Section Contact.

Context {W : Type} `{Storage W}.

(** X7.  A contact opens the venue, and staleness alone closes it.  After
    [Ping] the venue is open and the last contact is the clock reading of
    the call.  A following [IsOk] answers true exactly while less than
    [OkLimit] has passed since the contact; a following [Recheck] leaves the
    [Scale] as it is while so, and from [OkLimit] on closes the venue, the
    closing time being its clock reading less [OkLimit]. *)
Theorem contact_opens_and_staleness_closes (e : Env W)
    (tOpened tLastOk tCheck tClosed : Time) :
  let e1 := (Ping tOpened tLastOk e).2 in
  IsOpen (pub (scale e1)) = true /\
  LastOk (scale e1) = tLastOk /\
  (IsOk tCheck e1).1 = Ret (tCheck <? tLastOk + OkLimit) /\
  (tCheck < tLastOk + OkLimit ->
   scale (Recheck tCheck tClosed e1).2 = scale e1) /\
  (tLastOk + OkLimit <= tCheck ->
   scale (Recheck tCheck tClosed e1).2 = closed_at tClosed (scale e1)).
Proof.
  intros e1.
  assert (Hopen : IsOpen (pub (scale e1)) = true)
    by (subst e1; rewrite Ping_run;
        destruct (IsOpen (pub (scale e))) eqn:Ho; cbn; congruence).
  assert (Hlast : LastOk (scale e1) = tLastOk)
    by (subst e1; rewrite Ping_run; destruct (IsOpen (pub (scale e)));
        reflexivity).
  split; [exact Hopen|]. split; [exact Hlast|]. split; [|split].
  - rewrite IsOk_run. cbn [fst]. f_equal. rewrite Hlast.
    destruct (Z.ltb_spec tCheck (tLastOk + OkLimit)) as [Hlt | Hge].
    + apply Z.ltb_lt.
      destruct (Z.lt_ge_cases (Since tCheck tLastOk) OkLimit) as [|Hs];
        [assumption|].
      assert (Hst : stale tCheck (scale e1))
        by (unfold stale; rewrite Hlast; exact Hs).
      apply stale_iff in Hst. rewrite Hlast in Hst. lia.
    + apply Z.ltb_ge.
      assert (Hst : stale tCheck (scale e1))
        by (apply stale_iff; rewrite Hlast; exact Hge).
      unfold stale in Hst. rewrite Hlast in Hst. exact Hst.
  - intros Hlt. rewrite Recheck_fresh; [reflexivity|].
    rewrite stale_iff, Hlast. lia.
  - intros Hge. rewrite Recheck_closes; [reflexivity | exact Hopen |].
    rewrite stale_iff, Hlast. exact Hge.
Qed.

(** X8.  Only a contact opens the venue and only a stale re-evaluation
    closes it: a call that finds the venue closed and leaves it open is a
    [Ping], and a call that finds it open and leaves it closed is a
    [Recheck] whose clock reading is [OkLimit] or more past the last
    contact. *)
Theorem only_ping_opens_only_recheck_closes (o : op) (e : Env W) :
  (IsOpen (pub (scale e)) = false ->
   IsOpen (pub (scale (run_op o e))) = true ->
   exists tOpened tLastOk, o = OpPing tOpened tLastOk) /\
  (IsOpen (pub (scale e)) = true ->
   IsOpen (pub (scale (run_op o e))) = false ->
   exists tCheck tClosed,
     o = OpRecheck tCheck tClosed /\
     LastOk (scale e) + OkLimit <= tCheck).
Proof.
  pose proof (others_keep_venue o e) as Hv.
  assert (Hp : match o with
               | OpPing _ _ | OpRecheck _ _ => True
               | _ => pub (scale (run_op o e)) = pub (scale e)
               end)
    by (destruct o; try exact I; exact (f_equal fst Hv)).
  clear Hv. split; intros Hb Ha.
  - destruct o as [| | |t1 t2|t1 t2| | | | | |];
      try (rewrite Hp in Ha; congruence).
    + exists t1, t2. reflexivity.
    + exfalso. cbn [run_op] in Ha.
      destruct (Z.le_gt_cases OkLimit (Since t1 (LastOk (scale e))))
        as [Hs | Hf].
      * rewrite (Recheck_stays_closed t1 t2 e Hb Hs) in Ha.
        cbn [snd scale] in Ha. congruence.
      * rewrite (Recheck_fresh t1 t2 e) in Ha by (unfold stale; lia).
        cbn [snd scale] in Ha. congruence.
  - destruct o as [| | |t1 t2|t1 t2| | | | | |];
      try (rewrite Hp in Ha; congruence).
    + exfalso. cbn [run_op] in Ha. rewrite Ping_run, Hb in Ha.
      cbn in Ha. congruence.
    + exists t1, t2. split; [reflexivity|]. apply stale_iff.
      destruct (Z.le_gt_cases OkLimit (Since t1 (LastOk (scale e))))
        as [Hs | Hf]; [exact Hs|].
      cbn [run_op] in Ha.
      rewrite (Recheck_fresh t1 t2 e) in Ha by (unfold stale; lia).
      cbn [snd scale] in Ha. congruence.
Qed.

End Contact.

(** * What a method leaves alone *)

Section Still.

Context {W : Type} `{Storage W}.

Lemma keeps_store_ret {A : Type} (a : A) : keeps_store (ret (W:=W) a).
Proof. intros e. reflexivity. Qed.

Lemma keeps_store_panic {A : Type} (msg : string) :
  keeps_store (panic (W:=W) (A:=A) msg).
Proof. intros e. reflexivity. Qed.

Lemma keeps_store_get_scale : keeps_store (get_scale (W:=W)).
Proof. intros e. reflexivity. Qed.

Lemma keeps_store_modify_scale (g : Scale -> Scale) :
  keeps_store (modify_scale (W:=W) g).
Proof. intros e. reflexivity. Qed.

Lemma keeps_store_emit (ev : event) : keeps_store (emit (W:=W) ev).
Proof. intros e. reflexivity. Qed.

Lemma keeps_store_bind {A B : Type} (c : M W A) (k : A -> M W B) :
  keeps_store c -> (forall a, keeps_store (k a)) -> keeps_store (bind c k).
Proof.
  intros Hc Hk e. unfold bind. specialize (Hc e).
  destruct (c e) as [[a|msg] e1]; [|exact Hc].
  rewrite <- Hc. apply Hk.
Qed.

Lemma keeps_store_locked {A : Type} (body : M W A) :
  keeps_store body -> keeps_store (locked body).
Proof.
  intros Hb e. unfold locked, bind, emit, defer. cbn [fst snd].
  match goal with |- context [body ?e1] =>
    specialize (Hb e1); destruct (body e1) as [r e2] end.
  exact Hb.
Qed.

Lemma keeps_store_when (b : bool) (c : M W unit) :
  keeps_store c -> keeps_store (when b c).
Proof. intros Hc. destruct b; [exact Hc | apply keeps_store_ret]. Qed.

Lemma keeps_store_for_count {A : Type} (count : nat)
    (body : Z -> A -> M W A) :
  (forall i acc, keeps_store (body i acc)) ->
  forall i acc, keeps_store (for_count count i acc body).
Proof.
  intros Hb. induction count as [|count IH]; intros i acc;
    [apply keeps_store_ret|].
  apply keeps_store_bind; [apply Hb | intros acc'; apply IH].
Qed.

Lemma keeps_store_int_rem (a b : Z) : keeps_store (int_rem (W:=W) a b).
Proof.
  unfold int_rem.
  destruct (b =? 0); [apply keeps_store_panic | apply keeps_store_ret].
Qed.

Lemma keeps_store_slice_get (i : Z) : keeps_store (slice_get (W:=W) i).
Proof.
  intros e. unfold slice_get, bind, get_scale.
  destruct ((0 <=? i) && (i <? len (Measurements (scale e)))); [|reflexivity].
  destruct (Measurements (scale e) !! Z.to_nat i); reflexivity.
Qed.

End Still.

Ltac still_step :=
  lazymatch goal with
  | |- keeps_store (ret _) => apply keeps_store_ret
  | |- keeps_store (panic _) => apply keeps_store_panic
  | |- keeps_store get_scale => apply keeps_store_get_scale
  | |- keeps_store (emit _) => apply keeps_store_emit
  | |- keeps_store (int_rem _ _) => apply keeps_store_int_rem
  | |- keeps_store (slice_get _) => apply keeps_store_slice_get
  | |- keeps_store (modify_scale _) => apply keeps_store_modify_scale
  | |- keeps_store (locked _) => apply keeps_store_locked
  | |- keeps_store (when _ _) => apply keeps_store_when
  | |- keeps_store (for_count _ _ _ _) => apply keeps_store_for_count; intros
  | |- keeps_store (bind _ _) => apply keeps_store_bind; [|intros]
  | |- keeps_store (if ?b then _ else _) => destruct b
  | |- keeps_store (let _ := _ in _) => cbv zeta
  | |- keeps_store ?c => let h := head_of c in unfold h
  end.

Section Footprint.

Context {W : Type} `{Storage W}.

(** X9.  What each method leaves alone.  No method changes the capacity.
    [AddMeasurement] leaves the venue state, the active keg and the signal
    strength; [Ping] and [Recheck] leave the ledger, the active keg, the
    signal strength and the store; [SetRssi] leaves the ledger, the venue
    state, the active keg and the store; [SetActiveKeg] leaves the ledger,
    the venue state and the signal strength; the other methods, which read,
    leave the whole [Scale] and the store, whether they return or panic. *)
Theorem methods_touch_only_their_fields (o : op) (e : Env W) :
  let s := scale e in
  let e' := run_op o e in
  let s' := scale e' in
  size s' = size s /\
  match o with
  | OpAddMeasurement _ _ =>
      venue s' = venue s /\ ActiveKeg s' = ActiveKeg s /\ Rssi s' = Rssi s
  | OpPing _ _ | OpRecheck _ _ =>
      ledger s' = ledger s /\ ActiveKeg s' = ActiveKeg s /\
      Rssi s' = Rssi s /\ world e' = world e
  | OpSetRssi _ =>
      ledger s' = ledger s /\ venue s' = venue s /\
      ActiveKeg s' = ActiveKeg s /\ world e' = world e
  | OpSetActiveKeg _ =>
      ledger s' = ledger s /\ venue s' = venue s /\ Rssi s' = Rssi s
  | _ => s' = s /\ world e' = world e
  end.
Proof.
  cbv zeta. split; [apply run_op_size|].
  pose proof (reads_keep_scale o e) as Hr.
  pose proof (others_keep_venue o e) as Hv.
  pose proof (others_keep_ledger o e) as Hl.
  destruct o; cbn [run_op] in *;
    repeat match goal with
           | |- _ /\ _ => split
           | |- _ => assumption
           | |- world (?c e).2 = world e =>
               enough (Hk : keeps_store c) by exact (Hk e);
               repeat still_step
           | |- ?f (scale (?c e).2) = ?f (scale e) =>
               enough (Hk : keeps f c) by exact (Hk e); frame
           end.
Qed.

End Footprint.

(** * Construction *)

Section Loading.

Context {W : Type} `{Storage W}.

(** The loop of [loadDataFromStore]: every measurement is written to slot
    0, so the last one stays. *)
Lemma load_loop (l : list Measurement) :
  forall e : Env W,
    0 < len (Measurements (scale e)) ->
    exists e',
      for_range l (fun m => slice_set 0 m) e = (Ret tt, e') /\
      Measurements (scale e') =
        match last l with
        | Some m => <[0%nat := m]> (Measurements (scale e))
        | None => Measurements (scale e)
        end /\
      ActiveKeg (scale e') = ActiveKeg (scale e) /\
      world e' = world e /\ trace e' = trace e.
Proof.
  induction l as [|m l IH]; intros e Hlen.
  - exists e. repeat split.
  - cbn [for_range]. unfold bind at 1. unfold slice_set at 1.
    unfold bind at 1, get_scale at 1.
    replace ((0 <=? 0) && (0 <? len (Measurements (scale e)))) with true
      by (symmetry; apply andb_true_iff; split;
          [apply Z.leb_le | apply Z.ltb_lt]; lia).
    unfold modify_scale at 1.
    set (e1 := {| scale := _; world := world e; trace := trace e |}).
    destruct (IH e1) as (e' & Hrun & Hm & Hkeg & Hw & Ht).
    { subst e1. cbn. unfold len in *. rewrite length_insert. exact Hlen. }
    exists e'. split; [exact Hrun|]. split; [|repeat split; assumption].
    rewrite Hm. subst e1. cbn [scale Measurements set_Measurements].
    change (Z.to_nat 0) with 0%nat.
    destruct l as [|m' l]; [reflexivity|].
    rewrite last_cons_cons.
    destruct (last (m' :: l)) eqn:Hl;
      [|apply last_None in Hl; discriminate Hl].
    apply list_insert_insert_eq.
Qed.

(** [loadDataFromStore] on a slice of at least one slot. *)
Lemma loadDataFromStore_run (e : Env W) :
  0 < len (Measurements (scale e)) ->
  let loaded := store_GetMeasurements (world e) in
  let keg := store_GetActiveKeg loaded.2 in
  exists e',
    loadDataFromStore e = (Ret tt, e') /\
    Measurements (scale e') =
      match loaded.1.2, last loaded.1.1 with
      | None, Some m => <[0%nat := m]> (Measurements (scale e))
      | _, _ => Measurements (scale e)
      end /\
    ActiveKeg (scale e') =
      match keg.1.2 with
      | None => keg.1.1
      | Some _ => ActiveKeg (scale e)
      end /\
    world e' = keg.2 /\
    trace e' = EvStore CallGetActiveKeg :: EvStore CallGetMeasurements
                 :: trace e.
Proof.
  intros Hz. cbv zeta.
  unfold loadDataFromStore. unfold bind at 1. unfold call_store at 1.
  destruct (store_GetMeasurements (world e)) as [[l err] w1]. cbn [fst snd].
  destruct err as [err|].
  - unfold bind, ret, call_store. cbn [world].
    destruct (store_GetActiveKeg w1) as [[k kerr] w2]. cbn [fst snd].
    destruct kerr; eexists; (split; [reflexivity|]); cbn;
      repeat split; destruct (last l); reflexivity.
  - unfold bind at 1. unfold bind at 1. unfold modify_scale at 1.
    cbn [scale world trace].
    match goal with
    | |- context [for_range l _ ?e0] =>
        destruct (load_loop l e0 Hz) as (e' & Hrun & Hm & Hkeg & Hw & Ht);
        rewrite Hrun
    end.
    cbn [scale world trace set_index Measurements ActiveKeg] in Hm, Hkeg,
      Hw, Ht.
    unfold bind, ret, call_store. rewrite Hw.
    destruct (store_GetActiveKeg w1) as [[k kerr] w2]. cbn [fst snd].
    destruct kerr; eexists; (split; [reflexivity|]);
      cbn [scale world trace modify_scale fst snd set_ActiveKeg
           Measurements ActiveKeg];
      rewrite ?Hm, ?Hkeg, ?Ht; repeat split; destruct (last l); reflexivity.
Qed.

(** X10.  What [NewScale] builds.  For a capacity from 1 to the longest
    slice, [NewScale] returns whatever the store answers: it asks the store
    for the measurements, then for the active keg.  The ledger has the
    capacity asked for and counts no measurement; its slots are zero, but
    slot 0, which holds the last measurement of the store when the store
    gave some; the cursor is the number of measurements of the store less
    one, not reduced to the capacity, and -1 when the store failed.  The
    active keg is the one of the store, and 0 when the store failed.  The
    venue is closed. *)
Theorem NewScale_loads_the_store (n : Z) (t1 t2 t3 : Time) (store : W) :
  1 <= n <= max_slice_len ->
  let loaded := store_GetMeasurements store in
  let keg := store_GetActiveKeg loaded.2 in
  exists e,
    NewScale n t1 t2 t3 store = Ret e /\
    size (scale e) = n /\
    valid (scale e) = 0 /\
    Measurements (scale e) =
      match loaded.1.2, last loaded.1.1 with
      | None, Some m => <[0%nat := m]> (zeros n)
      | _, _ => zeros n
      end /\
    index (scale e) =
      match loaded.1.2 with
      | None => GoInt.sub (len loaded.1.1) 1
      | Some _ => -1
      end /\
    ActiveKeg (scale e) =
      match keg.1.2 with
      | None => keg.1.1
      | Some _ => 0
      end /\
    IsOpen (pub (scale e)) = false /\
    world e = keg.2 /\
    trace e = [EvStore CallGetActiveKeg; EvStore CallGetMeasurements].
Proof.
  intros Hn. cbv zeta.
  assert (Hz : 0 < len (zeros n))
    by (unfold len, zeros; rewrite length_replicate; lia).
  pose (e0 := {| scale :=
                   {| Measurements := zeros n; index := -1; size := n;
                      valid := 0;
                      pub := {| IsOpen := false;
                                OpenedAt := Add t1 (-9999 * Hour);
                                ClosedAt := Add t2 (-9999 * Hour) |};
                      ActiveKeg := 0;
                      LastOk := Add t3 (-9999 * Hour);
                      Rssi := 0%float |};
                 world := store; trace := [] |} : Env W).
  destruct (loadDataFromStore_run e0 Hz) as (e & Hload & Hm & Hkeg & Hw & Ht).
  assert (Hnew : NewScale n t1 t2 t3 store = Ret e).
  { unfold NewScale.
    replace ((n <? 0) || (max_slice_len <? n)) with false
      by (symmetry; apply orb_false_iff; split; apply Z.ltb_ge; lia).
    fold (zeros n). fold e0. rewrite Hload. reflexivity. }
  destruct (NewScale_fields _ _ _ _ _ _ Hnew)
    as (_ & Hsize & Hvalid & _ & Hidx & Hpub & _).
  exists e. split; [exact Hnew|]. split; [exact Hsize|].
  split; [exact Hvalid|]. split; [exact Hm|]. split; [exact Hidx|].
  split; [exact Hkeg|]. split; [rewrite Hpub; reflexivity|].
  split; [exact Hw | exact Ht].
Qed.


End Loading.

(** * The store *)

Lemma ltrim_short (l : list Measurement) :
  (length l <= 1000)%nat -> ltrim_last_1000 l = l.
Proof.
  intros Hl. unfold ltrim_last_1000.
  replace (length l - 1000)%nat with 0%nat by lia. apply drop_0.
Qed.

Lemma ltrim_length (l : list Measurement) :
  (length (ltrim_last_1000 l) <= 1000)%nat.
Proof. unfold ltrim_last_1000. rewrite length_drop. lia. Qed.

Lemma ltrim_app (l1 l2 : list Measurement) :
  ltrim_last_1000 (ltrim_last_1000 l1 ++ l2) = ltrim_last_1000 (l1 ++ l2).
Proof.
  destruct (Nat.le_gt_cases (length l1) 1000) as [Hle | Hgt].
  - rewrite (ltrim_short l1 Hle). reflexivity.
  - unfold ltrim_last_1000. rewrite !length_app, length_drop.
    replace (length l1 - (length l1 - 1000) + length l2 - 1000)%nat
      with (length l2) by lia.
    replace (length l1 + length l2 - 1000)%nat
      with ((length l1 - 1000) + length l2)%nat by lia.
    rewrite <- drop_drop. f_equal.
    rewrite drop_app_le by lia. reflexivity.
Qed.

Lemma redis_append_step (now : Time) (weight : float) (e : Env RedisStore) :
  wf (scale e) -> implausible weight = false -> connected (world e) = true ->
  exists e1,
    AddMeasurement now weight e = (Ret None, e1) /\
    wf (scale e1) /\
    size (scale e1) = size (scale e) /\
    index (scale e1) = next_index (scale e) /\
    valid (scale e1) = Z.min (valid (scale e) + 1) (size (scale e)) /\
    world e1 =
      {| connected := true;
         measurements_list :=
           ltrim_last_1000
             (measurements_list (world e) ++ [pushed now weight (scale e)]);
         active_keg_key := active_keg_key (world e) |}.
Proof.
  intros Hwf Himp Hconn.
  destruct (AddMeasurement_step now weight e [] Hwf (ring_nil _) Himp)
    as (err & e1 & Hrun1 & Hwf1 & _ & Hsize1 & Hidx1 & _ & Hval).
  pose proof Hrun1 as Hacc.
  rewrite (AddMeasurement_accepted now weight e Himp Hwf) in Hacc.
  cbv zeta in Hacc. cbn [store_AddMeasurement RedisStore_Storage] in Hacc.
  rewrite Hconn in Hacc. injection Hacc as Herr He1. subst err.
  exists e1. split; [exact Hrun1|]. split; [exact Hwf1|].
  split; [exact Hsize1|]. split; [exact Hidx1|].
  split; [exact (Hval eq_refl)|]. rewrite <- He1. reflexivity.
Qed.

Lemma redis_appends (rs : list reading) :
  forall e : Env RedisStore,
    wf (scale e) -> all_plausible rs -> connected (world e) = true ->
    (length (measurements_list (world e)) <= 1000)%nat ->
    exists errs e',
      AddMeasurements rs e = (Ret errs, e') /\
      all_stored errs /\
      world e' =
        {| connected := true;
           measurements_list :=
             ltrim_last_1000
               (measurements_list (world e)
                  ++ pushes (index (scale e)) (size (scale e)) rs);
           active_keg_key := active_keg_key (world e) |}.
Proof.
  induction rs as [|[now weight] rs IH]; intros e Hwf Hpl Hconn Hlen.
  - exists [], e. split; [reflexivity|]. split; [constructor|].
    rewrite app_nil_r, ltrim_short by exact Hlen. rewrite <- Hconn.
    destruct (world e). reflexivity.
  - inversion Hpl as [|? ? Hw Hpl']; subst. cbn [snd] in Hw.
    pose proof (plausible_not_implausible _ Hw) as Himp.
    destruct (redis_append_step now weight e Hwf Himp Hconn)
      as (e1 & Hrun1 & Hwf1 & Hsize1 & Hidx1 & _ & Hw1).
    destruct (IH e1 Hwf1 Hpl')
      as (errs & e' & Hrun & Hst & Hw').
    { rewrite Hw1. reflexivity. }
    { rewrite Hw1. apply ltrim_length. }
    exists (None :: errs), e'. split.
    { cbn [AddMeasurements fst snd]. unfold bind at 1. rewrite Hrun1.
      unfold bind at 1. rewrite Hrun. reflexivity. }
    split; [constructor; [reflexivity | exact Hst]|].
    rewrite Hw', Hw1, Hsize1, Hidx1. cbn [measurements_list active_keg_key].
    rewrite ltrim_app, <- app_assoc. reflexivity.
Qed.

(** X12.  Appends reach the Redis list.  Over a Redis server that is
    reachable and holds at most 1000 measurements, appends of plausible
    readings on a well-formed ledger all return nil and are all counted;
    afterwards the list of the server is the former list followed by the
    measurements appended, in order, cut to its last 1000, and nothing else
    of the server has changed. *)
Theorem appends_reach_the_redis_list (e : Env RedisStore)
    (rs : list reading) :
  wf (scale e) ->
  all_plausible rs ->
  connected (world e) = true ->
  (length (measurements_list (world e)) <= 1000)%nat ->
  exists errs e',
    AddMeasurements rs e = (Ret errs, e') /\
    all_stored errs /\
    valid (scale e') = Z.min (valid (scale e) + len rs) (size (scale e)) /\
    (store_GetMeasurements (world e')).1 =
      (ltrim_last_1000
         (measurements_list (world e)
            ++ pushes (index (scale e)) (size (scale e)) rs), None) /\
    (length (measurements_list (world e')) <= 1000)%nat /\
    active_keg_key (world e') = active_keg_key (world e).
Proof.
  intros Hwf Hpl Hconn Hlen.
  destruct (redis_appends rs e Hwf Hpl Hconn Hlen)
    as (errs & e' & Hrun & Hst & Hw).
  destruct (AddMeasurements_run rs e [] Hwf (ring_nil _) Hpl)
    as (errs0 & e0 & Hrun0 & _ & _ & _ & _ & Hval).
  rewrite Hrun in Hrun0. injection Hrun0 as <- <-.
  exists errs, e'. split; [exact Hrun|]. split; [exact Hst|].
  split; [exact (Hval Hst)|]. rewrite Hw.
  cbn [store_GetMeasurements RedisStore_Storage connected measurements_list
       active_keg_key fst].
  split; [reflexivity|]. split; [apply ltrim_length | reflexivity].
Qed.

(** X13.  The active keg and a restart.  [SetActiveKeg] sets the active keg
    of the [Scale] whatever the store answers, and returns the answer of the
    store as it is.  Over a Redis server that is reachable, a [Scale] built
    afterwards over the same server starts with that keg; over one that is
    not, the call returns the error of the connection, and a [Scale] built
    afterwards starts with the keg 0. *)
Theorem active_keg_survives_a_restart (e : Env RedisStore) (keg n : Z)
    (t1 t2 t3 : Time) :
  1 <= n <= max_slice_len ->
  let e1 := (SetActiveKeg keg e).2 in
  ActiveKeg (scale e1) = keg /\
  (SetActiveKeg keg e).1 =
    Ret (if connected (world e) then None else Some redis_down) /\
  exists e2,
    NewScale n t1 t2 t3 (world e1) = Ret e2 /\
    ActiveKeg (scale e2) = if connected (world e) then keg else 0.
Proof.
  intros Hn. cbv zeta. rewrite SetActiveKeg_run.
  cbn [store_SetActiveKeg RedisStore_Storage].
  assert (Hz : 0 < len (zeros n))
    by (unfold len, zeros; rewrite length_replicate; lia).
  assert (Hnew : forall w : RedisStore,
            exists e2,
              NewScale n t1 t2 t3 w = Ret e2 /\
              ActiveKeg (scale e2) =
                if connected w
                then match active_keg_key w with Some k => k | None => 0 end
                else 0).
  { intros w. unfold NewScale.
    replace ((n <? 0) || (max_slice_len <? n)) with false
      by (symmetry; apply orb_false_iff; split; apply Z.ltb_ge; lia).
    match goal with
    | |- context [loadDataFromStore ?e0] =>
        destruct (loadDataFromStore_run e0 Hz) as (e2 & Hload & _ & Hkeg & _);
        rewrite Hload
    end.
    exists e2. split; [reflexivity|]. rewrite Hkeg.
    cbn [store_GetActiveKeg store_GetMeasurements RedisStore_Storage world].
    destruct (connected w) eqn:Hc; cbn [fst snd]; rewrite ?Hc;
      [destruct (active_keg_key w)|]; reflexivity. }
  destruct (connected (world e)) eqn:Hconn; cbn [fst snd scale world].
  - split; [reflexivity|]. split; [reflexivity|].
    match goal with
    | |- context [NewScale n t1 t2 t3 ?w] =>
        destruct (Hnew w) as (e2 & Hrun & Hkeg)
    end.
    exists e2. split; [exact Hrun|]. exact Hkeg.
  - split; [reflexivity|]. split; [reflexivity|].
    destruct (Hnew (world e)) as (e2 & Hrun & Hkeg).
    exists e2. split; [exact Hrun|]. rewrite Hkeg, Hconn. reflexivity.
Qed.

(** * The handlers *)

Lemma print_pushes (idx n : Z) (rs : list reading) (k : nat) :
  (fun m => WriteSprintf "%.2f;" (Weight m))
    <$> take k (reverse (pushes idx n rs))
  = (fun x : reading => WriteSprintf "%.2f;" x.2) <$> take k (reverse rs).
Proof.
  transitivity
    (WriteSprintf "%.2f;" <$> (Weight <$> take k (reverse (pushes idx n rs)))).
  { exact (list_fmap_compose Weight (WriteSprintf "%.2f;") _). }
  rewrite fmap_take, fmap_reverse, pushes_weights.
  rewrite <- fmap_reverse, <- fmap_take. symmetry.
  exact (list_fmap_compose snd (WriteSprintf "%.2f;") _).
Qed.

Section Served.

Context {W : Type} `{Storage W}.

Variable AuthToken : string.
Variable PushMessageType : string.
Variable ParseScaleMessage : string -> ScaleMessage.t * option string.

(** X14.  A message that is turned down changes nothing.  When the method is
    not POST, or the header [Authorization] is not the token, or the body
    cannot be read, or the parser returns an error, [scaleMessageHandler]
    answers with [http.Error] and a status among 405, 401, 500 and 400,
    writes no OK, and leaves the [Scale], the store and the gauges as they
    are: no contact is recorded. *)
Theorem rejected_message_changes_nothing (r : Request)
    (tOpened tLastOk tAdd : Time) (e : Env W) :
  Method r <> MethodPost \/
  Authorization r <> AuthToken \/
  ReadAll r = None \/
  (exists body msg,
     ReadAll r = Some body /\ (ParseScaleMessage body).2 = Some msg) ->
  exists out msg code,
    scaleMessageHandler AuthToken PushMessageType ParseScaleMessage r
      tOpened tLastOk tAdd e = (Ret out, e) /\
    last out = Some (HttpError msg code) /\
    In code [StatusMethodNotAllowed; StatusUnauthorized;
             StatusInternalServerError; StatusBadRequest] /\
    ~ In (WriteString "OK") out.
Proof.
  intros Hrej. unfold scaleMessageHandler.
  destruct (String.eqb (Method r) MethodPost) eqn:Hm; cbn [negb].
  2: { eexists _, _, _. split; [reflexivity|]. split; [reflexivity|].
       split; [cbn; tauto|]. cbn. intros [Hx | []]. discriminate Hx. }
  destruct (String.eqb (Authorization r) AuthToken) eqn:Ha; cbn [negb].
  2: { eexists _, _, _. split; [reflexivity|]. split; [reflexivity|].
       split; [cbn; tauto|]. cbn. intros [Hx | []]. discriminate Hx. }
  destruct (ReadAll r) as [body|] eqn:Hb.
  2: { eexists _, _, _. split; [reflexivity|]. split; [reflexivity|].
       split; [cbn; tauto|]. cbn. intros [Hx | []]. discriminate Hx. }
  destruct (ParseScaleMessage body) as [message [msg|]] eqn:Hp.
  { eexists _, _, _. split; [reflexivity|]. split; [reflexivity|].
    split; [cbn; tauto|]. cbn. intros [Hx | [Hx | []]]; discriminate Hx. }
  exfalso. apply String.eqb_eq in Hm, Ha.
  destruct Hrej as [Hr | [Hr | [Hr | (body' & msg & Hr & Hq)]]];
    try congruence.
  injection Hr as <-. rewrite Hp in Hq. discriminate Hq.
Qed.

(** The contact that every message the parser accepts records. *)
Lemma contact_run (tOpened tLastOk : Time) (rssi : float) (e : Env W) :
  exists e2,
    (forall (A : Type) (k : M W A),
       (Ping tOpened tLastOk ;; SetRssi rssi ;;
        emit (EvGaugeNow lastUpdate) ;; k) e = k e2) /\
    ledger (scale e2) = ledger (scale e) /\
    IsOpen (pub (scale e2)) = true /\
    LastOk (scale e2) = tLastOk /\
    Rssi (scale e2) = rssi /\
    ActiveKeg (scale e2) = ActiveKeg (scale e) /\
    world e2 = world e.
Proof.
  destruct (IsOpen (pub (scale e))) eqn:Ho;
    (eexists; split;
     [intros A k; unfold bind at 1; rewrite Ping_run, Ho; reflexivity|]);
    cbn; repeat split; exact Ho.
Qed.

(** X15.  A message that is taken records the contact and is answered OK.
    For a POST request that carries the token and a body the parser
    accepts, on a well-formed ledger, [scaleMessageHandler] returns and its
    last write is OK, whatever the weight and whatever the store answers:
    the error of [AddMeasurement] is dropped.  Afterwards the venue is open,
    the last contact is the clock reading of [Ping], the signal strength is
    the one of the message and the active keg is as before.  A message that
    is not a push, and a push of a weight that the filter rejects, leave the
    ledger and the store as they are; a push of a weight that the filter
    lets through leaves its measurement in the slot after the cursor, which
    becomes the cursor.  The handler sets the gauge of the keg weight to the
    weight of every push, rejected or not. *)
Theorem accepted_message_records_the_contact (r : Request) (body : string)
    (message : ScaleMessage.t) (tOpened tLastOk tAdd : Time) (e : Env W) :
  wf (scale e) ->
  Method r = MethodPost ->
  Authorization r = AuthToken ->
  ReadAll r = Some body ->
  ParseScaleMessage body = (message, None) ->
  exists out e',
    scaleMessageHandler AuthToken PushMessageType ParseScaleMessage r
      tOpened tLastOk tAdd e = (Ret out, e') /\
    last out = Some (WriteString "OK") /\
    IsOpen (pub (scale e')) = true /\
    LastOk (scale e') = tLastOk /\
    Rssi (scale e') = ScaleMessage.Rssi message /\
    ActiveKeg (scale e') = ActiveKeg (scale e) /\
    (String.eqb (ScaleMessage.MessageType message) PushMessageType = true ->
     head (trace e') =
       Some (EvGaugeSet kegWeight (ScaleMessage.Value message))) /\
    if String.eqb (ScaleMessage.MessageType message) PushMessageType
       && negb (implausible (ScaleMessage.Value message))
    then
      index (scale e') = next_index (scale e) /\
      Measurements (scale e') !! Z.to_nat (next_index (scale e)) =
        Some {| Index := next_index (scale e);
                Weight := ScaleMessage.Value message; At := tAdd |}
    else ledger (scale e') = ledger (scale e) /\ world e' = world e.
Proof.
  intros Hwf Hm Ha Hb Hp. unfold scaleMessageHandler.
  rewrite Hm, Ha, Hb, Hp, !String.eqb_refl. cbn [negb].
  destruct (contact_run tOpened tLastOk (ScaleMessage.Rssi message) e)
    as (e2 & Hrun & Hl & Hopen & Hlast & Hrssi & Hkeg & Hw).
  rewrite Hrun.
  destruct (String.eqb (ScaleMessage.MessageType message) PushMessageType).
  2: { exists [WriteString "OK"], e2. cbn [andb].
       repeat split; first [assumption | discriminate]. }
  cbn [andb].
  assert (Hwf2 : wf (scale e2)).
  { unfold ledger in Hl. injection Hl as HM Hi Hs Hv.
    destruct Hwf as [Hlen Hsize Hvalid Hidx Hmax Hwr].
    split; rewrite ?HM, ?Hi, ?Hs, ?Hv; assumption. }
  assert (Hnext : next_index (scale e2) = next_index (scale e)).
  { unfold ledger in Hl. injection Hl as HM Hi Hs Hv.
    unfold next_index. rewrite Hi, Hs. reflexivity. }
  assert (Hk1 : keeps (fun s => IsOpen (pub s))
            (AddMeasurement (W:=W) tAdd (ScaleMessage.Value message)))
    by frame.
  assert (Hk2 : keeps LastOk
            (AddMeasurement (W:=W) tAdd (ScaleMessage.Value message)))
    by frame.
  assert (Hk3 : keeps Rssi
            (AddMeasurement (W:=W) tAdd (ScaleMessage.Value message)))
    by frame.
  assert (Hk4 : keeps ActiveKeg
            (AddMeasurement (W:=W) tAdd (ScaleMessage.Value message)))
    by frame.
  specialize (Hk1 e2). specialize (Hk2 e2). specialize (Hk3 e2).
  specialize (Hk4 e2). cbv beta in Hk1. rewrite Hopen in Hk1.
  rewrite Hlast in Hk2.
  rewrite Hrssi in Hk3. rewrite Hkeg in Hk4.
  unfold bind at 1.
  destruct (implausible (ScaleMessage.Value message)) eqn:Himp; cbn [negb].
  - rewrite (AddMeasurement_rejected tAdd _ e2 Himp) in *.
    cbn [snd scale] in Hk1, Hk2, Hk3, Hk4.
    eexists _, _. split; [reflexivity|].
    cbn [bind emit ret fst snd scale world trace].
    repeat split; assumption.
  - pose proof (next_index_range _ Hwf2) as Hrange.
    pose proof (wf_len _ Hwf2) as Hlen2.
    rewrite (AddMeasurement_accepted tAdd _ e2 Himp Hwf2) in *.
    cbv zeta in *.
    destruct (store_AddMeasurement _ (world e2)) as [[err|] w'];
      cbn [snd scale] in Hk1, Hk2, Hk3, Hk4;
      (eexists _, _; split; [reflexivity|]);
      cbn [bind emit ret fst snd scale world trace];
      (split; [reflexivity|]); (split; [exact Hk1|]);
      (split; [exact Hk2|]); (split; [exact Hk3|]); (split; [exact Hk4|]);
      (split; [reflexivity|]);
      rewrite <- Hnext;
      destruct (count_slot_fields (write_slot tAdd
                  (ScaleMessage.Value message) (scale e2)))
        as (Hci & _ & Hcm & _);
      rewrite ?Hci, ?Hcm; unfold write_slot;
      cbn [index Measurements set_Measurements set_index];
      (split; [reflexivity|]);
      apply list_lookup_insert_eq; unfold len in Hlen2; lia.
Qed.

(** A read at an offset that the ring reaches and the count allows. *)
Lemma GetMeasurement_ring (e : Env W) (hist : list Measurement) (i : nat)
    (m : Measurement) :
  wf (scale e) -> ring (scale e) hist ->
  Z.of_nat i < size (scale e) -> Z.of_nat i <= valid (scale e) ->
  hist !! i = Some m ->
  GetMeasurement (Z.of_nat i) e = (Ret m, after_read e).
Proof.
  intros Hwf Hring Hi Hv Hm.
  assert (Hne : hist <> []) by (intros ->; discriminate Hm).
  pose proof (ring_cursor _ _ Hring Hne) as Hcur.
  destruct (ring_slots _ _ Hring i m Hi Hm) as [Hidx Hslot].
  pose proof (wf_index_max _ Hwf) as Hmax.
  destruct (GetMeasurement_read (Z.of_nat i) e Hwf) as (m' & _ & Hm' & Hget).
  - unfold GoInt.min_int. lia.
  - exact Hv.
  - lia.
  - rewrite <- Hidx, Hslot in Hm'. injection Hm' as <-. exact Hget.
Qed.

Lemma print_loop (hist : list Measurement) (count : nat) :
  forall (i : nat) (out : list served) (e : Env W),
    wf (scale e) -> ring (scale e) hist ->
    (i + count <= length hist)%nat ->
    Z.of_nat (i + count) <= size (scale e) ->
    Z.of_nat (i + count) <= valid (scale e) ->
    exists e',
      for_count count (Z.of_nat i) out (fun i out =>
        m <- GetMeasurement i ;;
        ret (out ++ [WriteSprintf "%.2f;" (Weight m)])) e
      = (Ret (out ++ ((fun m => WriteSprintf "%.2f;" (Weight m))
                        <$> take count (drop i hist))), e') /\
      scale e' = scale e /\ world e' = world e.
Proof.
  induction count as [|count IH]; intros i out e Hwf Hring Hlen Hsz Hv.
  - exists e. rewrite take_0, app_nil_r. repeat split.
  - destruct (lookup_lt_is_Some_2 hist i ltac:(lia)) as [m Hm].
    cbn [for_count]. unfold bind at 1. unfold bind at 1.
    rewrite (GetMeasurement_ring e hist i m Hwf Hring) by (lia || exact Hm).
    cbn [ret]. replace (Z.of_nat i + 1) with (Z.of_nat (S i)) by lia.
    destruct (IH (S i) (out ++ [WriteSprintf "%.2f;" (Weight m)])
                (after_read e) Hwf Hring ltac:(lia) ltac:(cbn; lia)
                ltac:(cbn; lia))
      as (e' & Hrun & Hs & Hw).
    exists e'. split; [|split; assumption].
    rewrite Hrun, (drop_S hist m i Hm). cbn [take fmap list_fmap].
    rewrite <- app_assoc. reflexivity.
Qed.

(** X16.  The print endpoint lists the weights received, newest first.  On
    a ledger that counts no measurement yet, after appends of plausible
    readings that the store took every one of, [scalePrintHandler] answers a
    GET request with one write for each of the latest appends, as many as
    the capacity at most, the weight of the latest first, and changes
    neither the [Scale] nor the store. *)
Theorem print_lists_the_latest_weights (e : Env W) (rs : list reading)
    (r : Request) :
  wf (scale e) ->
  valid (scale e) = 0 ->
  all_plausible rs ->
  Method r = MethodGet ->
  exists errs e',
    AddMeasurements rs e = (Ret errs, e') /\
    (all_stored errs ->
     exists e'',
       scalePrintHandler r e' =
         (Ret ((fun x : reading => WriteSprintf "%.2f;" x.2)
                 <$> take (Z.to_nat (size (scale e))) (reverse rs)), e'') /\
       scale e'' = scale e' /\ world e'' = world e').
Proof.
  intros Hwf Hv0 Hpl Hget.
  destruct (AddMeasurements_run rs e [] Hwf (ring_nil _) Hpl)
    as (errs & e' & Hrun & Hwf' & Hring & Hsize & _ & Hval).
  exists errs, e'. split; [exact Hrun|]. intros Hst. specialize (Hval Hst).
  rewrite app_nil_r in Hring. rewrite Hv0 in Hval.
  unfold scalePrintHandler. rewrite Hget, String.eqb_refl. cbn [negb].
  set (body := fun (i : Z) (out : list served) => _ : M W (list served)).
  unfold GetValidCount.
  cbv beta iota zeta delta [bind get_scale locked defer emit ret].
  cbn [fst snd scale].
  set (e1 := {| scale := scale e'; world := world e';
                trace := EvUnlock :: EvLock :: trace e' |}).
  pose proof (wf_size _ Hwf) as Hsz.
  destruct (print_loop _ (Z.to_nat (valid (scale e'))) 0%nat [] e1 Hwf' Hring)
    as (e'' & Hloop & Hs & Hw).
  - rewrite length_reverse, pushes_length, Hval. unfold len.
    clear. cbn [Nat.add]. lia.
  - change (size (scale e1)) with (size (scale e')). rewrite Hsize, Hval.
    clear - Hsz. unfold len. lia.
  - change (valid (scale e1)) with (valid (scale e')). rewrite Hval.
    clear - Hsz. unfold len. lia.
  - exists e''. split; [|split; assumption].
    change (Z.of_nat 0) with 0 in Hloop.
    etransitivity; [exact Hloop|]. f_equal. f_equal. cbn [app].
    rewrite drop_0, Hval.
    rewrite print_pushes.
    unfold len. destruct (Z.le_ge_cases (Z.of_nat (length rs))
                            (size (scale e))) as [Hle | Hge].
    + rewrite !take_ge by (rewrite length_reverse; clear - Hle; lia).
      reflexivity.
    + rewrite Z.min_r by (clear - Hge; lia). reflexivity.
Qed.

End Served.

Section Deprecated.

Context {W : Type} `{Storage W}.

Variable AuthToken : string.
Variable Split : string -> string -> list string.
Variable ParseFloat : string -> float * option string.

(** X20.  The deprecated ping endpoint records no contact.  Whatever the
    request, [scalePingHandler] returns, and leaves the venue state and the
    last contact, the ledger, the active keg and the store as they are: it
    calls [SetRssi] and never [Ping], so a venue that is closed stays
    closed. *)
Theorem deprecated_ping_records_no_contact (r : Request) (e : Env W) :
  exists out e',
    scalePingHandler AuthToken Split ParseFloat r e = (Ret out, e') /\
    venue (scale e') = venue (scale e) /\
    ledger (scale e') = ledger (scale e) /\
    ActiveKeg (scale e') = ActiveKeg (scale e) /\
    world e' = world e.
Proof.
  unfold scalePingHandler. cbv zeta.
  destruct (negb (String.eqb (Method r) MethodPost));
    [eexists _, _; repeat split|].
  destruct (negb (String.eqb (Authorization r) AuthToken));
    [eexists _, _; repeat split|].
  destruct (ReadAll r) as [body|]; [|eexists _, _; repeat split].
  destruct (Split body ";") as [|c0 [|c1 [|c2 cs]]];
    try (eexists _, _; repeat split; fail).
  destruct (ParseFloat c1) as [rssi [err|]];
    eexists _, _; repeat split.
Qed.

(** X21.  The deprecated value endpoint appends, then records the contact.
    For a POST request that carries the token and a body that parses as a
    number, on a well-formed ledger, [scaleValueHandler] returns and its
    last write is OK, whatever the weight and whatever the store answers.
    Afterwards the venue is open and the last contact is the clock reading
    of [Ping], also when the filter rejected the weight, which then leaves
    the ledger and the store as they are; a weight that the filter lets
    through is in the slot after the cursor, which becomes the cursor. *)
Theorem deprecated_value_appends_then_pings (r : Request) (body : string)
    (current : float) (tAdd tOpened tLastOk : Time) (e : Env W) :
  wf (scale e) ->
  Method r = MethodPost ->
  Authorization r = AuthToken ->
  ReadAll r = Some body ->
  ParseFloat body = (current, None) ->
  exists out e',
    scaleValueHandler AuthToken ParseFloat r tAdd tOpened tLastOk e
      = (Ret out, e') /\
    last out = Some (WriteString "OK") /\
    IsOpen (pub (scale e')) = true /\
    LastOk (scale e') = tLastOk /\
    if implausible current
    then ledger (scale e') = ledger (scale e) /\ world e' = world e
    else
      index (scale e') = next_index (scale e) /\
      Measurements (scale e') !! Z.to_nat (next_index (scale e)) =
        Some {| Index := next_index (scale e); Weight := current;
                At := tAdd |}.
Proof.
  intros Hwf Hm Ha Hb Hp. unfold scaleValueHandler. cbv zeta.
  rewrite Hm, Ha, Hb, Hp, !String.eqb_refl. cbn [negb].
  unfold bind at 1. unfold emit at 1. unfold bind at 1. unfold emit at 1.
  set (e0 := {| scale := scale e; world := world e;
                trace := EvGaugeNow lastUpdate
                           :: EvGaugeSet kegWeight current :: trace e |}).
  assert (Hwf0 : wf (scale e0)) by exact Hwf.
  pose proof (next_index_range _ Hwf) as Hrange.
  pose proof (wf_len _ Hwf) as Hlen.
  unfold bind at 1.
  destruct (implausible current) eqn:Himp.
  - rewrite (AddMeasurement_rejected tAdd _ e0 Himp).
    unfold bind at 1. rewrite Ping_run. subst e0. cbn [scale world trace].
    destruct (IsOpen (pub (scale e))) eqn:Ho;
      eexists _, _; (split; [reflexivity|]); cbn; repeat split; exact Ho.
  - rewrite (AddMeasurement_accepted tAdd _ e0 Himp Hwf0). cbv zeta.
    destruct (store_AddMeasurement _ (world e0)) as [[err|] w'];
      unfold bind at 1; rewrite Ping_run; subst e0; cbn [scale world trace];
      match goal with
      | |- context [if IsOpen (pub ?s) then _ else _] =>
          destruct (IsOpen (pub s)) eqn:Ho
      end;
      (eexists _, _; split; [reflexivity|]);
      cbn [ret fst snd scale world trace last];
      (split; [reflexivity|]);
      (split; [first [exact Ho | reflexivity]|]);
      (split; [reflexivity|]);
      cbn [scale set_LastOk set_pub index Measurements];
      destruct (count_slot_fields (write_slot tAdd current (scale e)))
        as (Hci & _ & Hcm & _);
      rewrite ?Hci, ?Hcm; unfold write_slot;
      cbn [index Measurements set_Measurements set_index];
      (split; [reflexivity|]);
      apply list_lookup_insert_eq; unfold len in Hlen; lia.
Qed.

End Deprecated.

(** * Invariants of the reachable states *)

Section Invariants.

Context {W : Type} `{Storage W}.

(** X22.  What the ledger keeps.  In every state reached from [NewScale] by
    calls of the methods, of a ledger of at least one slot: the slice has as
    many slots as the capacity, the count of valid measurements is between 0
    and the capacity, the cursor is at least -1, and once a measurement is
    counted the cursor is the position of a slot.  The cursor of a ledger
    that counts nothing can be past the slots: [loadDataFromStore] sets it
    from the number of measurements of the store. *)
Theorem reachable_ledger_invariant (c : Time) (e : Env W) :
  reachable c e ->
  1 <= size (scale e) ->
  len (Measurements (scale e)) = size (scale e) /\
  0 <= valid (scale e) <= size (scale e) /\
  -1 <= index (scale e) /\
  (0 < valid (scale e) -> 0 <= index (scale e) < size (scale e)).
Proof.
  intros Hreach Hn. pose proof (reachable_wf c e Hreach Hn) as Hwf.
  split; [apply (wf_len _ Hwf)|]. split; [apply (wf_valid _ Hwf)|].
  split; [apply (wf_index _ Hwf)|]. clear Hwf. revert Hn.
  induction Hreach as [n t1 t2 t3 store e Ht Hl Hnew | c e o Hreach IH _];
    intros Hn.
  - destruct (NewScale_fields _ _ _ _ _ _ Hnew) as (_ & _ & Hv & _). lia.
  - rewrite run_op_size in Hn |- *. specialize (IH Hn).
    pose proof (reachable_wf c e Hreach Hn) as Hwf.
    pose proof (others_keep_ledger o e) as Hl.
    destruct o as [now weight| | | | | | | | | |];
      try (pose proof (f_equal (fun p => p.1.1.2) Hl) as Hi;
           pose proof (f_equal snd Hl) as Hv;
           cbn [ledger fst snd] in Hi, Hv; rewrite Hi, Hv; exact IH).
    cbn [run_op]. destruct (implausible weight) eqn:Himp.
    + rewrite (AddMeasurement_rejected now weight e Himp). exact IH.
    + destruct (AddMeasurement_step now weight e [] Hwf (ring_nil _) Himp)
        as (err & e' & Hrun & _ & _ & _ & Hidx & _).
      rewrite Hrun. cbn [snd]. rewrite Hidx. intros _.
      apply (next_index_range _ Hwf).
Qed.

(** X23.  No method panics on a ledger of at least one slot.  In every
    state reached from [NewScale] by calls of the methods, of a ledger of at
    least one slot, every method returns, for every argument: an append of
    any weight, whatever the store answers, and a read at any offset that
    is not so far below zero that the sum of the cursor, the capacity and
    its opposite passes the largest [int]. *)
Theorem methods_return (c : Time) (e : Env W) :
  reachable c e ->
  1 <= size (scale e) ->
  (forall now weight, returns (AddMeasurement now weight) e) /\
  (forall i, index (scale e) + size (scale e) - GoInt.max_int <= i ->
             returns (GetMeasurement i) e) /\
  returns GetLastMeasurement e /\
  (forall tOpened tLastOk, returns (Ping tOpened tLastOk) e) /\
  (forall tCheck tClosed, returns (Recheck tCheck tClosed) e) /\
  (forall now, returns (IsOk now) e) /\
  (forall rssi, returns (SetRssi rssi) e) /\
  returns GetValidCount e /\
  (forall n, returns (HasLastN n) e) /\
  (forall n, returns (SumLastN n) e) /\
  (forall n, returns (AvgLastN n) e) /\
  (forall keg, returns (SetActiveKeg keg) e).
Proof.
  intros Hreach Hn. pose proof (reachable_wf c e Hreach Hn) as Hwf.
  assert (Hread : forall i,
            index (scale e) + size (scale e) - GoInt.max_int <= i ->
            returns (GetMeasurement i) e).
  { intros i Hi.
    destruct (Z.lt_ge_cases (valid (scale e)) i) as [Hgt | Hle].
    - exists emptyMeasurement.
      rewrite (GetMeasurement_guarded i e (or_introl Hgt)). reflexivity.
    - pose proof (wf_index _ Hwf) as Hidx.
      destruct (GetMeasurement_read i e Hwf) as (m & _ & _ & Hget).
      + unfold GoInt.min_int, GoInt.max_int in *. lia.
      + exact Hle.
      + lia.
      + exists m. rewrite Hget. reflexivity. }
  repeat split.
  - intros now weight. destruct (implausible weight) eqn:Himp.
    + exists None. rewrite (AddMeasurement_rejected now weight e Himp).
      reflexivity.
    + destruct (AddMeasurement_step now weight e [] Hwf (ring_nil _) Himp)
        as (err & e' & Hrun & _).
      exists err. rewrite Hrun. reflexivity.
  - exact Hread.
  - apply (Hread 0). pose proof (wf_index_max _ Hwf). lia.
  - intros t1 t2. exists tt. rewrite Ping_run. reflexivity.
  - intros t1 t2. exists tt.
    destruct (Z.le_gt_cases OkLimit (Since t1 (LastOk (scale e))))
      as [Hs | Hf].
    + destruct (IsOpen (pub (scale e))) eqn:Ho.
      * rewrite (Recheck_closes t1 t2 e Ho Hs). reflexivity.
      * rewrite (Recheck_stays_closed t1 t2 e Ho Hs). reflexivity.
    + rewrite (Recheck_fresh t1 t2 e) by (unfold stale; lia). reflexivity.
  - intros now. eexists. reflexivity.
  - intros rssi. eexists. reflexivity.
  - eexists. reflexivity.
  - intros n. eexists. reflexivity.
  - intros n. destruct (SumLastN_safe n e (or_introl Hwf)) as [x Hx].
    exists x. rewrite Hx. reflexivity.
  - intros n. unfold returns, AvgLastN.
    unfold bind at 1. unfold get_scale at 1. cbn [fst snd].
    destruct (_ =? 0); [eexists; reflexivity|].
    destruct (SumLastN_safe
                (if size (scale e) <? n then size (scale e) else n) e
                (or_introl Hwf)) as [x Hx].
    unfold bind. rewrite Hx. eexists. reflexivity.
  - intros keg. unfold returns. rewrite SetActiveKeg_run.
    destruct (store_SetActiveKeg keg (world e)) as [err w'].
    exists err. reflexivity.
Qed.

(** X24.  A store that never refuses.  Over a store whose [AddMeasurement]
    returns no error, as the one of [FakeStore] does, appends of plausible
    readings on a well-formed ledger all return nil and are all counted, up
    to the capacity. *)
Theorem appends_over_a_willing_store_are_counted (e : Env W)
    (rs : list reading) :
  (forall m w, (store_AddMeasurement m w).1 = None) ->
  wf (scale e) ->
  all_plausible rs ->
  exists errs e',
    AddMeasurements rs e = (Ret errs, e') /\
    all_stored errs /\
    valid (scale e') = Z.min (valid (scale e) + len rs) (size (scale e)).
Proof.
  intros Hstore Hwf Hpl.
  destruct (AddMeasurements_run rs e [] Hwf (ring_nil _) Hpl)
    as (errs & e' & Hrun & _ & _ & _ & _ & Hval).
  exists errs, e'. split; [exact Hrun|].
  assert (Hst : all_stored errs); [|split; [exact Hst | exact (Hval Hst)]].
  clear Hval. revert e errs e' Hwf Hrun.
  induction rs as [|[now weight] rs IH]; intros e errs e' Hwf Hrun.
  - injection Hrun as <- _. constructor.
  - inversion Hpl as [|? ? Hw Hpl']; subst. cbn [snd] in Hw.
    pose proof (plausible_not_implausible _ Hw) as Himp.
    destruct (AddMeasurement_step now weight e [] Hwf (ring_nil _) Himp)
      as (err & e1 & Hrun1 & Hwf1 & _).
    cbn [AddMeasurements fst snd] in Hrun. unfold bind at 1 in Hrun.
    rewrite Hrun1 in Hrun. unfold bind at 1 in Hrun.
    destruct (AddMeasurements rs e1) as [[errs1|msg] e2] eqn:Hrest;
      [|discriminate Hrun].
    injection Hrun as <- _.
    assert (Herr : err = None).
    { pose proof Hrun1 as Hacc.
      rewrite (AddMeasurement_accepted now weight e Himp Hwf) in Hacc.
      cbv zeta in Hacc.
      pose proof (Hstore (pushed now weight (scale e)) (world e)) as Hs.
      destruct (store_AddMeasurement _ (world e)) as [[err0|] w'];
        cbn [fst] in Hs; [discriminate Hs|].
      injection Hacc as Hn _. symmetry. exact Hn. }
    constructor; [exact Herr|]. exact (IH Hpl' e1 errs1 e2 Hwf1 Hrest).
Qed.

End Invariants.

(** * The further properties on concrete scales *)

Lemma fresh_over_wf {W : Type} (n : Z) (w : W) :
  1 <= n <= max_slice_len -> wf (scale (fresh_over n w)).
Proof. exact (fresh_wf n). Qed.

Lemma offset_past_the_appends_reads_empty_witness :
  exists errs e',
    AddMeasurements [(10, 7000%float); (11, 7001%float); (12, 7002%float)]
      (fresh 3) = (Ret errs, e') /\
    (forall i, size (scale (fresh 3)) < i ->
       GetMeasurement i e' = (Ret emptyMeasurement, after_lock e')) /\
    (all_stored errs ->
     forall i,
       valid (scale (fresh 3))
       + len [(10, 7000%float); (11, 7001%float); (12, 7002%float)] < i ->
       GetMeasurement i e' = (Ret emptyMeasurement, after_lock e')).
Proof.
  apply (offset_past_the_appends_reads_empty (fresh 3)
           [(10, 7000%float); (11, 7001%float); (12, 7002%float)]).
  - apply fresh_wf, max_slice_len_bounds.
  - exact all_plausible_readings.
Defined.

Lemma reads_return_the_latest_appends_witness :
  exists errs e',
    AddMeasurements [(10, 7000%float); (11, 7001%float); (12, 7002%float)]
      (fresh 2) = (Ret errs, e') /\
    (all_stored errs ->
     exists m,
       GetMeasurement (Z.of_nat 1) e' = (Ret m, after_read e') /\
       Weight m = 7001%float /\ At m = 11).
Proof.
  apply (reads_return_the_latest_appends (fresh 2)
           [(10, 7000%float); (11, 7001%float); (12, 7002%float)] 1 11 7001).
  - apply fresh_wf, max_slice_len_bounds.
  - exact all_plausible_readings.
  - cbn. lia.
  - reflexivity.
Defined.

Lemma SumLastN_adds_the_latest_weights_witness :
  exists errs e',
    AddMeasurements [(10, 7000%float); (11, 7001%float); (12, 7002%float)]
      (fresh 2) = (Ret errs, e') /\
    SumLastN 5 e' =
      (Ret (sum_weights
              (take (Z.to_nat (Z.min 5 (size (scale (fresh 2)))))
                    (reverse [(10, 7000%float); (11, 7001%float);
                              (12, 7002%float)]))),
       after_lock e').
Proof.
  apply (SumLastN_adds_the_latest_weights (fresh 2)
           [(10, 7000%float); (11, 7001%float); (12, 7002%float)] 5).
  - apply fresh_wf, max_slice_len_bounds.
  - exact all_plausible_readings.
  - lia.
  - unfold len. cbn. lia.
Defined.

Lemma AvgLastN_divides_the_sum_witness :
  exists errs e',
    AddMeasurements [(10, 7000%float); (11, 7001%float); (12, 7002%float)]
      (fresh 2) = (Ret errs, e') /\
    AvgLastN 2 e' =
      (Ret (PrimFloat.div
              (sum_weights
                 (take (Z.to_nat (Z.min 2 (size (scale (fresh 2)))))
                       (reverse [(10, 7000%float); (11, 7001%float);
                                 (12, 7002%float)])))
              (float64_of_int (Z.min 2 (size (scale (fresh 2)))))),
       after_lock e').
Proof.
  apply (AvgLastN_divides_the_sum (fresh 2)
           [(10, 7000%float); (11, 7001%float); (12, 7002%float)] 2).
  - apply fresh_wf, max_slice_len_bounds.
  - exact all_plausible_readings.
  - lia.
  - unfold len. cbn. lia.
Defined.

Lemma HasLastN_counts_the_stored_appends_witness :
  exists errs e',
    AddMeasurements [(10, 7000%float); (11, 7001%float); (12, 7002%float)]
      (fresh 3) = (Ret errs, e') /\
    (all_stored errs ->
     HasLastN 2 e' =
       (Ret (Z.min 2 (size (scale (fresh 3)))
             <=? Z.min (valid (scale (fresh 3))
                        + len [(10, 7000%float); (11, 7001%float);
                               (12, 7002%float)])
                       (size (scale (fresh 3)))),
        after_lock e')).
Proof.
  apply (HasLastN_counts_the_stored_appends (fresh 3)
           [(10, 7000%float); (11, 7001%float); (12, 7002%float)] 2).
  - apply fresh_wf, max_slice_len_bounds.
  - exact all_plausible_readings.
Defined.

Lemma refused_append_is_written_not_counted_witness :
  exists e',
    AddMeasurement 5 7000 (fresh_over 3 redis_unreachable) =
      (Ret (Some (ErrWrap "could not store measurement: %w" redis_down)),
       e') /\
    valid (scale e') = valid (scale (fresh_over 3 redis_unreachable)) /\
    index (scale e') = next_index (scale (fresh_over 3 redis_unreachable)) /\
    (GetMeasurement 0 e').1 =
      Ret (pushed 5 7000 (scale (fresh_over 3 redis_unreachable))).
Proof.
  apply (refused_append_is_written_not_counted 5 7000
           (fresh_over 3 redis_unreachable) redis_down).
  - apply fresh_over_wf, max_slice_len_bounds.
  - reflexivity.
  - reflexivity.
Defined.

Lemma aggregates_never_panic_witness :
  (exists x, SumLastN (-4) opened = (Ret x, after_lock opened)) /\
  (exists x e', AvgLastN (-4) opened = (Ret x, e') /\
                scale e' = scale opened /\ world e' = world opened).
Proof. exact (aggregates_never_panic 0 opened (-4) opened_reachable). Defined.

Lemma mutex_taken_and_released_in_order_witness :
  lock_discipline false (reverse (trace opened)) = Some false /\
  forall n,
    lock_discipline false (reverse (trace (AvgLastN n opened).2))
      = Some false.
Proof.
  exact (mutex_taken_and_released_in_order 0 opened opened_reachable).
Defined.

Lemma NewScale_loads_the_store_witness :
  exists e,
    NewScale 3 1 2 3 redis_seeded = Ret e /\
    size (scale e) = 3 /\
    valid (scale e) = 0 /\
    Measurements (scale e) =
      match (store_GetMeasurements redis_seeded).1.2,
            last (store_GetMeasurements redis_seeded).1.1 with
      | None, Some m => <[0%nat := m]> (zeros 3)
      | _, _ => zeros 3
      end /\
    index (scale e) =
      match (store_GetMeasurements redis_seeded).1.2 with
      | None => GoInt.sub (len (store_GetMeasurements redis_seeded).1.1) 1
      | Some _ => -1
      end /\
    ActiveKeg (scale e) =
      match (store_GetActiveKeg (store_GetMeasurements redis_seeded).2).1.2
      with
      | None => (store_GetActiveKeg (store_GetMeasurements redis_seeded).2).1.1
      | Some _ => 0
      end /\
    IsOpen (pub (scale e)) = false /\
    world e = (store_GetActiveKeg (store_GetMeasurements redis_seeded).2).2 /\
    trace e = [EvStore CallGetActiveKeg; EvStore CallGetMeasurements].
Proof.
  apply (NewScale_loads_the_store 3 1 2 3 redis_seeded).
  unfold max_slice_len. lia.
Defined.


Lemma appends_reach_the_redis_list_witness :
  exists errs e',
    AddMeasurements [(10, 7000%float); (11, 7001%float); (12, 7002%float)]
      (fresh_over 2 redis_seeded) = (Ret errs, e') /\
    all_stored errs /\
    valid (scale e') =
      Z.min (valid (scale (fresh_over 2 redis_seeded))
             + len [(10, 7000%float); (11, 7001%float); (12, 7002%float)])
            (size (scale (fresh_over 2 redis_seeded))) /\
    (store_GetMeasurements (world e')).1 =
      (ltrim_last_1000
         (measurements_list (world (fresh_over 2 redis_seeded))
            ++ pushes (index (scale (fresh_over 2 redis_seeded)))
                 (size (scale (fresh_over 2 redis_seeded)))
                 [(10, 7000%float); (11, 7001%float); (12, 7002%float)]),
       None) /\
    (length (measurements_list (world e')) <= 1000)%nat /\
    active_keg_key (world e')
      = active_keg_key (world (fresh_over 2 redis_seeded)).
Proof.
  apply (appends_reach_the_redis_list (fresh_over 2 redis_seeded)
           [(10, 7000%float); (11, 7001%float); (12, 7002%float)]).
  - apply fresh_over_wf, max_slice_len_bounds.
  - exact all_plausible_readings.
  - reflexivity.
  - cbn. lia.
Defined.

Lemma active_keg_survives_a_restart_witness :
  ActiveKeg (scale (SetActiveKeg 30 (fresh_over 3 redis_empty)).2) = 30 /\
  (SetActiveKeg 30 (fresh_over 3 redis_empty)).1 =
    Ret (if connected (world (fresh_over 3 redis_empty))
         then None else Some redis_down) /\
  exists e2,
    NewScale 3 1 2 3 (world (SetActiveKeg 30 (fresh_over 3 redis_empty)).2)
      = Ret e2 /\
    ActiveKeg (scale e2) =
      if connected (world (fresh_over 3 redis_empty)) then 30 else 0.
Proof.
  apply (active_keg_survives_a_restart (fresh_over 3 redis_empty) 30 3 1 2 3).
  unfold max_slice_len. lia.
Defined.

Lemma rejected_message_changes_nothing_witness :
  exists out msg code,
    scaleMessageHandler "secret" "push" parse_push post_without_token
      1 2 3 (fresh 3) = (Ret out, fresh 3) /\
    last out = Some (HttpError msg code) /\
    In code [StatusMethodNotAllowed; StatusUnauthorized;
             StatusInternalServerError; StatusBadRequest] /\
    ~ In (WriteString "OK") out.
Proof.
  apply (rejected_message_changes_nothing "secret" "push" parse_push
           post_without_token 1 2 3 (fresh 3)).
  right. left. cbn. discriminate.
Defined.

Lemma accepted_message_records_the_contact_witness :
  exists out e',
    scaleMessageHandler "secret" "push" parse_push post_with_token
      1 2 3 (fresh 3) = (Ret out, e') /\
    last out = Some (WriteString "OK") /\
    IsOpen (pub (scale e')) = true /\
    LastOk (scale e') = 2 /\
    Rssi (scale e') = ScaleMessage.Rssi push_471 /\
    ActiveKeg (scale e') = ActiveKeg (scale (fresh 3)) /\
    (String.eqb (ScaleMessage.MessageType push_471) "push" = true ->
     head (trace e') =
       Some (EvGaugeSet kegWeight (ScaleMessage.Value push_471))) /\
    if String.eqb (ScaleMessage.MessageType push_471) "push"
       && negb (implausible (ScaleMessage.Value push_471))
    then
      index (scale e') = next_index (scale (fresh 3)) /\
      Measurements (scale e') !! Z.to_nat (next_index (scale (fresh 3))) =
        Some {| Index := next_index (scale (fresh 3));
                Weight := ScaleMessage.Value push_471; At := 3 |}
    else ledger (scale e') = ledger (scale (fresh 3)) /\
         world e' = world (fresh 3).
Proof.
  apply (accepted_message_records_the_contact "secret" "push" parse_push
           post_with_token "push|471|-74.5|7000" push_471 1 2 3 (fresh 3)).
  - apply fresh_wf, max_slice_len_bounds.
  - reflexivity.
  - reflexivity.
  - reflexivity.
  - reflexivity.
Defined.

Lemma print_lists_the_latest_weights_witness :
  exists errs e',
    AddMeasurements [(10, 7000%float); (11, 7001%float); (12, 7002%float)]
      (fresh 2) = (Ret errs, e') /\
    (all_stored errs ->
     exists e'',
       scalePrintHandler get_request e' =
         (Ret ((fun x : reading => WriteSprintf "%.2f;" x.2)
                 <$> take (Z.to_nat (size (scale (fresh 2))))
                       (reverse [(10, 7000%float); (11, 7001%float);
                                 (12, 7002%float)])), e'') /\
       scale e'' = scale e' /\ world e'' = world e').
Proof.
  apply (print_lists_the_latest_weights (fresh 2)
           [(10, 7000%float); (11, 7001%float); (12, 7002%float)]
           get_request).
  - apply fresh_wf, max_slice_len_bounds.
  - reflexivity.
  - exact all_plausible_readings.
  - reflexivity.
Defined.

Lemma deprecated_value_appends_then_pings_witness :
  exists out e',
    scaleValueHandler "secret" parse_7000 post_with_token 1 2 3 (fresh 3)
      = (Ret out, e') /\
    last out = Some (WriteString "OK") /\
    IsOpen (pub (scale e')) = true /\
    LastOk (scale e') = 3 /\
    if implausible 7000
    then ledger (scale e') = ledger (scale (fresh 3)) /\
         world e' = world (fresh 3)
    else
      index (scale e') = next_index (scale (fresh 3)) /\
      Measurements (scale e') !! Z.to_nat (next_index (scale (fresh 3))) =
        Some {| Index := next_index (scale (fresh 3)); Weight := 7000;
                At := 1 |}.
Proof.
  apply (deprecated_value_appends_then_pings "secret" parse_7000
           post_with_token "push|471|-74.5|7000" 7000 1 2 3 (fresh 3)).
  - apply fresh_wf, max_slice_len_bounds.
  - reflexivity.
  - reflexivity.
  - reflexivity.
  - reflexivity.
Defined.

Lemma reachable_ledger_invariant_witness :
  len (Measurements (scale opened)) = size (scale opened) /\
  0 <= valid (scale opened) <= size (scale opened) /\
  -1 <= index (scale opened) /\
  (0 < valid (scale opened) ->
   0 <= index (scale opened) < size (scale opened)).
Proof.
  apply (reachable_ledger_invariant 0 opened opened_reachable). cbn. lia.
Defined.

Lemma methods_return_witness :
  (forall now weight, returns (AddMeasurement now weight) opened) /\
  (forall i,
     index (scale opened) + size (scale opened) - GoInt.max_int <= i ->
     returns (GetMeasurement i) opened) /\
  returns GetLastMeasurement opened /\
  (forall tOpened tLastOk, returns (Ping tOpened tLastOk) opened) /\
  (forall tCheck tClosed, returns (Recheck tCheck tClosed) opened) /\
  (forall now, returns (IsOk now) opened) /\
  (forall rssi, returns (SetRssi rssi) opened) /\
  returns GetValidCount opened /\
  (forall n, returns (HasLastN n) opened) /\
  (forall n, returns (SumLastN n) opened) /\
  (forall n, returns (AvgLastN n) opened) /\
  (forall keg, returns (SetActiveKeg keg) opened).
Proof.
  apply (methods_return 0 opened opened_reachable). cbn. lia.
Defined.

Lemma appends_over_a_willing_store_are_counted_witness :
  exists errs e',
    AddMeasurements [(10, 7000%float); (11, 7001%float); (12, 7002%float)]
      (fresh 2) = (Ret errs, e') /\
    all_stored errs /\
    valid (scale e') =
      Z.min (valid (scale (fresh 2))
             + len [(10, 7000%float); (11, 7001%float); (12, 7002%float)])
            (size (scale (fresh 2))).
Proof.
  apply (appends_over_a_willing_store_are_counted (fresh 2)
           [(10, 7000%float); (11, 7001%float); (12, 7002%float)]).
  - intros m w. reflexivity.
  - apply fresh_wf, max_slice_len_bounds.
  - exact all_plausible_readings.
Defined.
